(** * scrapy-patterns: site structure discovery and category based traversal

    A shallow embedding of
      - [scrapy_patterns/spiderlings/site_structure_discoverer.py]
        (class [SiteStructureDiscoverer]) and
      - [scrapy_patterns/spiders/category_based_spider.py]
        (class [CategoryBasedSpider]),
    together with the properties their specification states about them.

    The modules [site_structure] (classes [VisitState], [Node],
    [SiteStructure]), [category_based_spider_state], [site_pager] and
    [request_factory] are imported by the two files but are not part of the
    sources at hand; the operations of theirs that the two classes call are
    modelled from the specification and marked as such. *)

From Stdlib Require Import String Ascii List ZArith Lia Bool Arith PeanoNat.
Import ListNotations.

Set Implicit Arguments.

(* ===================================================================== *)
(** ** Python values used by both classes *)
(* ===================================================================== *)

(** The exceptions that the modelled code can raise. *)
Inductive Exception : Type :=
| ValueError (msg : string)
| IndexError
| NotFound
| TypeError
| AttributeError.

(** The outcome of a call that may raise.  Where the call also changes
    state, the state reached is returned beside the outcome in both cases,
    since a Python exception does not undo earlier assignments. *)
Definition Outcome (A : Type) : Type := (Exception + A)%type.

Definition slash : ascii := "/"%char.

(** [str.split("/")]: the segments between slashes; never an empty list. *)
Fixpoint split_slash (s : string) : list string :=
  match s with
  | EmptyString => [EmptyString]
  | String c rest =>
      if Ascii.eqb c slash then EmptyString :: split_slash rest
      else match split_slash rest with
           | seg :: more => String c seg :: more
           | [] => [String c EmptyString]
           end
  end.

(** ["/".join(names)]. *)
Fixpoint join_slash (names : list string) : string :=
  match names with
  | [] => EmptyString
  | [nm] => nm
  | nm :: more => String.append nm (String slash (join_slash more))
  end.

(** Whether a string contains a slash. *)
Fixpoint has_slash (s : string) : bool :=
  match s with
  | EmptyString => false
  | String c rest => Ascii.eqb c slash || has_slash rest
  end.

(* ===================================================================== *)
(** ** The category tree (module [site_structure]) *)
(* ===================================================================== *)

Module site_structure.

(** Modelled from the spec: the enumeration [VisitState] of module
    [site_structure] (spec, section 3: "one of NEW | IN_PROGRESS | VISITED"). *)
Inductive VisitState : Type := NEW | IN_PROGRESS | VISITED.

Definition VisitState_eqb (a b : VisitState) : bool :=
  match a, b with
  | NEW, NEW | IN_PROGRESS, IN_PROGRESS | VISITED, VISITED => true
  | _, _ => false
  end.

Lemma VisitState_eqb_eq (a b : VisitState) : VisitState_eqb a b = true <-> a = b.
Proof. destruct a, b; simpl; split; intro H; try reflexivity; discriminate H. Qed.

Lemma VisitState_eqb_refl (a : VisitState) : VisitState_eqb a a = true.
Proof. now destruct a. Qed.

(** Modelled from the spec: class [Node] of module [site_structure] (spec,
    section 3).  The tree owns its nodes top-down; the non-owning [parent]
    back-reference of the Python object is not a field here: a node is
    referred to by a [NodeRef], and its parent is the tail of that
    reference. *)
Unset Elimination Schemes.
Inductive Node : Type :=
  mkNode { name : string;
           url : option string;
           visit_state : VisitState;
           children : list Node }.
Set Elimination Schemes.

(** A reference to a node of a tree: the child indices met when following
    the [parent] pointers from the node up to the root.  The root is [[]];
    the [i]-th child of the node [h] is [i :: h]. *)
Definition NodeRef : Type := list nat.

(** [node.parent], [None] at the root. *)
Definition parent (h : NodeRef) : option NodeRef :=
  match h with
  | [] => None
  | _ :: hp => Some hp
  end.

Definition with_children (n : Node) (cs : list Node) : Node :=
  mkNode (name n) (url n) (visit_state n) cs.

Definition with_url (n : Node) (u : string) : Node :=
  mkNode (name n) (Some u) (visit_state n) (children n).

(** A freshly created node: "new nodes default to visit_state = NEW, no URL". *)
Definition new_node (nm : string) : Node := mkNode nm None NEW [].

(** Replace the [i]-th element of a list by its image under [f]; nothing
    happens out of range. *)
Fixpoint update_nth {A : Type} (i : nat) (f : A -> A) (l : list A) : list A :=
  match l, i with
  | [], _ => []
  | x :: l', O => f x :: l'
  | x :: l', S i' => x :: update_nth i' f l'
  end.

(** The node a reference points to. *)
Fixpoint node_at (t : Node) (h : NodeRef) : option Node :=
  match h with
  | [] => Some t
  | i :: hp =>
      match node_at t hp with
      | Some p => nth_error (children p) i
      | None => None
      end
  end.

(** In-place mutation of the node a reference points to. *)
Fixpoint update_at (t : Node) (h : NodeRef) (f : Node -> Node) : Node :=
  match h with
  | [] => f t
  | i :: hp => update_at t hp (fun p => with_children p (update_nth i f (children p)))
  end.

(** Modelled from the spec: [Node.set_visit_state(state, propagate)] (spec,
    section 4.1): "sets the node's state; if propagate is true, also forces
    the same state on every descendant". *)
Fixpoint set_visit_state (st : VisitState) (propagate : bool) (n : Node) : Node :=
  match n with
  | mkNode nm u _ cs =>
      mkNode nm u st
        (if propagate
         then (fix force (l : list Node) : list Node :=
                 match l with
                 | [] => []
                 | c :: l' => set_visit_state st propagate c :: force l'
                 end) cs
         else cs)
  end.

(** Modelled from the spec: [find_leaf_with_visit_state(state)] (spec,
    section 4.1): "pre-order traversal, returns the first leaf (no children)
    whose visit_state == state; returns null if none exists".  [h] is the
    reference of [n]; the result is the reference of the leaf found. *)
Fixpoint find_leaf_from (st : VisitState) (n : Node) (h : NodeRef) : option NodeRef :=
  match n with
  | mkNode _ _ s [] => if VisitState_eqb s st then Some h else None
  | mkNode _ _ _ cs =>
      (fix scan (l : list Node) (i : nat) : option NodeRef :=
         match l with
         | [] => None
         | c :: l' =>
             match find_leaf_from st c (i :: h) with
             | Some r => Some r
             | None => scan l' (S i)
             end
         end) cs 0
  end.

(** Modelled from the spec: class [SiteStructure] of module [site_structure]
    (spec, section 3: "Root exists even if discovery finds zero categories
    (degenerate single-node tree keyed by the site name)"). *)
Definition SiteStructure : Type := Node.

(** Modelled from the spec: [SiteStructure(name)], the tree with its root
    only. *)
Definition SiteStructure_init (site_name : string) : SiteStructure := new_node site_name.

(** Modelled from the spec: [SiteStructure.find_leaf_with_visit_state(state)],
    the search from the root. *)
Definition find_leaf_with_visit_state (t : SiteStructure) (st : VisitState) : option NodeRef :=
  find_leaf_from st t [].

(** The index of the first child called [seg]. *)
Fixpoint child_index (seg : string) (cs : list Node) : option nat :=
  match cs with
  | [] => None
  | c :: cs' =>
      if String.eqb (name c) seg then Some 0
      else option_map S (child_index seg cs')
  end.

(** Apply [f] to the first child called [seg], creating that child at the
    end of the list when there is none: "look up an existing child by name
    before creating one". *)
Fixpoint upsert_child (seg : string) (f : Node -> Node) (cs : list Node) : list Node :=
  match cs with
  | [] => [f (new_node seg)]
  | c :: cs' =>
      if String.eqb (name c) seg then f c :: cs'
      else c :: upsert_child seg f cs'
  end.

Fixpoint insert_segments (segs : list string) (u : string) (n : Node) : Node :=
  match segs with
  | [] => with_url n u
  | seg :: rest =>
      with_children n (upsert_child seg (insert_segments rest u) (children n))
  end.

(** Modelled from the spec: [SiteStructure.add_node_with_path(path, url)]
    (spec, section 4.1, [insert_with_path]): "splits path into segments,
    walks/creates intermediate nodes (new nodes default to visit_state = NEW,
    no URL), sets the URL on the terminal node". *)
Definition add_node_with_path (t : SiteStructure) (path : string) (u : string) : SiteStructure :=
  insert_segments (split_slash path) u t.

Fixpoint lookup_segments (segs : list string) (n : Node) (h : NodeRef) : option NodeRef :=
  match segs with
  | [] => Some h
  | seg :: rest =>
      match child_index seg (children n) with
      | Some i =>
          match nth_error (children n) i with
          | Some c => lookup_segments rest c (i :: h)
          | None => None
          end
      | None => None
      end
  end.

(** Modelled from the spec: [SiteStructure.get_node_at_path(path)] (spec,
    section 4.1): "fails with NotFound if any segment is missing".  [None]
    stands for the raised [NotFound]. *)
Definition get_node_at_path (t : SiteStructure) (path : string) : option NodeRef :=
  lookup_segments (split_slash path) t [].

(** The names met from the root's child down to the node (the root's own
    name, the site name, is not part of a path). *)
Fixpoint path_names (t : Node) (h : NodeRef) : list string :=
  match h with
  | [] => []
  | _ :: hp =>
      (path_names t hp ++
       match node_at t h with
       | Some n => [name n]
       | None => []
       end)%list
  end.

(** Modelled from the spec: [Node.get_path()] (spec, section 3: "a node's
    path is the slash-joined chain of ancestor names down to itself"). *)
Definition get_path (t : SiteStructure) (h : NodeRef) : string :=
  join_slash (path_names t h).

End site_structure.

(* ===================================================================== *)
(** ** The discovery engine (module [site_structure_discoverer]) *)
(* ===================================================================== *)

Module site_structure_discoverer.
Import site_structure.

Section Discoverer.

(** [scrapy.http.Response]: the fetched page handed to the parsers. *)
Variable Response : Type.
(** What the completion callback hands back: "a scrapy request to continue
    the scraping with". *)
Variable Continuation : Type.
(** The state of the callback's owner, which the callback may change. *)
Variable World : Type.

(** [CategoryParser.parse]: "List of tuples, where the first element is the
    URL of the category, and the second is the name." *)
Definition CategoryParser : Type := Response -> list (string * string).

(** [request_factory.create(url, self.__process_category_response,
    cb_kwargs={"category_index": ..., "path": ...})]: a fetch task whose
    continuation is [process_category_response] with these keyword
    arguments. *)
Record CategoryRequest : Type :=
  { request_url : string;
    category_index : nat;
    path : option string }.

(** The public attributes of the discoverer, which is what the completion
    callback is given ([remaining_work], the parsers and the start URL are
    private, name-mangled attributes). *)
Record Discovered : Type :=
  { discovered_name : string;
    discovered_structure : SiteStructure }.

Definition Callback : Type := Discovered -> World -> World * option Continuation.

Record SiteStructureDiscoverer : Type :=
  { name : string;
    structure : SiteStructure;
    start_url : string;
    category_parsers : list CategoryParser;
    remaining_work : Z;
    on_discovery_complete : Callback }.

Definition public (d : SiteStructureDiscoverer) : Discovered :=
  {| discovered_name := name d; discovered_structure := structure d |}.

(** [__do_nothing]. *)
Definition do_nothing : Callback := fun _ w => (w, None).

(** What a caller hands over as [spider]: a spider object, whose [name]
    attribute [__init__] reads, or a plain string, which has no such
    attribute. *)
Inductive SpiderArgument : Type :=
| SpiderObject (spider_name : string)
| NameString (s : string).

(** [spider.name] (line 41). *)
Definition spider_name_of (spider : SpiderArgument) : Outcome string :=
  match spider with
  | SpiderObject spider_name => inr spider_name
  | NameString _ => inl AttributeError
  end.

(** [__init__] once [spider.name] has been read: [spider_name] is its
    value. *)
Definition init (spider_name : string) (start : string)
  (parsers : list CategoryParser) (callback : option Callback) : SiteStructureDiscoverer :=
  {| name := spider_name;
     structure := SiteStructure_init spider_name;
     start_url := start;
     category_parsers := parsers;
     remaining_work := 0;
     on_discovery_complete :=
       match callback with
       | Some f => f
       | None => do_nothing
       end |}.

(** [SiteStructureDiscoverer(spider, start_url, category_parsers,
    request_factory, on_discovery_complete)]: [__init__] from its first
    line; reading [spider.name] raises when [spider] has no such
    attribute. *)
Definition construct (spider : SpiderArgument) (start : string)
  (parsers : list CategoryParser) (callback : option Callback)
  : Outcome SiteStructureDiscoverer :=
  match spider_name_of spider with
  | inl e => inl e
  | inr spider_name => inr (init spider_name start parsers callback)
  end.

Definition set_remaining_work (d : SiteStructureDiscoverer) (n : Z) : SiteStructureDiscoverer :=
  {| name := name d;
     structure := structure d;
     start_url := start_url d;
     category_parsers := category_parsers d;
     remaining_work := n;
     on_discovery_complete := on_discovery_complete d |}.

Definition set_structure (d : SiteStructureDiscoverer) (t : SiteStructure) : SiteStructureDiscoverer :=
  {| name := name d;
     structure := t;
     start_url := start_url d;
     category_parsers := category_parsers d;
     remaining_work := remaining_work d;
     on_discovery_complete := on_discovery_complete d |}.

(** [create_start_request]. *)
Definition create_start_request (d : SiteStructureDiscoverer)
  : SiteStructureDiscoverer * CategoryRequest :=
  (set_remaining_work d (remaining_work d + 1),
   {| request_url := start_url d; category_index := 0; path := None |}).

(** [__get_urls_and_names]. *)
Definition get_urls_and_names (response : Response) (category_parser : CategoryParser)
  : list (string * string) :=
  category_parser response.

(** [name if path is None else path + "/" + name]. *)
Definition structure_path_of (parent_path : option string) (nm : string) : string :=
  match parent_path with
  | None => nm
  | Some p => String.append p (String slash nm)
  end.

(** The body of [for url, name in urls_and_names], with the tree and the
    list [requests] as loop state. *)
Fixpoint for_urls_and_names (n_parsers index : nat) (parent_path : option string)
  (urls_and_names : list (string * string))
  (t : SiteStructure) (requests : list CategoryRequest)
  : SiteStructure * list CategoryRequest :=
  match urls_and_names with
  | [] => (t, requests)
  | (u, nm) :: rest =>
      let structure_path := structure_path_of parent_path nm in
      let t' := add_node_with_path t structure_path u in
      let requests' :=
        if index + 1 <? n_parsers
        then (requests ++
              [{| request_url := u;
                  category_index := index + 1;
                  path := Some structure_path |}])%list
        else requests in
      for_urls_and_names n_parsers index parent_path rest t' requests'
  end.

(** What the generator [__process_category_response] yields. *)
Inductive Yielded : Type :=
| YieldCompletion (result : option Continuation)
| YieldRequest (req : CategoryRequest).

(** [__process_category_response], run to exhaustion as the framework does
    with a callback's generator.  Logging is left out. *)
Definition process_category_response (d : SiteStructureDiscoverer) (w : World)
  (response : Response) (index : nat) (parent_path : option string)
  : (SiteStructureDiscoverer * World) * Outcome (list Yielded) :=
  let d1 := set_remaining_work d (remaining_work d - 1) in
  match nth_error (category_parsers d1) index with
  | None => ((d1, w), inl IndexError)
  | Some category_parser =>
      let urls_and_names := get_urls_and_names response category_parser in
      let '(t, requests) :=
        for_urls_and_names (List.length (category_parsers d1)) index parent_path
          urls_and_names (structure d1) [] in
      let d2 := set_structure d1 t in
      let d3 := set_remaining_work d2 (remaining_work d2 + Z.of_nat (List.length requests)) in
      if (remaining_work d3 =? 0)%Z
      then
        let '(w', result) := on_discovery_complete d3 (public d3) w in
        ((d3, w'), inr (YieldCompletion result :: map YieldRequest requests))
      else ((d3, w), inr (map YieldRequest requests))
  end.

(** *** The fetch collaborator

    "accepts (url, continuation, context), eventually invokes
    continuation(response_body, context) exactly once per issued task": the
    requests in flight are resolved one at a time, in any order. *)

(** The site: the page served at each URL. *)
Variable fetch : string -> Response.

Record Crawl : Type :=
  { discoverer : SiteStructureDiscoverer;
    world : World;
    (** dispatched, not yet resolved *)
    in_flight : list CategoryRequest;
    (** what the completion callback returned, once per invocation *)
    forwarded : list (option Continuation) }.

Fixpoint remove_nth {A : Type} (k : nat) (l : list A) : list A :=
  match l, k with
  | [], _ => []
  | _ :: l', O => l'
  | x :: l', S k' => x :: remove_nth k' l'
  end.

Fixpoint requests_of (ys : list Yielded) : list CategoryRequest :=
  match ys with
  | [] => []
  | YieldRequest r :: ys' => r :: requests_of ys'
  | YieldCompletion _ :: ys' => requests_of ys'
  end.

Fixpoint completions_of (ys : list Yielded) : list (option Continuation) :=
  match ys with
  | [] => []
  | YieldRequest _ :: ys' => completions_of ys'
  | YieldCompletion c :: ys' => c :: completions_of ys'
  end.

(** The crawl once the start request has been dispatched. *)
Definition start_crawl (d : SiteStructureDiscoverer) (w : World) : Crawl :=
  let '(d', r) := create_start_request d in
  {| discoverer := d'; world := w; in_flight := [r]; forwarded := [] |}.

(** The [k]-th request in flight resolves.  [None] when there is no such
    request or when the continuation raises. *)
Definition resolve (k : nat) (c : Crawl) : option Crawl :=
  match nth_error (in_flight c) k with
  | None => None
  | Some r =>
      match process_category_response (discoverer c) (world c)
              (fetch (request_url r)) (category_index r) (path r) with
      | ((d', w'), inr ys) =>
          Some {| discoverer := d';
                  world := w';
                  in_flight := (remove_nth k (in_flight c) ++ requests_of ys)%list;
                  forwarded := (forwarded c ++ completions_of ys)%list |}
      | (_, inl _) => None
      end
  end.

(** A schedule says which in-flight request resolves next, step by step. *)
Fixpoint run (schedule : list nat) (c : Crawl) : option Crawl :=
  match schedule with
  | [] => Some c
  | k :: rest =>
      match resolve k c with
      | Some c' => run rest c'
      | None => None
      end
  end.

(** The follow-up tasks of the task [(index, u)]. *)
Definition spawned (parsers : list CategoryParser) (index : nat) (u : string) : list string :=
  match nth_error parsers index with
  | Some category_parser =>
      if index + 1 <? List.length parsers
      then map fst (category_parser (fetch u))
      else []
  | None => []
  end.

(** The number of fetches in the part of the site below the task
    [(index, u)], itself included; [depth] bounds the levels below. *)
Fixpoint work (parsers : list CategoryParser) (depth index : nat) (u : string) : nat :=
  match depth with
  | O => 1
  | S depth' =>
      S (list_sum (map (work parsers depth' (S index)) (spawned parsers index u)))
  end.

Definition request_work (parsers : list CategoryParser) (r : CategoryRequest) : nat :=
  work parsers (List.length parsers - 1 - category_index r) (category_index r) (request_url r).

Definition pending_work (parsers : list CategoryParser) (l : list CategoryRequest) : nat :=
  list_sum (map (request_work parsers) l).

(** The number of fetches of a whole discovery run. *)
Definition total_work (parsers : list CategoryParser) (start : string) : nat :=
  work parsers (List.length parsers - 1) 0 start.

End Discoverer.

End site_structure_discoverer.

(* ===================================================================== *)
(** ** The traversal coordinator (module [category_based_spider]) *)
(* ===================================================================== *)

Module category_based_spider.
Import site_structure.

(** Modelled from the spec: the persisted crawl state (spec, section 3:
    "{ site_structure: Category Tree snapshot, current_leaf_path:
    string|null, current_page_url: string|null }"), as [save] writes it and
    [load] reads it. *)
Record Snapshot : Type :=
  { saved_site_structure : SiteStructure;
    saved_page_site_path : option string;
    saved_page_url : option string }.

(** Modelled from the spec: class [CategoryBasedSpiderState] of module
    [category_based_spider_state] (spec, sections 3 and 6).  [store] is what
    the backing storage has been given, the latest snapshot first. *)
Record CategoryBasedSpiderState : Type :=
  { site_structure : SiteStructure;
    current_page_url : option string;
    current_page_site_path : option string;
    is_loaded : bool;
    store : list Snapshot }.

(** Modelled from the spec: [CategoryBasedSpiderState(name, progress_file_dir)]
    (spec, section 6: "load() -> State | absent ... called once at startup").
    [persisted] is what the progress file holds, if there is one. *)
Definition CategoryBasedSpiderState_init (spider_name : string) (persisted : option Snapshot)
  : CategoryBasedSpiderState :=
  match persisted with
  | Some snap =>
      {| site_structure := saved_site_structure snap;
         current_page_url := saved_page_url snap;
         current_page_site_path := saved_page_site_path snap;
         is_loaded := true;
         store := [snap] |}
  | None =>
      {| site_structure := SiteStructure_init spider_name;
         current_page_url := None;
         current_page_site_path := None;
         is_loaded := false;
         store := [] |}
  end.

Definition snapshot (st : CategoryBasedSpiderState) : Snapshot :=
  {| saved_site_structure := site_structure st;
     saved_page_site_path := current_page_site_path st;
     saved_page_url := current_page_url st |}.

(** Modelled from the spec: [CategoryBasedSpiderState.save()] (spec,
    section 6: "save(state) -> void"). *)
Definition save (st : CategoryBasedSpiderState) : CategoryBasedSpiderState :=
  {| site_structure := site_structure st;
     current_page_url := current_page_url st;
     current_page_site_path := current_page_site_path st;
     is_loaded := is_loaded st;
     store := snapshot st :: store st |}.

Definition set_site_structure (st : CategoryBasedSpiderState) (t : SiteStructure)
  : CategoryBasedSpiderState :=
  {| site_structure := t;
     current_page_url := current_page_url st;
     current_page_site_path := current_page_site_path st;
     is_loaded := is_loaded st;
     store := store st |}.

Definition set_current_page_url (st : CategoryBasedSpiderState) (u : option string)
  : CategoryBasedSpiderState :=
  {| site_structure := site_structure st;
     current_page_url := u;
     current_page_site_path := current_page_site_path st;
     is_loaded := is_loaded st;
     store := store st |}.

Definition set_current_page_site_path (st : CategoryBasedSpiderState) (p : option string)
  : CategoryBasedSpiderState :=
  {| site_structure := site_structure st;
     current_page_url := current_page_url st;
     current_page_site_path := p;
     is_loaded := is_loaded st;
     store := store st |}.

(** Modelled from the spec: class [SitePager] of module [site_pager] (spec,
    section 6, the single-leaf pagination collaborator: "given a leaf's start
    URL, a page finished callback ... and a paging finished callback").  The
    two callbacks are always the spider's own handlers. *)
Record SitePager : Type := { pager_start_url : option string }.

(** Modelled from the spec: the request a pager starts with, a fetch of its
    start URL. *)
Record PagerRequest : Type := { pager_request_url : option string }.

(** Modelled from the spec: [SitePager.create_start_request()] ("starts
    pagination at the leaf's URL"). *)
Definition pager_create_start_request (pager : SitePager) : PagerRequest :=
  {| pager_request_url := pager_start_url pager |}.

Section Spider.

Variable Response : Type.

Local Abbreviation CategoryParser := (site_structure_discoverer.CategoryParser Response).

(** [scrapy.Spider.__init__(name, **kwargs)]: the name the spider ends up
    with, unless the framework refuses to build it. *)
Variable Spider_init : option string -> Outcome string.

(** [type(self).__name__]. *)
Variable class_name : string.

(** The class attribute [start_url] ([None] in [CategoryBasedSpider]; a
    subclass may set it). *)
Variable class_start_url : option string.

(** Modelled from the spec: the default of the [propagate] parameter of
    [Node.set_visit_state], which the propagation step relies on. *)
Variable default_propagate : bool.

(** The attributes of a spider that the control flow depends on.  The
    request factory and the page parsers are only handed on to the
    collaborators. *)
Record CategoryBasedSpider : Type :=
  { name : string;
    start_url : string;
    category_selectors : list CategoryParser;
    spider_state : CategoryBasedSpiderState;
    site_pager : option SitePager }.

Definition set_spider_state (s : CategoryBasedSpider) (st : CategoryBasedSpiderState)
  : CategoryBasedSpider :=
  {| name := name s;
     start_url := start_url s;
     category_selectors := category_selectors s;
     spider_state := st;
     site_pager := site_pager s |}.

Definition set_site_pager (s : CategoryBasedSpider) (pager : SitePager) : CategoryBasedSpider :=
  {| name := name s;
     start_url := start_url s;
     category_selectors := category_selectors s;
     spider_state := spider_state s;
     site_pager := Some pager |}.

(** Python truth of an optional string: neither [None] nor empty. *)
Definition truthy (v : option string) : bool :=
  match v with
  | Some (String _ _) => true
  | _ => false
  end.

(** [__init__]; [persisted] is the content of the progress file in
    [progress_file_dir], if any. *)
Definition init (persisted : option Snapshot)
  (selectors : option (list CategoryParser)) (name_arg start_url_arg : option string)
  : Outcome CategoryBasedSpider :=
  match Spider_init name_arg with
  | inl e => inl e
  | inr self_name =>
      match selectors with
      | None => inl (ValueError (String.append class_name " must have category selectors"))
      | Some selectors' =>
          let make (u : string) : CategoryBasedSpider :=
            {| name := self_name;
               start_url := u;
               category_selectors := selectors';
               spider_state := CategoryBasedSpiderState_init self_name persisted;
               site_pager := None |} in
          match start_url_arg with
          | Some u => inr (make u)
          | None =>
              if negb (truthy class_start_url)
              then inl (ValueError (String.append class_name " must have start URL"))
              else match class_start_url with
                   | Some u => inr (make u)
                   | None => inl (ValueError (String.append class_name " must have start URL"))
                   end
          end
      end
  end.

(** [__create_site_pager]. *)
Definition create_site_pager (u : option string) : SitePager :=
  {| pager_start_url := u |}.

(** [__on_page_finished]; logging is left out. *)
Definition on_page_finished (s : CategoryBasedSpider) (next_page_url : option string)
  : CategoryBasedSpider :=
  set_spider_state s (save (set_current_page_url (spider_state s) next_page_url)).

(** [next_category.url]. *)
Definition url_at (t : SiteStructure) (h : NodeRef) : option string :=
  match node_at t h with
  | Some n => url n
  | None => None
  end.

(** [__progress_to_next_category]; logging is left out.  [if next_category:]
    tests for [None], a node object being true. *)
Definition progress_to_next_category (s : CategoryBasedSpider)
  : CategoryBasedSpider * option PagerRequest :=
  let st := spider_state s in
  match find_leaf_with_visit_state (site_structure st) NEW with
  | Some next_category =>
      let t := update_at (site_structure st) next_category (set_visit_state IN_PROGRESS true) in
      let st1 := set_site_structure st t in
      let pager := create_site_pager (url_at t next_category) in
      let st2 := set_current_page_url st1 (url_at t next_category) in
      let st3 := set_current_page_site_path st2 (Some (get_path t next_category)) in
      let st4 := save st3 in
      (set_site_pager (set_spider_state s st4) pager,
       Some (pager_create_start_request pager))
  | None => (s, None)
  end.

(** [__are_category_children_visited]. *)
Definition are_category_children_visited (category_node : Node) : bool :=
  (fix loop (l : list Node) : bool :=
     match l with
     | [] => true
     | child :: l' =>
         if negb (VisitState_eqb (visit_state child) VISITED) then false else loop l'
     end) (children category_node).

(** [__propagate_visited_if_siblings_visited]: [h] refers to
    [category_node], its tail to [category_node.parent], which is [None] (and
    so false) at the root only. *)
Fixpoint propagate_visited_if_siblings_visited (t : SiteStructure) (h : NodeRef)
  : SiteStructure :=
  match h with
  | [] => t
  | _ :: hp =>
      match node_at t hp with
      | Some parent_node =>
          if are_category_children_visited parent_node
          then propagate_visited_if_siblings_visited
                 (update_at t hp (set_visit_state VISITED default_propagate)) hp
          else t
      | None => t
      end
  end.

(** The first half of [__on_paging_finished]: the leaf is marked, then its
    ancestors. *)
Definition mark_visited (t : SiteStructure) (h : NodeRef) : SiteStructure :=
  propagate_visited_if_siblings_visited (update_at t h (set_visit_state VISITED false)) h.

(** [__on_paging_finished]; logging is left out.  A path that is [None]
    cannot be looked up. *)
Definition on_paging_finished (s : CategoryBasedSpider)
  : CategoryBasedSpider * Outcome (option PagerRequest) :=
  let st := spider_state s in
  match current_page_site_path st with
  | None => (s, inl TypeError)
  | Some current_category_path =>
      match get_node_at_path (site_structure st) current_category_path with
      | None => (s, inl NotFound)
      | Some current_category_node =>
          let t := mark_visited (site_structure st) current_category_node in
          let '(s', request) :=
            progress_to_next_category (set_spider_state s (set_site_structure st t)) in
          (s', inr request)
      end
  end.

(** [_on_site_structure_discovery_complete]. *)
Definition on_site_structure_discovery_complete
  (discoverer : site_structure_discoverer.Discovered) (s : CategoryBasedSpider)
  : CategoryBasedSpider * option PagerRequest :=
  let st := set_site_structure (spider_state s)
              (site_structure_discoverer.discovered_structure discoverer) in
  progress_to_next_category (set_spider_state s (save st)).

(** What [start_requests] can yield: the start request of a pager, or that
    of a discoverer created for the occasion. *)
Inductive StartRequest : Type :=
| Resume (request : PagerRequest)
| Discover
    (discoverer : site_structure_discoverer.SiteStructureDiscoverer
                    Response PagerRequest CategoryBasedSpider)
    (request : site_structure_discoverer.CategoryRequest).

(** [start_requests], run to exhaustion: what it yields, or the exception
    it raises before yielding.  Line 36 hands the discoverer [self.name], a
    string, as its [spider]. *)
Definition start_requests (s : CategoryBasedSpider)
  : CategoryBasedSpider * Outcome (list StartRequest) :=
  if is_loaded (spider_state s)
  then
    let pager := create_site_pager (current_page_url (spider_state s)) in
    (set_site_pager s pager, inr [Resume (pager_create_start_request pager)])
  else
    match site_structure_discoverer.construct
            (site_structure_discoverer.NameString (name s)) (start_url s)
            (category_selectors s) (Some on_site_structure_discovery_complete) with
    | inl e => (s, inl e)
    | inr site_discoverer =>
        let '(site_discoverer', request) :=
          site_structure_discoverer.create_start_request site_discoverer in
        (s, inr [Discover site_discoverer' request])
    end.

End Spider.

End category_based_spider.

(* ===================================================================== *)
(** ** Properties of the discovery engine *)
(* ===================================================================== *)

Module discoverer_facts.
Import site_structure site_structure_discoverer.

Section Processing.

Variables Response Continuation World : Type.

Local Abbreviation Discoverer := (SiteStructureDiscoverer Response Continuation World).

(** The tree after inserting every pair of a page, in order. *)
Definition insert_all (parent_path : option string) (pairs : list (string * string))
  (t : SiteStructure) : SiteStructure :=
  fold_left (fun acc p => add_node_with_path acc (structure_path_of parent_path (snd p)) (fst p))
    pairs t.

(** The follow-up fetch tasks of a page: one per pair, tagged with the next
    level and the pair's path, when there is a next level; none otherwise. *)
Definition follow_ups (n_parsers index : nat) (parent_path : option string)
  (pairs : list (string * string)) : list CategoryRequest :=
  if index + 1 <? n_parsers
  then map (fun p => {| request_url := fst p;
                        category_index := index + 1;
                        path := Some (structure_path_of parent_path (snd p)) |}) pairs
  else [].

Lemma for_urls_and_names_eq n_parsers index parent_path pairs :
  forall t requests,
    for_urls_and_names n_parsers index parent_path pairs t requests =
    (insert_all parent_path pairs t,
     requests ++ follow_ups n_parsers index parent_path pairs).
Proof.
  unfold insert_all, follow_ups.
  induction pairs as [|[u nm] rest IH]; intros t requests; simpl.
  - destruct (index + 1 <? n_parsers); now rewrite app_nil_r.
  - rewrite IH. destruct (index + 1 <? n_parsers); simpl.
    + now rewrite <- app_assoc.
    + reflexivity.
Qed.

Lemma requests_of_map_YieldRequest (l : list CategoryRequest) :
  requests_of (map (@YieldRequest Continuation) l) = l.
Proof. induction l as [|r l IH]; simpl; [reflexivity | now rewrite IH]. Qed.

Lemma completions_of_map_YieldRequest (l : list CategoryRequest) :
  completions_of (map (@YieldRequest Continuation) l) = [].
Proof. induction l as [|r l IH]; simpl; [reflexivity | exact IH]. Qed.

(** What one resolution does, in closed form. *)
Lemma process_category_response_eq (d : Discoverer) (w : World) response index parent_path
  category_parser :
  nth_error (category_parsers d) index = Some category_parser ->
  let pairs := category_parser response in
  let requests := follow_ups (length (category_parsers d)) index parent_path pairs in
  let d' := set_remaining_work
              (set_structure (set_remaining_work d (remaining_work d - 1))
                 (insert_all parent_path pairs (structure d)))
              (remaining_work d - 1 + Z.of_nat (length requests)) in
  process_category_response d w response index parent_path =
  if (remaining_work d - 1 + Z.of_nat (length requests) =? 0)%Z
  then ((d', fst (on_discovery_complete d (public d') w)),
        inr (YieldCompletion (snd (on_discovery_complete d (public d') w))
               :: map (@YieldRequest Continuation) requests))
  else ((d', w), inr (map (@YieldRequest Continuation) requests)).
Proof.
  intros Hp pairs requests d'.
  unfold process_category_response. simpl. rewrite Hp.
  unfold get_urls_and_names. rewrite for_urls_and_names_eq. simpl.
  fold pairs. fold requests. fold d'.
  destruct (remaining_work d - 1 + Z.of_nat (length requests) =? 0)%Z; [|reflexivity].
  now destruct (on_discovery_complete d (public d') w).
Qed.

(** C3. A resolving fetch task tagged [(index, parent_path)] lowers the
    pending-work counter by 1 and raises it by the number of follow-up tasks;
    it applies the parser of level [index] to the page, inserts every pair at
    [name] (no parent path) or [parent_path + "/" + name] with the pair's URL,
    in order, and yields one follow-up task per pair, tagged
    [(index + 1, structure_path)], exactly when [index + 1] is less than the
    number of parsers (none otherwise).  [create_start_request] raises the
    counter by 1 and returns one task for the start URL tagged [(0, None)]. *)
Theorem process_category_response_contract (d : Discoverer) (w : World) response index
  parent_path category_parser :
  nth_error (category_parsers d) index = Some category_parser ->
  let pairs := category_parser response in
  let result := process_category_response d w response index parent_path in
  let d' := fst (fst result) in
  (exists ys,
      snd result = inr ys /\
      requests_of ys =
        (if index + 1 <? length (category_parsers d)
         then map (fun p => {| request_url := fst p;
                               category_index := index + 1;
                               path := Some (match parent_path with
                                             | None => snd p
                                             | Some pp => String.append pp (String "/" (snd p))
                                             end) |}) pairs
         else []) /\
      remaining_work d' = (remaining_work d - 1 + Z.of_nat (length (requests_of ys)))%Z) /\
  structure d' =
    fold_left (fun t p => add_node_with_path t
                            (match parent_path with
                             | None => snd p
                             | Some pp => String.append pp (String "/" (snd p))
                             end) (fst p)) pairs (structure d) /\
  category_parsers d' = category_parsers d /\
  start_url d' = start_url d /\
  remaining_work (fst (create_start_request d)) = (remaining_work d + 1)%Z /\
  snd (create_start_request d) =
    {| request_url := start_url d; category_index := 0; path := None |}.
Proof.
  intros Hp pairs result d'.
  pose proof (process_category_response_eq d w response index parent_path Hp) as E.
  cbv zeta in E. fold pairs in E.
  unfold d', result. rewrite E. clear E.
  set (requests := follow_ups (length (category_parsers d)) index parent_path pairs).
  assert (Hreq : requests =
    (if index + 1 <? length (category_parsers d)
     then map (fun p => {| request_url := fst p;
                           category_index := index + 1;
                           path := Some (match parent_path with
                                         | None => snd p
                                         | Some pp => String.append pp (String "/" (snd p))
                                         end) |}) pairs
     else [])) by reflexivity.
  destruct (remaining_work d - 1 + Z.of_nat (length requests) =? 0)%Z;
    cbn [fst snd];
    (split; [eexists; split; [reflexivity|]; cbn [requests_of];
             rewrite requests_of_map_YieldRequest; split; [exact Hreq | reflexivity]
            | repeat split; reflexivity]).
Qed.

End Processing.

Lemma process_category_response_contract_witness :
  exists ys,
    snd (process_category_response
           (fst (create_start_request
                   (init (Continuation := unit) (World := unit) "site" "s"
                      [fun _ : unit => [("u1", "a"); ("u2", "b")]; fun _ : unit => []] None)%string))
           tt tt 0 None) = inr ys /\
    requests_of ys =
      [ {| request_url := "u1"; category_index := 1; path := Some "a" |};
        {| request_url := "u2"; category_index := 1; path := Some "b" |} ]%string.
Proof.
  destruct (@process_category_response_contract unit unit unit
              (fst (create_start_request
                      (init (Continuation := unit) (World := unit) "site" "s"
                         [fun _ : unit => [("u1", "a"); ("u2", "b")]; fun _ : unit => []] None)%string))
              tt tt 0 None _ eq_refl) as [[ys [H1 [H2 _]]] _].
  exists ys. split; [exact H1 | exact H2].
Defined.

(** C8, as the code has it.  Without a completion callback the discoverer
    still yields once when the counter reaches zero: the value [None] that
    [__do_nothing] returns, ahead of the fetch tasks.  It is no request, the
    owner's state is untouched, and nothing else is yielded beyond the fetch
    tasks. *)
Theorem absent_callback_yields_none (Response Continuation World : Type)
  (spider_name start : string) (parsers : list (CategoryParser Response))
  (d : SiteStructureDiscoverer Response Continuation World) (w : World)
  (response : Response) (index : nat) (parent_path : option string)
  (category_parser : CategoryParser Response) :
  on_discovery_complete d = on_discovery_complete (init spider_name start parsers None) ->
  nth_error (category_parsers d) index = Some category_parser ->
  let result := process_category_response d w response index parent_path in
  snd (fst result) = w /\
  snd result =
    inr ((if (remaining_work (fst (fst result)) =? 0)%Z
          then [YieldCompletion None]
          else [])
         ++ map (@YieldRequest Continuation)
              (follow_ups (length (category_parsers d)) index parent_path
                 (category_parser response))).
Proof.
  intros Hcb Hp result.
  pose proof (@process_category_response_eq _ _ _ d w response index parent_path _ Hp) as E.
  cbv zeta in E. unfold result. rewrite E. clear E.
  rewrite Hcb. cbn [init on_discovery_complete do_nothing fst snd].
  destruct (remaining_work d - 1 +
            Z.of_nat (length (follow_ups (length (category_parsers d)) index parent_path
                                (category_parser response))) =? 0)%Z eqn:Ez;
    cbn [fst snd remaining_work set_remaining_work]; rewrite Ez; split; reflexivity.
Qed.

Lemma absent_callback_yields_none_witness :
  snd (process_category_response
         (fst (create_start_request
                 (init (Continuation := unit) (World := unit) "site" "s"
                    [fun _ : unit => []] None)%string))
         tt tt 0 None)
  = inr [YieldCompletion None].
Proof.
  exact (proj2 (@absent_callback_yields_none unit unit unit "site" "s" [fun _ : unit => []]
                  (fst (create_start_request
                          (init (Continuation := unit) (World := unit) "site" "s"
                             [fun _ : unit => []] None)%string))
                  tt tt 0 None _ eq_refl eq_refl)).
Defined.

(** C8, as stated, fails: a start page without categories, no callback.  The
    counter reaches zero and the generator yields a value that is none of
    its fetch tasks. *)
Lemma silent_completion_counterexample :
  let d := fst (create_start_request
                  (init (Continuation := unit) (World := unit) "site" "s"
                     [fun _ : unit => []] None)%string) in
  let result := process_category_response d tt tt 0 None in
  remaining_work (fst (fst result)) = 0%Z /\
  exists ys, snd result = inr ys /\
             completions_of ys = [None] /\
             ys <> map (@YieldRequest unit) (requests_of ys).
Proof.
  cbv zeta. split; [reflexivity|].
  exists [YieldCompletion None]. split; [reflexivity|]. split; [reflexivity|].
  simpl. discriminate.
Qed.

Section DiscoveryRun.

Variables Response Continuation World : Type.
Variable fetch : string -> Response.
Variable parsers : list (CategoryParser Response).
Variable callback : Callback Continuation World.
Variable start : string.
Variable w0 : World.

Local Abbreviation Crawl := (Crawl Response Continuation World).

Lemma length_remove_nth {A : Type} (k : nat) (l : list A) :
  k < length l -> S (length (remove_nth k l)) = length l.
Proof.
  revert k. induction l as [|x l IH]; intros [|k] H; simpl in *; try lia.
  specialize (IH k). lia.
Qed.

Lemma Forall_remove_nth {A : Type} (P : A -> Prop) (k : nat) (l : list A) :
  Forall P l -> Forall P (remove_nth k l).
Proof.
  revert k. induction l as [|x l IH]; intros [|k] H; simpl; trivial;
    inversion H; subst; auto.
Qed.

Lemma list_sum_remove_nth {A : Type} (f : A -> nat) (k : nat) (l : list A) (x : A) :
  nth_error l k = Some x ->
  list_sum (map f l) = f x + list_sum (map f (remove_nth k l)).
Proof.
  revert k. induction l as [|y l IH]; intros [|k] H; simpl in *; try discriminate.
  - now inversion H.
  - rewrite (IH k H). lia.
Qed.

Lemma work_pos depth index u : 1 <= work fetch parsers depth index u.
Proof. destruct depth; simpl; lia. Qed.

Lemma pending_work_nil_iff (l : list CategoryRequest) :
  pending_work fetch parsers l = 0 <-> l = [].
Proof.
  split; [|intros ->; reflexivity].
  destruct l as [|r l]; [reflexivity|]. unfold pending_work. simpl.
  unfold request_work at 1.
  pose proof (work_pos (length parsers - 1 - category_index r) (category_index r) (request_url r)).
  lia.
Qed.

(** The work below a task is the task itself and the work below its
    follow-up tasks. *)
Lemma request_work_unfold (r : CategoryRequest) category_parser :
  category_index r < length parsers ->
  nth_error parsers (category_index r) = Some category_parser ->
  request_work fetch parsers r =
  S (pending_work fetch parsers
       (follow_ups (length parsers) (category_index r) (path r)
          (category_parser (fetch (request_url r))))).
Proof.
  intros Hlt Hp. unfold request_work, pending_work, follow_ups.
  destruct (category_index r + 1 <? length parsers) eqn:E.
  - apply Nat.ltb_lt in E.
    replace (length parsers - 1 - category_index r)
      with (S (length parsers - 1 - (category_index r + 1))) by lia.
    cbn [work]. f_equal. unfold spawned. rewrite Hp.
    assert (E' : (category_index r + 1 <? length parsers) = true) by now apply Nat.ltb_lt.
    rewrite E'. rewrite !map_map. f_equal. apply map_ext. intros [u nm].
    unfold request_work. cbn [category_index request_url fst].
    now replace (category_index r + 1) with (S (category_index r)) by lia.
  - apply Nat.ltb_ge in E.
    replace (length parsers - 1 - category_index r) with 0 by lia. reflexivity.
Qed.

(** What holds of a crawl after [steps] resolutions. *)
Record crawl_inv (steps : nat) (c : Crawl) : Prop :=
  { inv_parsers : category_parsers (discoverer c) = parsers;
    inv_callback : on_discovery_complete (discoverer c) = callback;
    inv_counter : remaining_work (discoverer c) = Z.of_nat (length (in_flight c));
    inv_levels : Forall (fun r => category_index r < length parsers) (in_flight c);
    inv_work : steps + pending_work fetch parsers (in_flight c) = total_work fetch parsers start;
    inv_before : in_flight c <> [] -> forwarded c = [] /\ world c = w0;
    inv_after : in_flight c = [] ->
                forwarded c = [snd (callback (public (discoverer c)) w0)] /\
                world c = fst (callback (public (discoverer c)) w0) }.

Lemma crawl_inv_start spider_name (cb : option (Callback Continuation World)) :
  parsers <> [] ->
  on_discovery_complete (init (Response := Response) spider_name start parsers cb) = callback ->
  crawl_inv 0 (start_crawl (init spider_name start parsers cb) w0).
Proof.
  intros Hne Hcb. simpl in Hcb. unfold start_crawl, create_start_request, init. simpl.
  rewrite Hcb.
  constructor; simpl; try reflexivity.
  - constructor; [|constructor]. simpl. destruct parsers; [congruence | simpl; lia].
  - unfold pending_work, total_work, request_work. simpl.
    rewrite Nat.sub_0_r. lia.
  - intros _. split; reflexivity.
  - discriminate.
Qed.

Lemma resolve_progress steps (c : Crawl) k :
  crawl_inv steps c -> k < length (in_flight c) -> exists c', resolve fetch k c = Some c'.
Proof.
  intros I Hk. unfold resolve.
  destruct (nth_error (in_flight c) k) as [r|] eqn:Er.
  2:{ apply nth_error_None in Er. lia. }
  assert (Hlt : category_index r < length parsers).
  { pose proof (inv_levels I) as F. rewrite Forall_forall in F.
    apply F. eapply nth_error_In; eauto. }
  destruct (nth_error parsers (category_index r)) as [cp|] eqn:Ep.
  2:{ apply nth_error_None in Ep. lia. }
  rewrite <- (inv_parsers I) in Ep.
  rewrite (@process_category_response_eq _ _ _ (discoverer c) (world c) (fetch (request_url r))
             (category_index r) (path r) cp Ep).
  cbv zeta.
  match goal with |- context [if ?b then _ else _] => destruct b end; eauto.
Qed.

Lemma resolve_inv steps (c c' : Crawl) k :
  crawl_inv steps c -> resolve fetch k c = Some c' -> crawl_inv (S steps) c'.
Proof.
  intros I. unfold resolve.
  destruct (nth_error (in_flight c) k) as [r|] eqn:Er; [|discriminate].
  assert (Hk : k < length (in_flight c)) by (apply nth_error_Some; congruence).
  assert (Hne : in_flight c <> []) by (intros E; rewrite E in Hk; simpl in Hk; lia).
  destruct (inv_before I Hne) as [Hf Hw].
  assert (Hlt : category_index r < length parsers).
  { pose proof (inv_levels I) as F. rewrite Forall_forall in F.
    apply F. eapply nth_error_In; eauto. }
  destruct (nth_error parsers (category_index r)) as [cp|] eqn:Ep.
  2:{ apply nth_error_None in Ep. lia. }
  pose proof (@request_work_unfold r cp Hlt Ep) as Hwork.
  pose proof (@list_sum_remove_nth _ (request_work fetch parsers) k (in_flight c) r Er) as Hsum.
  pose proof (@length_remove_nth _ k (in_flight c) Hk) as Hlen.
  pose proof (inv_work I) as Htot. unfold pending_work in Htot.
  rewrite <- (inv_parsers I) in Ep.
  rewrite (@process_category_response_eq _ _ _ (discoverer c) (world c) (fetch (request_url r))
             (category_index r) (path r) cp Ep).
  cbv zeta. rewrite (inv_parsers I), (inv_callback I), (inv_counter I), Hf, Hw.
  set (requests := follow_ups (length parsers) (category_index r) (path r)
                     (cp (fetch (request_url r)))) in *.
  assert (Hlevels : Forall (fun q => category_index q < length parsers)
                      (remove_nth k (in_flight c) ++ requests)).
  { apply Forall_app. split; [apply Forall_remove_nth, (inv_levels I)|].
    unfold requests, follow_ups.
    destruct (category_index r + 1 <? length parsers) eqn:E; [|constructor].
    apply Nat.ltb_lt in E. apply Forall_forall. intros q Hq.
    apply in_map_iff in Hq. destruct Hq as [p [<- _]]. exact E. }
  assert (Hpend : S steps + pending_work fetch parsers (remove_nth k (in_flight c) ++ requests)
                  = total_work fetch parsers start).
  { unfold pending_work in *. rewrite map_app, list_sum_app. lia. }
  destruct (Z.of_nat (length (in_flight c)) - 1 + Z.of_nat (length requests) =? 0)%Z eqn:Ez;
    intros H; inversion H; subst c'; clear H.
  - apply Z.eqb_eq in Ez.
    assert (Hr : requests = []) by (destruct requests; [reflexivity | simpl in Ez; lia]).
    assert (Hrem : remove_nth k (in_flight c) = [])
      by (destruct (remove_nth k (in_flight c)); [reflexivity | simpl in *; lia]).
    constructor; cbn [discoverer world in_flight forwarded fst snd
                       set_remaining_work set_structure category_parsers
                       on_discovery_complete remaining_work completions_of];
      rewrite ?requests_of_map_YieldRequest, ?completions_of_map_YieldRequest;
      try assumption; try (apply (inv_parsers I)); try (apply (inv_callback I)).
    + rewrite Hr, Hrem. simpl. lia.
    + rewrite Hr, Hrem. intros Hn. now contradiction Hn.
    + intros _. split; reflexivity.
  - apply Z.eqb_neq in Ez.
    constructor; cbn [discoverer world in_flight forwarded fst snd
                       set_remaining_work set_structure category_parsers
                       on_discovery_complete remaining_work];
      rewrite ?requests_of_map_YieldRequest, ?completions_of_map_YieldRequest;
      try assumption; try (apply (inv_parsers I)); try (apply (inv_callback I)).
    + rewrite length_app. lia.
    + intros _. rewrite ?app_nil_r. split; reflexivity.
    + intros Hnil. apply (f_equal (@length _)) in Hnil. rewrite length_app in Hnil.
      simpl in Hnil. lia.
Qed.

Lemma run_inv schedule :
  forall steps (c c' : Crawl),
    crawl_inv steps c -> run fetch schedule c = Some c' ->
    crawl_inv (steps + length schedule) c'.
Proof.
  induction schedule as [|k rest IH]; intros steps c c' I; simpl.
  - intros H. inversion H; subst. now rewrite Nat.add_0_r.
  - destruct (resolve fetch k c) as [c1|] eqn:E; [|discriminate].
    intros H. replace (steps + S (length rest)) with (S steps + length rest) by lia.
    eapply IH; [|exact H]. eapply resolve_inv; eauto.
Qed.

(** From any state of a run the counter can be brought down to zero. *)
Lemma run_completes (n : nat) :
  forall steps (c : Crawl),
    crawl_inv steps c -> pending_work fetch parsers (in_flight c) = n ->
    exists rest c', run fetch rest c = Some c' /\ remaining_work (discoverer c') = 0%Z.
Proof.
  induction n as [|n IH]; intros steps c I Hn.
  - exists [], c. split; [reflexivity|].
    apply pending_work_nil_iff in Hn. rewrite (inv_counter I), Hn. reflexivity.
  - assert (Hk : 0 < length (in_flight c)).
    { destruct (in_flight c); [discriminate Hn | simpl; lia]. }
    destruct (resolve_progress I Hk) as [c1 E].
    pose proof (@resolve_inv steps c c1 0 I E) as I1.
    pose proof (inv_work I) as W. pose proof (inv_work I1) as W1.
    destruct (IH (S steps) c1 I1) as [rest [c' [Hr Hz]]]; [lia|].
    exists (0 :: rest), c'. simpl. rewrite E. now split.
Qed.

End DiscoveryRun.

(** What holds after any run from the start request, whatever the parsers. *)
Lemma run_start_safe (Response Continuation World : Type)
  (fetch : string -> Response) (parsers : list (CategoryParser Response))
  (cb : option (Callback Continuation World)) (spider_name start : string) (w0 : World)
  (schedule : list nat) (c : Crawl Response Continuation World) :
  run fetch schedule (start_crawl (init spider_name start parsers cb) w0) = Some c ->
  let complete := on_discovery_complete (init spider_name start parsers cb) in
  remaining_work (discoverer c) = Z.of_nat (length (in_flight c)) /\
  length schedule + pending_work fetch parsers (in_flight c) = total_work fetch parsers start /\
  (in_flight c <> [] -> forwarded c = [] /\ world c = w0) /\
  (in_flight c = [] ->
     forwarded c = [snd (complete (public (discoverer c)) w0)] /\
     world c = fst (complete (public (discoverer c)) w0)).
Proof.
  intros Hrun complete. destruct parsers as [|p ps] eqn:Ep.
  - destruct schedule as [|k rest].
    + simpl in Hrun. inversion Hrun; subst c. simpl.
      repeat split; try reflexivity; discriminate.
    + exfalso. cbn [run] in Hrun.
      assert (E : resolve fetch k (start_crawl (init spider_name start [] cb) w0) = None).
      { unfold resolve, start_crawl. simpl. destruct k as [|[|k]]; reflexivity. }
      rewrite E in Hrun. discriminate.
  - assert (Hne : p :: ps <> []) by discriminate.
    pose proof (@crawl_inv_start Response Continuation World fetch (p :: ps) complete start w0
                  spider_name cb Hne eq_refl) as I0.
    pose proof (run_inv schedule I0 Hrun) as I. simpl in I.
    split; [apply (inv_counter I)|]. split; [apply (inv_work I)|].
    split; [apply (inv_before I) | apply (inv_after I)].
Qed.

(** C1. A discovery run, whatever the order in which the dispatched fetches
    resolve:
    - the pending-work counter is the number of requests in flight, so it is
      zero only when nothing is left to resolve;
    - that happens after exactly [total_work] resolutions, never earlier and
      never again, since a run cannot be longer;
    - the completion callback has not run while the counter is not zero, and
      has run exactly once, on the finished discoverer, when it is zero;
    - with at least one level of parsers, any request in flight can resolve,
      the run never gets stuck and never raises, and it can always be
      continued until the counter is zero. *)
Theorem discovery_completes_exactly_once (Response Continuation World : Type)
  (fetch : string -> Response) (parsers : list (CategoryParser Response))
  (cb : option (Callback Continuation World)) (spider_name start : string) (w0 : World)
  (schedule : list nat) (c : Crawl Response Continuation World) :
  run fetch schedule (start_crawl (init spider_name start parsers cb) w0) = Some c ->
  let counter := remaining_work (discoverer c) in
  let complete := on_discovery_complete (init spider_name start parsers cb) in
  counter = Z.of_nat (length (in_flight c)) /\
  length schedule <= total_work fetch parsers start /\
  (counter = 0%Z <-> length schedule = total_work fetch parsers start) /\
  (counter <> 0%Z -> forwarded c = [] /\ world c = w0) /\
  (counter = 0%Z ->
     forwarded c = [snd (complete (public (discoverer c)) w0)] /\
     world c = fst (complete (public (discoverer c)) w0)) /\
  (parsers <> [] ->
   (forall k, k < length (in_flight c) -> exists c', resolve fetch k c = Some c') /\
   (exists rest c', run fetch rest c = Some c' /\ remaining_work (discoverer c') = 0%Z)).
Proof.
  intros Hrun counter complete.
  destruct (run_start_safe fetch parsers cb spider_name start w0 schedule Hrun)
    as [Hc [Hw [Hb Ha]]].
  pose proof (pending_work_nil_iff fetch parsers (in_flight c)) as Hnil.
  fold counter in Hc. fold complete in Ha.
  assert (Hz : counter = 0%Z <-> in_flight c = []).
  { rewrite Hc. split.
    - intros H. destruct (in_flight c); [reflexivity | simpl in H; lia].
    - intros ->. reflexivity. }
  split; [exact Hc|]. split; [lia|]. split.
  { rewrite Hz, <- Hnil. lia. }
  split.
  { intros H. apply Hb. intros E. apply H, Hz, E. }
  split.
  { intros H. apply Ha. apply Hz, H. }
  intros Hne.
  pose proof (@crawl_inv_start Response Continuation World fetch parsers complete start w0
                spider_name cb Hne eq_refl) as I0.
  pose proof (run_inv schedule I0 Hrun) as I.
  split.
  - intros k Hk. eapply resolve_progress; eauto.
  - eapply run_completes; [exact I | reflexivity].
Qed.

(** Without any parser the start request itself cannot be processed: the
    counter is lowered, then indexing the empty list raises. *)
Lemma process_without_parsers_raises (Response Continuation World : Type)
  (cb : option (Callback Continuation World)) (spider_name start : string) (w0 : World)
  (response : Response) :
  let d := fst (create_start_request (init (Response := Response) spider_name start [] cb)) in
  process_category_response d w0 response 0 None =
  ((set_remaining_work d 0, w0), inl IndexError).
Proof. reflexivity. Qed.

Lemma discovery_completes_exactly_once_witness :
  let L0 : CategoryParser string := fun _ => [("u1", "a"); ("u2", "b")]%string in
  let L1 : CategoryParser string :=
    fun page => if String.eqb page "u1" then [("u3", "x")]%string else [] in
  exists c,
    run (fun u => u) [0; 1; 0]
      (start_crawl (init "site" "s" [L0; L1] (Some (fun _ (n : nat) => (S n, Some tt)))) 0)
    = Some c /\
    remaining_work (discoverer c) = 0%Z /\
    forwarded c = [Some tt] /\
    world c = 1.
Proof.
  cbv zeta. eexists. split; [vm_compute; reflexivity|].
  split; [reflexivity|].
  match goal with
  | |- forwarded ?c = _ /\ _ =>
      destruct (@discovery_completes_exactly_once string unit nat (fun u => u)
                  [(fun _ : string => [("u1", "a"); ("u2", "b")]%string);
                   (fun page : string =>
                      if String.eqb page "u1" then [("u3", "x")]%string else [])]
                  (Some (fun _ (n : nat) => (S n, Some tt))) "site" "s" 0 [0; 1; 0] c
                  eq_refl) as (_ & _ & _ & _ & H & _)
  end.
  exact (H eq_refl).
Defined.

End discoverer_facts.

Unset Implicit Arguments.

(* ===================================================================== *)
(** ** Properties of the category tree *)
(* ===================================================================== *)

Module tree_facts.
Import site_structure.

(** *** Lists updated by index *)

Lemma nth_error_update_nth {A : Type} (f : A -> A) (l : list A) :
  forall i j,
    nth_error (update_nth i f l) j =
    if Nat.eqb j i then option_map f (nth_error l j) else nth_error l j.
Proof.
  induction l as [|x l IH]; intros [|i] [|j]; simpl; try reflexivity.
  - now destruct (Nat.eqb j i).
  - apply IH.
Qed.

Lemma length_update_nth {A : Type} (f : A -> A) (l : list A) :
  forall i, length (update_nth i f l) = length l.
Proof. induction l as [|x l IH]; intros [|i]; simpl; auto. Qed.

(** *** References *)

(** [below h h']: the node [h'] is the node [h] or one of its descendants. *)
Definition below (h h' : NodeRef) : Prop := exists p, h' = (p ++ h)%list.

Lemma below_refl h : below h h.
Proof. now exists []. Qed.

Lemma below_dec (h h' : NodeRef) : {below h h'} + {~ below h h'}.
Proof.
  induction h' as [|x h'' IH].
  - destruct h as [|y h].
    + left. apply below_refl.
    + right. intros [p Hp]. destruct p; discriminate.
  - destruct (list_eq_dec Nat.eq_dec h (x :: h'')) as [->|Hne].
    + left. apply below_refl.
    + destruct IH as [Hb|Hnb].
      * left. destruct Hb as [p ->]. now exists (x :: p).
      * right. intros [p Hp]. destruct p as [|y p]; simpl in Hp.
        -- now apply Hne.
        -- inversion Hp; subst. apply Hnb. now exists p.
Qed.

Lemma below_cons_inv i h h' : below h (i :: h') -> h = i :: h' \/ below h h'.
Proof.
  intros [p Hp]. destruct p as [|y p]; simpl in Hp.
  - now left.
  - inversion Hp; subst. right. now exists p.
Qed.

Lemma node_at_app (t : Node) (p q : NodeRef) :
  node_at t (p ++ q) =
  match node_at t q with
  | Some m => node_at m p
  | None => None
  end.
Proof.
  induction p as [|i p IH]; simpl.
  - now destruct (node_at t q).
  - rewrite IH. now destruct (node_at t q).
Qed.

Lemma node_at_snoc (t : Node) (p : NodeRef) (i : nat) :
  node_at t (p ++ [i]) =
  match nth_error (children t) i with
  | Some c => node_at c p
  | None => None
  end.
Proof. now rewrite node_at_app. Qed.

Lemma node_at_parent (t : Node) (i : nat) (h : NodeRef) (n : Node) :
  node_at t (i :: h) = Some n ->
  exists pn, node_at t h = Some pn /\ nth_error (children pn) i = Some n.
Proof. simpl. destruct (node_at t h) as [pn|]; [eauto | discriminate]. Qed.

(** *** In-place updates *)

Lemma node_at_update_at_below (t : Node) (h : NodeRef) :
  forall (f : Node -> Node) (p : NodeRef),
    node_at (update_at t h f) (p ++ h) =
    match node_at t h with
    | Some n => node_at (f n) p
    | None => None
    end.
Proof.
  induction h as [|i hp IH]; intros f p.
  - now rewrite app_nil_r.
  - cbn [update_at node_at].
    replace (p ++ i :: hp)%list with ((p ++ [i]) ++ hp)%list by now rewrite <- app_assoc.
    rewrite IH. destruct (node_at t hp) as [pn|]; [|reflexivity].
    rewrite node_at_snoc. cbn [with_children children].
    rewrite nth_error_update_nth, Nat.eqb_refl.
    now destruct (nth_error (children pn) i).
Qed.

Lemma node_at_update_at_same (t : Node) (h : NodeRef) (f : Node -> Node) :
  node_at (update_at t h f) h = option_map f (node_at t h).
Proof.
  pose proof (node_at_update_at_below t h f []) as H. simpl in H. rewrite H.
  now destruct (node_at t h).
Qed.

(** What a node shows of itself: everything but the subtrees below it. *)
Definition label (n : Node) : string * option string * VisitState * nat :=
  (name n, url n, visit_state n, length (children n)).

Definition label_at (t : Node) (h : NodeRef) : option (string * option string * VisitState * nat) :=
  option_map label (node_at t h).

Lemma label_at_update_at_other (t : Node) (h : NodeRef) :
  forall (f : Node -> Node) (h' : NodeRef),
    ~ below h h' -> label_at (update_at t h f) h' = label_at t h'.
Proof.
  induction h as [|i hp IH]; intros f h' Hnb.
  - exfalso. apply Hnb. exists h'. now rewrite app_nil_r.
  - cbn [update_at].
    destruct (below_dec hp h') as [[p ->]|Hnb'].
    + unfold label_at. rewrite node_at_update_at_below, node_at_app.
      destruct (node_at t hp) as [pn|]; [|reflexivity].
      destruct p as [|j p] using rev_ind.
      * simpl. unfold label. cbn [with_children name url visit_state children].
        now rewrite length_update_nth.
      * clear IHp. rewrite !node_at_snoc. cbn [with_children children].
        rewrite nth_error_update_nth.
        destruct (Nat.eqb j i) eqn:E; [|reflexivity].
        apply Nat.eqb_eq in E. subst j. exfalso. apply Hnb. exists p.
        now rewrite <- app_assoc.
    + now apply IH.
Qed.

(** *** Setting visit states *)

Lemma set_visit_state_children_false st (n : Node) :
  children (set_visit_state st false n) = children n.
Proof. now destruct n. Qed.

Lemma set_visit_state_children_true st (n : Node) :
  children (set_visit_state st true n) = map (set_visit_state st true) (children n).
Proof.
  destruct n as [nm u s cs]. cbn [set_visit_state children].
  induction cs as [|c cs IH]; [reflexivity|]. cbn [map]. now rewrite <- IH.
Qed.

Lemma set_visit_state_label st b (n : Node) :
  label (set_visit_state st b n) = (name n, url n, st, length (children n)).
Proof.
  unfold label. destruct b.
  - rewrite set_visit_state_children_true, length_map. now destruct n.
  - rewrite set_visit_state_children_false. now destruct n.
Qed.

Lemma node_at_set_visit_state_true st (p : NodeRef) :
  forall n, node_at (set_visit_state st true n) p
            = option_map (set_visit_state st true) (node_at n p).
Proof.
  induction p as [|i p IH] using rev_ind; intros n; [reflexivity|].
  rewrite !node_at_snoc, set_visit_state_children_true, nth_error_map.
  destruct (nth_error (children n) i) as [c|]; [apply IH | reflexivity].
Qed.

Lemma node_at_set_visit_state_false st (p : NodeRef) (n : Node) :
  p <> [] -> node_at (set_visit_state st false n) p = node_at n p.
Proof.
  destruct p as [|i p _] using rev_ind; [congruence|]. intros _.
  now rewrite !node_at_snoc, set_visit_state_children_false.
Qed.

Definition state_at (t : Node) (h : NodeRef) : option VisitState :=
  option_map visit_state (node_at t h).

(** What a node is, apart from visit states. *)
Definition skeleton (n : Node) : string * option string * nat :=
  (name n, url n, length (children n)).

Definition skeleton_at (t : Node) (h : NodeRef) : option (string * option string * nat) :=
  option_map skeleton (node_at t h).

(** Two trees that differ in visit states only. *)
Definition same_skeleton (t t' : Node) : Prop :=
  forall h, skeleton_at t' h = skeleton_at t h.

(** The nodes whose state [set_visit_state _ propagate] writes when applied
    to the node [h]. *)
Definition touched (propagate : bool) (h h' : NodeRef) : Prop :=
  h' = h \/ (propagate = true /\ below h h').

Lemma touched_below b h h' : touched b h h' -> below h h'.
Proof. intros [->|[_ H]]; [apply below_refl | exact H]. Qed.

Lemma touched_dec b h h' : {touched b h h'} + {~ touched b h h'}.
Proof.
  destruct (list_eq_dec Nat.eq_dec h' h) as [->|Hne]; [left; now left|].
  destruct b.
  - destruct (below_dec h h') as [Hb|Hnb]; [left; now right|].
    right. intros [E|[_ Hb]]; auto.
  - right. intros [E|[E _]]; [auto | discriminate].
Qed.

Lemma state_at_set_touched st b (t : Node) (h h' : NodeRef) (n' : Node) :
  node_at t h' = Some n' -> touched b h h' ->
  state_at (update_at t h (set_visit_state st b)) h' = Some st.
Proof.
  intros Hn Ht. destruct (touched_below _ _ _ Ht) as [p ->].
  unfold state_at. rewrite node_at_update_at_below.
  rewrite node_at_app in Hn. destruct (node_at t h) as [n|]; [|discriminate].
  destruct Ht as [E|[-> _]].
  - assert (p = []) as ->.
    { apply (f_equal (@length _)) in E. rewrite length_app in E.
      destruct p; [reflexivity | simpl in E; lia]. }
    simpl. now destruct n.
  - rewrite node_at_set_visit_state_true, Hn. simpl. now destruct n'.
Qed.

Lemma state_at_set_untouched st b (t : Node) (h h' : NodeRef) :
  ~ touched b h h' ->
  state_at (update_at t h (set_visit_state st b)) h' = state_at t h'.
Proof.
  intros Hnt. destruct (below_dec h h') as [[p ->]|Hnb].
  - unfold state_at. rewrite node_at_update_at_below, node_at_app.
    destruct (node_at t h) as [n|]; [|reflexivity].
    destruct b.
    + exfalso. apply Hnt. right. split; [reflexivity | now exists p].
    + destruct p as [|i p]; [exfalso; apply Hnt; now left|].
      now rewrite node_at_set_visit_state_false.
  - pose proof (label_at_update_at_other t h (set_visit_state st b) h' Hnb) as H.
    unfold label_at in H. unfold state_at.
    destruct (node_at (update_at t h (set_visit_state st b)) h') as [a|],
             (node_at t h') as [c|]; simpl in *; try congruence.
    unfold label in H. congruence.
Qed.

Lemma set_visit_state_same_skeleton st b (t : Node) (h : NodeRef) :
  same_skeleton t (update_at t h (set_visit_state st b)).
Proof.
  intros h'. unfold skeleton_at. destruct (below_dec h h') as [[p ->]|Hnb].
  - rewrite node_at_update_at_below, node_at_app.
    destruct (node_at t h) as [n|]; [|reflexivity].
    destruct b.
    + rewrite node_at_set_visit_state_true.
      destruct (node_at n p) as [m|]; [|reflexivity]. simpl.
      pose proof (set_visit_state_label st true m) as L. unfold label in L.
      unfold skeleton. congruence.
    + destruct p as [|i p].
      * simpl. pose proof (set_visit_state_label st false n) as L. unfold label in L.
        unfold skeleton. congruence.
      * now rewrite node_at_set_visit_state_false.
  - pose proof (label_at_update_at_other t h (set_visit_state st b) h' Hnb) as H.
    unfold label_at in H.
    destruct (node_at (update_at t h (set_visit_state st b)) h') as [a|],
             (node_at t h') as [c|]; simpl in *; try congruence.
    unfold label in H. unfold skeleton. congruence.
Qed.

Lemma same_skeleton_refl t : same_skeleton t t.
Proof. now intros h. Qed.

Lemma same_skeleton_trans t1 t2 t3 :
  same_skeleton t1 t2 -> same_skeleton t2 t3 -> same_skeleton t1 t3.
Proof. intros H1 H2 h. now rewrite H2, H1. Qed.

Lemma same_skeleton_node (t t' : Node) (h : NodeRef) (n : Node) :
  same_skeleton t t' -> node_at t h = Some n ->
  exists n', node_at t' h = Some n' /\ skeleton n' = skeleton n.
Proof.
  intros S Hn. specialize (S h). unfold skeleton_at in S. rewrite Hn in S.
  destruct (node_at t' h) as [n'|]; [|discriminate]. simpl in S.
  exists n'. split; [reflexivity | congruence].
Qed.

Lemma same_skeleton_sym t t' : same_skeleton t t' -> same_skeleton t' t.
Proof. intros S h. now rewrite S. Qed.

(** A leaf: a node without children. *)
Definition leaf_at (t : Node) (h : NodeRef) : Prop :=
  exists n, node_at t h = Some n /\ children n = [].

Lemma same_skeleton_leaf t t' h : same_skeleton t t' -> leaf_at t h -> leaf_at t' h.
Proof.
  intros S [n [Hn Hc]]. destruct (same_skeleton_node _ _ _ _ S Hn) as [n' [Hn' Hs]].
  exists n'. split; [exact Hn'|]. unfold skeleton in Hs.
  assert (L : length (children n') = length (children n)) by congruence.
  rewrite Hc in L. now destruct (children n').
Qed.

Lemma leaf_no_child (t : Node) (h : NodeRef) (j : nat) :
  leaf_at t h -> node_at t (j :: h) = None.
Proof. intros [n [Hn Hc]]. simpl. rewrite Hn, Hc. now destruct j. Qed.

Lemma leaf_below (t : Node) (h h' : NodeRef) (n' : Node) :
  leaf_at t h -> below h h' -> node_at t h' = Some n' -> h' = h.
Proof.
  intros [n [Hn Hc]] [p ->]. rewrite node_at_app, Hn.
  destruct p as [|i p _] using rev_ind; [reflexivity|].
  rewrite node_at_snoc, Hc. now destruct i.
Qed.

(** *** Induction on trees *)

Fixpoint Node_ind (P : Node -> Prop)
  (step : forall nm u s cs, Forall P cs -> P (mkNode nm u s cs)) (n : Node) : P n :=
  match n with
  | mkNode nm u s cs =>
      step nm u s cs
        ((fix all (l : list Node) : Forall P l :=
            match l with
            | [] => Forall_nil P
            | c :: l' => Forall_cons c (Node_ind P step c) (all l')
            end) cs)
  end.

(** *** Looking for a leaf *)

(** The scan of [find_leaf_from] over the children of the node [h], from the
    child of index [i] on. *)
Definition scan_leaf (st : VisitState) (h : NodeRef)
  : list Node -> nat -> option NodeRef :=
  fix scan (l : list Node) (i : nat) : option NodeRef :=
    match l with
    | [] => None
    | c :: l' =>
        match find_leaf_from st c (i :: h) with
        | Some r => Some r
        | None => scan l' (S i)
        end
    end.

Lemma find_leaf_from_eq st (n : Node) (h : NodeRef) :
  find_leaf_from st n h =
  match children n with
  | [] => if VisitState_eqb (visit_state n) st then Some h else None
  | cs => scan_leaf st h cs 0
  end.
Proof. destruct n as [nm u s [|c cs]]; reflexivity. Qed.

Lemma find_leaf_from_sound st (n : Node) :
  forall h r,
    find_leaf_from st n h = Some r ->
    exists p m, r = (p ++ h)%list /\ node_at n p = Some m /\
                children m = [] /\ visit_state m = st.
Proof.
  induction n as [nm u s cs IH] using Node_ind. intros h r.
  rewrite find_leaf_from_eq. cbn [children visit_state].
  destruct cs as [|c0 cs0].
  - destruct (VisitState_eqb s st) eqn:E; [|discriminate].
    intros H. inversion H; subst. exists [], (mkNode nm u s []).
    repeat split. now apply VisitState_eqb_eq.
  - set (cs := c0 :: cs0) in *. clearbody cs.
    assert (G : forall l i,
               Forall (fun c => forall h r, find_leaf_from st c h = Some r ->
                        exists p m, r = (p ++ h)%list /\ node_at c p = Some m /\
                                    children m = [] /\ visit_state m = st) l ->
               scan_leaf st h l i = Some r ->
               exists k c p m, nth_error l k = Some c /\ r = (p ++ (i + k) :: h)%list /\
                               node_at c p = Some m /\ children m = [] /\ visit_state m = st).
    { induction l as [|c l IHl]; intros i F; simpl; [discriminate|].
      inversion F as [|? ? Hc Hl]; subst.
      destruct (find_leaf_from st c (i :: h)) as [r'|] eqn:E.
      - intros H. inversion H; subst r'. destruct (Hc _ _ E) as [p [m [-> [H1 [H2 H3]]]]].
        exists 0, c, p, m. rewrite Nat.add_0_r. auto.
      - intros H. destruct (IHl (S i) Hl H) as [k [c' [p [m [H0 [-> H1]]]]]].
        exists (S k), c', p, m. split; [exact H0|]. split; [|exact H1].
        now replace (i + S k) with (S i + k) by lia. }
    intros H. destruct (G cs 0 IH H) as [k [c [p [m [H0 [-> [H1 [H2 H3]]]]]]]].
    exists (p ++ [k])%list, m. simpl. rewrite <- app_assoc. split; [reflexivity|].
    rewrite node_at_snoc. cbn [children]. rewrite H0. auto.
Qed.

Lemma find_leaf_from_complete st (n : Node) :
  forall h,
    find_leaf_from st n h = None ->
    forall p m, node_at n p = Some m -> children m = [] -> visit_state m <> st.
Proof.
  induction n as [nm u s cs IH] using Node_ind. intros h.
  rewrite find_leaf_from_eq. cbn [children visit_state].
  destruct cs as [|c0 cs0].
  - destruct (VisitState_eqb s st) eqn:E; [discriminate|]. intros _ p m.
    destruct p as [|i p _] using rev_ind.
    + simpl. intros H _. inversion H; subst. simpl. intros ->.
      now rewrite VisitState_eqb_refl in E.
    + rewrite node_at_snoc. simpl. now destruct i.
  - set (cs := c0 :: cs0) in *. assert (Hne : cs <> []) by discriminate. clearbody cs.
    assert (G : forall l i,
               Forall (fun c => forall h, find_leaf_from st c h = None ->
                        forall p m, node_at c p = Some m -> children m = [] ->
                                    visit_state m <> st) l ->
               scan_leaf st h l i = None ->
               forall k c p m, nth_error l k = Some c -> node_at c p = Some m ->
                               children m = [] -> visit_state m <> st).
    { induction l as [|c l IHl]; intros i F; simpl.
      - intros _ k. now destruct k.
      - inversion F as [|? ? Hc Hl]; subst.
        destruct (find_leaf_from st c (i :: h)) as [r'|] eqn:E; [discriminate|].
        intros H [|k] c' p m H0; simpl in H0.
        + inversion H0; subst. now apply (Hc _ E).
        + now apply (IHl (S i) Hl H k). }
    intros H p m.
    destruct p as [|i p _] using rev_ind.
    + simpl. intros Hm Hc. inversion Hm; subst. simpl in Hc. contradiction.
    + rewrite node_at_snoc. cbn [children].
      destruct (nth_error cs i) as [c|] eqn:Ec; [|discriminate].
      now apply (G cs 0 IH H i c).
Qed.

(** *** Paths *)

Fixpoint nodupb (l : list string) : bool :=
  match l with
  | [] => true
  | x :: l' => negb (existsb (String.eqb x) l') && nodupb l'
  end.

(** Sibling names are unique and free of slashes, throughout the tree:
    what trees built by [add_node_with_path] look like. *)
Fixpoint wf_namesb (n : Node) : bool :=
  match n with
  | mkNode _ _ _ cs =>
      nodupb (map name cs) &&
      (fix all (l : list Node) : bool :=
         match l with
         | [] => true
         | c :: l' => negb (has_slash (name c)) && wf_namesb c && all l'
         end) cs
  end.

Definition wf_names (t : Node) : Prop :=
  forall h n, node_at t h = Some n ->
              NoDup (map name (children n)) /\
              Forall (fun c => has_slash (name c) = false) (children n).

Lemma nodupb_NoDup (l : list string) : nodupb l = true -> NoDup l.
Proof.
  induction l as [|x l IH]; simpl; [constructor|].
  intros H. apply andb_prop in H. destruct H as [H1 H2].
  constructor; [|now apply IH].
  intros Hin. apply negb_true_iff in H1.
  assert (E : existsb (String.eqb x) l = true).
  { apply existsb_exists. exists x. split; [exact Hin | apply String.eqb_refl]. }
  congruence.
Qed.

Lemma wf_namesb_children (n : Node) :
  wf_namesb n = true ->
  NoDup (map name (children n)) /\
  Forall (fun c => has_slash (name c) = false /\ wf_namesb c = true) (children n).
Proof.
  destruct n as [nm u s cs]. cbn [wf_namesb children].
  intros H. apply andb_prop in H. destruct H as [H1 H2].
  split; [now apply nodupb_NoDup|]. clear H1.
  induction cs as [|c cs IH]; [constructor|].
  apply andb_prop in H2. destruct H2 as [H2 H3].
  apply andb_prop in H2. destruct H2 as [H1 H2].
  constructor; [|now apply IH]. split; [now apply negb_true_iff | exact H2].
Qed.

Lemma wf_namesb_sound (t : Node) : wf_namesb t = true -> wf_names t.
Proof.
  intros H h. revert t H.
  induction h as [|i p IH] using rev_ind; intros t H n.
  - simpl. intros E. inversion E; subst.
    destruct (wf_namesb_children _ H) as [H1 H2]. split; [exact H1|].
    eapply Forall_impl; [|exact H2]. now intros c [Hc _].
  - rewrite node_at_snoc. destruct (nth_error (children t) i) as [c|] eqn:Ec; [|discriminate].
    apply IH. destruct (wf_namesb_children _ H) as [_ H2].
    rewrite Forall_forall in H2. apply (H2 c). eapply nth_error_In; eauto.
Qed.

Lemma wf_names_child (t c : Node) (i : nat) :
  wf_names t -> nth_error (children t) i = Some c -> wf_names c.
Proof.
  intros W Ec h n Hn. apply (W (h ++ [i])%list). now rewrite node_at_snoc, Ec.
Qed.

Lemma child_index_nth (cs : list Node) :
  forall i c, NoDup (map name cs) -> nth_error cs i = Some c ->
              child_index (name c) cs = Some i.
Proof.
  induction cs as [|c0 cs IH]; intros [|i] c ND E; simpl in *; try discriminate.
  - inversion E; subst. now rewrite String.eqb_refl.
  - inversion ND as [|? ? Hnin ND']; subst.
    destruct (String.eqb (name c0) (name c)) eqn:En.
    + apply String.eqb_eq in En. exfalso. apply Hnin. rewrite En.
      apply in_map. eapply nth_error_In; eauto.
    + now rewrite (IH i c ND' E).
Qed.

Lemma path_names_snoc (t c : Node) (i : nat) :
  nth_error (children t) i = Some c ->
  forall p, path_names t (p ++ [i]) = name c :: path_names c p.
Proof.
  intros Ec. induction p as [|j p IH].
  - simpl. now rewrite Ec.
  - cbn [app path_names]. rewrite IH.
    replace (j :: p ++ [i])%list with ((j :: p) ++ [i])%list by reflexivity.
    rewrite node_at_snoc, Ec. reflexivity.
Qed.

Lemma lookup_path_names (p : NodeRef) :
  forall (t : Node) (h0 : NodeRef) (n : Node),
    wf_names t -> node_at t p = Some n ->
    lookup_segments (path_names t p) t h0 = Some (p ++ h0)%list.
Proof.
  induction p as [|i q IH] using rev_ind; intros t h0 n W Hn; [reflexivity|].
  rewrite node_at_snoc in Hn.
  destruct (nth_error (children t) i) as [c|] eqn:Ec; [|discriminate].
  rewrite (path_names_snoc _ _ _ Ec). cbn [lookup_segments].
  destruct (W [] t eq_refl) as [ND _].
  rewrite (child_index_nth _ _ _ ND Ec), Ec.
  rewrite (IH c (i :: h0) n (wf_names_child _ _ _ W Ec) Hn).
  now rewrite <- app_assoc.
Qed.

Lemma path_names_no_slash (p : NodeRef) :
  forall (t : Node) (n : Node),
    wf_names t -> node_at t p = Some n ->
    Forall (fun nm => has_slash nm = false) (path_names t p).
Proof.
  induction p as [|i q IH] using rev_ind; intros t n W Hn; [constructor|].
  rewrite node_at_snoc in Hn.
  destruct (nth_error (children t) i) as [c|] eqn:Ec; [|discriminate].
  rewrite (path_names_snoc _ _ _ Ec). constructor.
  - destruct (W [] t eq_refl) as [_ F]. rewrite Forall_forall in F.
    apply F. eapply nth_error_In; eauto.
  - apply (IH c n (wf_names_child _ _ _ W Ec) Hn).
Qed.

Lemma split_slash_no_slash (nm : string) :
  has_slash nm = false -> split_slash nm = [nm].
Proof.
  induction nm as [|c nm IH]; simpl; [reflexivity|].
  intros H. apply orb_false_iff in H. destruct H as [H1 H2].
  rewrite H1, (IH H2). reflexivity.
Qed.

Lemma split_slash_append (nm rest : string) :
  has_slash nm = false ->
  split_slash (String.append nm (String slash rest)) = nm :: split_slash rest.
Proof.
  induction nm as [|c nm IH]; simpl.
  - intros _. reflexivity.
  - intros H. apply orb_false_iff in H. destruct H as [H1 H2].
    rewrite H1, (IH H2). reflexivity.
Qed.

Lemma split_join_slash (names : list string) :
  names <> [] -> Forall (fun nm => has_slash nm = false) names ->
  split_slash (join_slash names) = names.
Proof.
  induction names as [|nm names IH]; [congruence|]. intros _ F.
  inversion F as [|? ? H1 H2]; subst.
  destruct names as [|nm' names].
  - simpl. now apply split_slash_no_slash.
  - cbn [join_slash]. rewrite (split_slash_append _ _ H1). f_equal.
    apply IH; [discriminate | exact H2].
Qed.

(** Looking up the path of a node other than the root finds that node. *)
Lemma get_node_at_path_get_path (t : Node) (h : NodeRef) (n : Node) :
  wf_names t -> node_at t h = Some n -> h <> [] ->
  get_node_at_path t (get_path t h) = Some h.
Proof.
  intros W Hn Hne. unfold get_node_at_path, get_path.
  rewrite split_join_slash.
  - rewrite (lookup_path_names h t [] n W Hn). now rewrite app_nil_r.
  - destruct h as [|i h]; [congruence|]. cbn [path_names]. rewrite Hn.
    now destruct (path_names t h).
  - apply (path_names_no_slash h t n W Hn).
Qed.

(** A lookup never answers with the root. *)
Lemma lookup_segments_below (segs : list string) :
  forall (n : Node) (h0 r : NodeRef),
    lookup_segments segs n h0 = Some r ->
    exists p, r = (p ++ h0)%list /\ length p = length segs.
Proof.
  induction segs as [|seg segs IH]; intros n h0 r; simpl.
  - intros E. inversion E; subst. now exists [].
  - destruct (child_index seg (children n)) as [i|]; [|discriminate].
    destruct (nth_error (children n) i) as [c|]; [|discriminate].
    intros E. destruct (IH _ _ _ E) as [p [-> L]].
    exists (p ++ [i])%list. rewrite <- app_assoc, length_app. simpl. split; [reflexivity | lia].
Qed.

Lemma split_slash_not_nil (s : string) : split_slash s <> [].
Proof.
  destruct s as [|c s]; simpl; [discriminate|].
  destruct (Ascii.eqb c slash); [discriminate|].
  destruct (split_slash s); discriminate.
Qed.

Lemma get_node_at_path_not_root (t : Node) (path : string) :
  get_node_at_path t path <> Some [].
Proof.
  unfold get_node_at_path. intros E.
  destruct (lookup_segments_below _ _ _ _ E) as [p [Hp L]].
  rewrite app_nil_r in Hp. subst p.
  pose proof (split_slash_not_nil path). destruct (split_slash path); [congruence | discriminate].
Qed.

(** Paths and lookups depend on the skeleton only. *)
Lemma same_skeleton_child_names (t t' : Node) (h : NodeRef) (n n' : Node) :
  same_skeleton t t' -> node_at t h = Some n -> node_at t' h = Some n' ->
  map name (children n') = map name (children n).
Proof.
  intros S Hn Hn'. apply nth_error_ext. intros j. rewrite !nth_error_map.
  pose proof (S (j :: h)) as Sj. unfold skeleton_at in Sj. simpl in Sj.
  rewrite Hn, Hn' in Sj.
  destruct (nth_error (children n') j), (nth_error (children n) j); simpl in *;
    try congruence.
  unfold skeleton in Sj. congruence.
Qed.

Lemma same_skeleton_wf_names (t t' : Node) :
  same_skeleton t t' -> wf_names t -> wf_names t'.
Proof.
  intros S W h n' Hn'.
  destruct (same_skeleton_node _ _ _ _ (same_skeleton_sym _ _ S) Hn') as [n [Hn _]].
  destruct (W h n Hn) as [ND F].
  pose proof (same_skeleton_child_names _ _ _ _ _ S Hn Hn') as E.
  split; [now rewrite E|].
  apply Forall_forall. intros c Hc.
  assert (Hin : In (name c) (map name (children n))) by (rewrite <- E; now apply in_map).
  apply in_map_iff in Hin. destruct Hin as [c0 [E0 Hc0]].
  rewrite Forall_forall in F. rewrite <- E0. now apply F.
Qed.

Lemma same_skeleton_path_names (t t' : Node) (h : NodeRef) :
  same_skeleton t t' -> path_names t' h = path_names t h.
Proof.
  intros S. induction h as [|i h IH]; [reflexivity|].
  cbn [path_names]. rewrite IH. f_equal.
  pose proof (S (i :: h)) as Si. unfold skeleton_at in Si.
  destruct (node_at t' (i :: h)), (node_at t (i :: h)); simpl in *; try congruence.
  unfold skeleton in Si. congruence.
Qed.

Lemma same_skeleton_get_path (t t' : Node) (h : NodeRef) :
  same_skeleton t t' -> get_path t' h = get_path t h.
Proof. intros S. unfold get_path. now rewrite (same_skeleton_path_names _ _ _ S). Qed.

End tree_facts.

(* ===================================================================== *)
(** ** Properties of the traversal coordinator *)
(* ===================================================================== *)

Module spider_facts.
Import site_structure category_based_spider tree_facts.

(** *** Visit states along the tree *)

(** Every child of the node [h] is [VISITED]. *)
Definition kids_visited (t : Node) (h : NodeRef) : Prop :=
  forall j c, node_at t (j :: h) = Some c -> visit_state c = VISITED.

Lemma are_category_children_visited_iff (n : Node) :
  are_category_children_visited n = true <->
  forall j c, nth_error (children n) j = Some c -> visit_state c = VISITED.
Proof.
  unfold are_category_children_visited. induction (children n) as [|c0 cs IH].
  - split; [|reflexivity]. intros _ j c. now destruct j.
  - destruct (VisitState_eqb (visit_state c0) VISITED) eqn:E; cbn [negb].
    + apply VisitState_eqb_eq in E. rewrite IH. split.
      * intros H [|j] c; simpl; [intros Ec; now inversion Ec; subst | apply H].
      * intros H j c Hc. apply (H (S j) c Hc).
    + split; [discriminate|]. intros H. specialize (H 0 c0 eq_refl).
      rewrite H in E. discriminate.
Qed.

Lemma kids_visited_iff (t : Node) (h : NodeRef) (n : Node) :
  node_at t h = Some n ->
  (are_category_children_visited n = true <-> kids_visited t h).
Proof.
  intros Hn. rewrite are_category_children_visited_iff. unfold kids_visited.
  simpl. rewrite Hn. reflexivity.
Qed.

(** A non-leaf node is [VISITED] if and only if all its children are. *)
Definition visited_consistent (t : Node) : Prop :=
  forall h n, node_at t h = Some n -> children n <> [] ->
              (visit_state n = VISITED <-> are_category_children_visited n = true).

(** The two halves of [visited_consistent]; the second one may fail at one
    node, the one whose children have just been completed. *)
Definition visited_down (t : Node) : Prop :=
  forall h n, node_at t h = Some n -> children n <> [] ->
              visit_state n = VISITED -> kids_visited t h.

Definition visited_up_except (t : Node) (x : option NodeRef) : Prop :=
  forall h n, node_at t h = Some n -> children n <> [] -> x <> Some h ->
              kids_visited t h -> visit_state n = VISITED.

Lemma visited_consistent_split (t : Node) :
  visited_consistent t <-> visited_down t /\ visited_up_except t None.
Proof.
  split.
  - intros C. split.
    + intros h n Hn Hc Hv. apply (kids_visited_iff _ _ _ Hn). now apply (C h n Hn Hc).
    + intros h n Hn Hc _ Hk. apply (C h n Hn Hc). now apply (kids_visited_iff _ _ _ Hn).
  - intros [D U] h n Hn Hc. rewrite (kids_visited_iff _ _ _ Hn). split.
    + now apply D.
    + apply (U h n Hn Hc). discriminate.
Qed.

Lemma state_at_node (t : Node) (h : NodeRef) (n : Node) :
  node_at t h = Some n -> state_at t h = Some (visit_state n).
Proof. unfold state_at. now intros ->. Qed.

Lemma state_at_Some (t : Node) (h : NodeRef) (st : VisitState) :
  state_at t h = Some st -> exists n, node_at t h = Some n /\ visit_state n = st.
Proof.
  unfold state_at. destruct (node_at t h) as [n|]; [|discriminate].
  simpl. intros E. inversion E. now exists n.
Qed.

Lemma same_skeleton_nonleaf (t t' : Node) (h : NodeRef) (n n' : Node) :
  same_skeleton t t' -> node_at t h = Some n -> node_at t' h = Some n' ->
  children n' <> [] -> children n <> [].
Proof.
  intros S Hn Hn' Hc E. apply Hc.
  destruct (same_skeleton_leaf _ _ h S) as [m [Hm Hcm]]; [now exists n|].
  congruence.
Qed.

Section SetVisited.

Variables (t : Node) (x : NodeRef) (b : bool).

Local Abbreviation t' := (update_at t x (set_visit_state VISITED b)).

Lemma set_visited_skeleton : same_skeleton t t'.
Proof. apply set_visit_state_same_skeleton. Qed.

(** Setting a node [VISITED] changes states to [VISITED] only. *)
Lemma set_visited_state (q : NodeRef) (n' : Node) :
  node_at t' q = Some n' ->
  (touched b x q /\ visit_state n' = VISITED) \/
  (~ touched b x q /\ state_at t q = Some (visit_state n')).
Proof.
  intros Hn'.
  destruct (same_skeleton_node _ _ _ _ (same_skeleton_sym _ _ set_visited_skeleton) Hn')
    as [n [Hn _]].
  pose proof (state_at_node _ _ _ Hn') as S'.
  destruct (touched_dec b x q) as [T|NT].
  - left. split; [exact T|].
    pose proof (state_at_set_touched VISITED b t x q n Hn T) as E.
    congruence.
  - right. split; [exact NT|].
    pose proof (state_at_set_untouched VISITED b t x q NT) as E.
    congruence.
Qed.

Lemma set_visited_kids (h : NodeRef) : kids_visited t h -> kids_visited t' h.
Proof.
  intros K j c' Hc'.
  destruct (set_visited_state _ _ Hc') as [[_ E]|[_ E]]; [exact E|].
  destruct (state_at_Some _ _ _ E) as [c [Hc Ev]]. rewrite <- Ev. now apply (K j).
Qed.

Lemma set_visited_down :
  visited_down t -> leaf_at t x \/ kids_visited t x -> visited_down t'.
Proof.
  intros D Hx h n' Hn' Hc' Hv.
  destruct (same_skeleton_node _ _ _ _ (same_skeleton_sym _ _ set_visited_skeleton) Hn')
    as [n [Hn _]].
  pose proof (same_skeleton_nonleaf _ _ _ _ _ set_visited_skeleton Hn Hn' Hc') as Hc.
  destruct (set_visited_state _ _ Hn') as [[T _]|[NT E]].
  - destruct T as [->|[Eb B]].
    + destruct Hx as [[m [Hm Hcm]]|K]; [congruence | now apply set_visited_kids].
    + intros j c' Hc''.
      destruct (set_visited_state _ _ Hc'') as [[_ E]|[NT _]]; [exact E|].
      exfalso. apply NT. right. split; [exact Eb|].
      destruct B as [p ->]. now exists (j :: p).
  - apply set_visited_kids. apply (D h n Hn Hc).
    rewrite (state_at_node _ _ _ Hn) in E. congruence.
Qed.

Lemma set_visited_up :
  visited_up_except t (Some x) -> visited_up_except t' (parent x).
Proof.
  intros U h n' Hn' Hc' Hp K'.
  destruct (same_skeleton_node _ _ _ _ (same_skeleton_sym _ _ set_visited_skeleton) Hn')
    as [n [Hn _]].
  pose proof (same_skeleton_nonleaf _ _ _ _ _ set_visited_skeleton Hn Hn' Hc') as Hc.
  destruct (set_visited_state _ _ Hn') as [[_ E]|[NT E]]; [exact E|].
  rewrite (state_at_node _ _ _ Hn) in E.
  enough (Hv : visit_state n = VISITED) by congruence.
  apply (U h n Hn Hc).
  - intros Ex. inversion Ex; subst. apply NT. now left.
  - intros j c Hcj.
    destruct (same_skeleton_node _ _ _ _ set_visited_skeleton Hcj) as [c' [Hcj' _]].
    destruct (set_visited_state _ _ Hcj') as [[T _]|[_ E']].
    + exfalso. destruct T as [Ej|[Eb B]].
      * apply Hp. rewrite <- Ej. reflexivity.
      * destruct (below_cons_inv _ _ _ B) as [Ej|B'].
        -- apply Hp. rewrite Ej. reflexivity.
        -- apply NT. right. now split.
    + rewrite (state_at_node _ _ _ Hcj) in E'.
      pose proof (K' j c' Hcj'). congruence.
Qed.

End SetVisited.

Lemma visited_down_descendants (t : Node) :
  visited_down t ->
  forall (p q : NodeRef) (n m : Node),
    node_at t q = Some n -> visit_state n = VISITED ->
    node_at t (p ++ q) = Some m -> visit_state m = VISITED.
Proof.
  intros D p. induction p as [|j p IH]; intros q n m Hn Hv Hm.
  - simpl in Hm. congruence.
  - simpl in Hm. destruct (node_at_parent t j (p ++ q) m Hm) as [pm [Hpm Hj]].
    apply (D (p ++ q)%list pm Hpm) with (j := j).
    + intros E. rewrite E in Hj. now destruct j.
    + apply (IH q n pm Hn Hv Hpm).
    + exact Hm.
Qed.

(** Once the children of [x] are all [VISITED] in a tree that is closed
    downwards, setting [x] itself changes no other state, whether the call
    propagates or not. *)
Lemma set_visited_frame (t : Node) (x : NodeRef) (b : bool) :
  visited_down t -> kids_visited t x ->
  forall q, q <> x ->
            state_at (update_at t x (set_visit_state VISITED b)) q = state_at t q.
Proof.
  intros D K q Hq.
  destruct (touched_dec b x q) as [T|NT]; [|now apply state_at_set_untouched].
  destruct (node_at t q) as [m|] eqn:Hm.
  - rewrite (state_at_set_touched VISITED b t x q m Hm T).
    rewrite (state_at_node _ _ _ Hm). f_equal. symmetry.
    destruct T as [E|[_ [p Hp]]]; [congruence|]. subst q.
    destruct p as [|j p _] using rev_ind; [now contradiction Hq|].
    rewrite <- app_assoc in Hm. cbn [app] in Hm.
    pose proof Hm as Hm'. rewrite node_at_app in Hm'.
    destruct (node_at t (j :: x)) as [c|] eqn:Hc; [|discriminate].
    apply (visited_down_descendants t D p (j :: x) c m Hc (K j c Hc) Hm).
  - pose proof (set_visit_state_same_skeleton VISITED b t x q) as S.
    unfold skeleton_at in S. rewrite Hm in S. unfold state_at. rewrite Hm.
    destruct (node_at (update_at t x (set_visit_state VISITED b)) q); [discriminate | reflexivity].
Qed.

Section Propagation.

Variable default_propagate : bool.

Local Abbreviation propagate := (propagate_visited_if_siblings_visited default_propagate).

Lemma propagate_skeleton (h : NodeRef) : forall t, same_skeleton t (propagate t h).
Proof.
  induction h as [|i hp IH]; intros t; [apply same_skeleton_refl|].
  cbn [propagate_visited_if_siblings_visited].
  destruct (node_at t hp) as [pn|]; [|apply same_skeleton_refl].
  destruct (are_category_children_visited pn); [|apply same_skeleton_refl].
  eapply same_skeleton_trans; [apply set_visit_state_same_skeleton | apply IH].
Qed.

Lemma propagate_consistent (h : NodeRef) :
  forall t, visited_down t -> visited_up_except t (parent h) ->
            visited_consistent (propagate t h).
Proof.
  induction h as [|i hp IH]; intros t D U.
  - apply visited_consistent_split. now split.
  - cbn [propagate_visited_if_siblings_visited].
    destruct (node_at t hp) as [pn|] eqn:Ep.
    + destruct (are_category_children_visited pn) eqn:Ev.
      * apply IH.
        -- apply set_visited_down; [exact D|]. right. now apply (kids_visited_iff t hp pn Ep).
        -- now apply set_visited_up.
      * apply visited_consistent_split. split; [exact D|].
        intros h n Hn Hc _ K. apply (U h n Hn Hc); [|exact K].
        intros E. inversion E; subst h.
        apply (kids_visited_iff t hp pn Ep) in K. congruence.
    + apply visited_consistent_split. split; [exact D|].
      intros h n Hn Hc _ K. apply (U h n Hn Hc); [|exact K].
      intros E. inversion E; subst h. congruence.
Qed.

(** Propagation only ever writes [VISITED], and only on proper ancestors of
    the node it starts from. *)
Lemma propagate_changes (h : NodeRef) :
  forall t, visited_down t ->
            forall q n', node_at (propagate t h) q = Some n' ->
                         state_at t q = Some (visit_state n') \/
                         (visit_state n' = VISITED /\
                          exists p, p <> [] /\ h = (p ++ q)%list).
Proof.
  induction h as [|i hp IH]; intros t D q n' Hn'.
  - left. now apply state_at_node.
  - cbn [propagate_visited_if_siblings_visited] in Hn'.
    destruct (node_at t hp) as [pn|] eqn:Ep; [|left; now apply state_at_node].
    destruct (are_category_children_visited pn) eqn:Ev; [|left; now apply state_at_node].
    assert (K : kids_visited t hp) by now apply (kids_visited_iff t hp pn Ep).
    assert (D1 : visited_down (update_at t hp (set_visit_state VISITED default_propagate)))
      by (apply set_visited_down; [exact D | now right]).
    destruct (IH _ D1 q n' Hn') as [E|[Hv [p [Hp ->]]]].
    + destruct (list_eq_dec Nat.eq_dec q hp) as [->|Hq].
      * right. rewrite (state_at_set_touched VISITED default_propagate t hp hp pn Ep) in E
          by now left.
        split; [congruence|]. exists [i]. split; [discriminate | reflexivity].
      * left. now rewrite <- (set_visited_frame t hp default_propagate D K q Hq).
    + right. split; [exact Hv|]. exists (i :: p). split; [discriminate | reflexivity].
Qed.

(** *** Marking a finished leaf *)

Section MarkVisited.

Variables (t : Node) (h : NodeRef).
Hypothesis consistent : visited_consistent t.
Hypothesis leaf : leaf_at t h.

Local Abbreviation t1 := (update_at t h (set_visit_state VISITED false)).

Lemma mark_visited_skeleton : same_skeleton t (mark_visited default_propagate t h).
Proof.
  unfold mark_visited.
  eapply same_skeleton_trans; [apply set_visit_state_same_skeleton | apply propagate_skeleton].
Qed.

Lemma mark_visited_down1 : visited_down t1.
Proof.
  apply set_visited_down; [|now left]. now apply visited_consistent_split.
Qed.

Lemma mark_visited_consistent : visited_consistent (mark_visited default_propagate t h).
Proof.
  destruct (proj1 (visited_consistent_split t) consistent) as [D U].
  unfold mark_visited. apply propagate_consistent; [apply mark_visited_down1|].
  apply set_visited_up. intros h' n Hn Hc _ K. apply (U h' n Hn Hc); [discriminate | exact K].
Qed.

(** The only states that marking changes: the leaf and, among its
    ancestors, those that propagation reaches; all of them to [VISITED]. *)
Lemma mark_visited_changes (q : NodeRef) (n' : Node) :
  node_at (mark_visited default_propagate t h) q = Some n' ->
  state_at t q = Some (visit_state n') \/
  (visit_state n' = VISITED /\ below q h).
Proof.
  intros Hn'. unfold mark_visited in Hn'.
  destruct (propagate_changes h t1 mark_visited_down1 q n' Hn') as [E|[Hv [p [_ Hp]]]].
  - destruct (list_eq_dec Nat.eq_dec q h) as [->|Hq].
    + right. destruct leaf as [n [Hn _]].
      rewrite (state_at_set_touched VISITED false t h h n Hn) in E by now left.
      split; [congruence | apply below_refl].
    + left. rewrite <- E. symmetry. apply state_at_set_untouched.
      intros [Eq|[Eb _]]; [auto | discriminate].
  - right. split; [exact Hv | now exists p].
Qed.

Lemma mark_visited_leaf : state_at (mark_visited default_propagate t h) h = Some VISITED.
Proof.
  destruct leaf as [n [Hn Hc]].
  destruct (same_skeleton_node _ _ _ _ mark_visited_skeleton Hn) as [n' [Hn' _]].
  rewrite (state_at_node _ _ _ Hn'). f_equal.
  unfold mark_visited in Hn'.
  destruct (propagate_changes h t1 mark_visited_down1 h n' Hn') as [E|[Hv _]]; [|exact Hv].
  rewrite (state_at_set_touched VISITED false t h h n Hn) in E by now left. congruence.
Qed.

End MarkVisited.

End Propagation.

(** *** Starting a leaf *)

Lemma set_in_progress_state (t : Node) (x : NodeRef) :
  leaf_at t x ->
  forall q, state_at (update_at t x (set_visit_state IN_PROGRESS true)) q =
            if list_eq_dec Nat.eq_dec q x then Some IN_PROGRESS else state_at t q.
Proof.
  intros L q. destruct (list_eq_dec Nat.eq_dec q x) as [->|Hq].
  - destruct L as [n [Hn _]]. apply (state_at_set_touched _ _ _ _ _ n Hn). now left.
  - destruct (node_at t q) as [m|] eqn:Hm.
    + apply state_at_set_untouched. intros T. apply Hq.
      apply (leaf_below t x q m L (touched_below _ _ _ T) Hm).
    + pose proof (set_visit_state_same_skeleton IN_PROGRESS true t x q) as S.
      unfold skeleton_at in S. rewrite Hm in S. unfold state_at. rewrite Hm.
      destruct (node_at (update_at t x (set_visit_state IN_PROGRESS true)) q);
        [discriminate | reflexivity].
Qed.

Lemma set_in_progress_consistent (t : Node) (x : NodeRef) :
  visited_consistent t -> leaf_at t x -> state_at t x <> Some VISITED ->
  visited_consistent (update_at t x (set_visit_state IN_PROGRESS true)).
Proof.
  intros C L Hx h n' Hn' Hc'.
  pose proof (set_visit_state_same_skeleton IN_PROGRESS true t x) as S.
  destruct (same_skeleton_node _ _ _ _ (same_skeleton_sym _ _ S) Hn') as [n [Hn _]].
  pose proof (same_skeleton_nonleaf _ _ _ _ _ S Hn Hn' Hc') as Hc.
  assert (Hh : h <> x).
  { intros ->. destruct L as [m [Hm Hcm]]. congruence. }
  assert (Ev : visit_state n' = visit_state n).
  { pose proof (set_in_progress_state t x L h) as E.
    destruct (list_eq_dec Nat.eq_dec h x); [contradiction|].
    rewrite (state_at_node _ _ _ Hn), (state_at_node _ _ _ Hn') in E. congruence. }
  rewrite Ev, (C h n Hn Hc).
  rewrite (kids_visited_iff _ _ _ Hn), (kids_visited_iff _ _ _ Hn').
  split; intros K j c Hj.
  - destruct (same_skeleton_node _ _ _ _ (same_skeleton_sym _ _ S) Hj) as [c0 [Hj0 _]].
    pose proof (set_in_progress_state t x L (j :: h)) as E.
    rewrite (state_at_node _ _ _ Hj), (state_at_node _ _ _ Hj0) in E.
    destruct (list_eq_dec Nat.eq_dec (j :: h) x) as [Ex|_].
    + exfalso. apply Hx. rewrite <- Ex, (state_at_node _ _ _ Hj0).
      f_equal. now apply (K j).
    + pose proof (K j c0 Hj0). congruence.
  - destruct (same_skeleton_node _ _ _ _ S Hj) as [c' [Hj' _]].
    pose proof (set_in_progress_state t x L (j :: h)) as E.
    rewrite (state_at_node _ _ _ Hj), (state_at_node _ _ _ Hj') in E.
    destruct (list_eq_dec Nat.eq_dec (j :: h) x) as [Ex|_].
    + pose proof (K j c' Hj'). congruence.
    + pose proof (K j c' Hj'). congruence.
Qed.

(** *** The invariant of the traversal *)

Fixpoint all_newb (n : Node) : bool :=
  match n with
  | mkNode _ _ s cs =>
      VisitState_eqb s NEW &&
      (fix all (l : list Node) : bool :=
         match l with
         | [] => true
         | c :: l' => all_newb c && all l'
         end) cs
  end.

Lemma all_newb_children (n : Node) :
  all_newb n = true ->
  visit_state n = NEW /\ Forall (fun c => all_newb c = true) (children n).
Proof.
  destruct n as [nm u s cs]. cbn [all_newb visit_state children].
  intros H. apply andb_prop in H. destruct H as [H1 H2].
  split; [now apply VisitState_eqb_eq|].
  induction cs as [|c cs IH]; [constructor|].
  apply andb_prop in H2. destruct H2 as [H2 H3]. constructor; auto.
Qed.

Lemma all_newb_sound (t : Node) :
  all_newb t = true -> forall h n, node_at t h = Some n -> visit_state n = NEW.
Proof.
  intros H h. revert t H.
  induction h as [|i p IH] using rev_ind; intros t H n.
  - simpl. intros E. inversion E; subst. now apply all_newb_children.
  - rewrite node_at_snoc. destruct (nth_error (children t) i) as [c|] eqn:Ec; [|discriminate].
    apply IH. destruct (all_newb_children _ H) as [_ F].
    rewrite Forall_forall in F. apply F. eapply nth_error_In; eauto.
Qed.

Definition no_in_progress (t : Node) : Prop :=
  forall q, state_at t q <> Some IN_PROGRESS.

(** The persisted path is the path of a leaf. *)
Definition cursor_at_leaf (t : Node) (path : option string) : Prop :=
  match path with
  | None => True
  | Some sp => exists h, leaf_at t h /\ sp = get_path t h
  end.

(** No node is [IN_PROGRESS], except possibly the leaf the persisted path
    points to. *)
Definition cursor_ok (t : Node) (path : option string) : Prop :=
  match path with
  | None => no_in_progress t
  | Some sp =>
      exists h, leaf_at t h /\ sp = get_path t h /\
                forall q, state_at t q = Some IN_PROGRESS -> q = h
  end.

Record traversal_inv (t : Node) (path : option string) : Prop :=
  { inv_names : wf_names t;
    inv_visited : visited_consistent t;
    inv_cursor : cursor_ok t path }.

Definition snapshot_inv (snap : Snapshot) : Prop :=
  traversal_inv (saved_site_structure snap) (saved_page_site_path snap).

Definition spider_inv (st : CategoryBasedSpiderState) : Prop :=
  traversal_inv (site_structure st) (current_page_site_path st) /\
  Forall snapshot_inv (store st).

Lemma cursor_ok_idle (t : Node) (path : option string) :
  no_in_progress t -> cursor_at_leaf t path -> cursor_ok t path.
Proof.
  intros N C. destruct path as [sp|]; [|exact N].
  destruct C as [h [L E]]. exists h. repeat split; auto.
  intros q Hq. now contradiction (N q).
Qed.

Lemma get_node_at_path_leaf_root (t : Node) (sp : string) :
  children t = [] -> get_node_at_path t sp = None.
Proof.
  intros Hc. unfold get_node_at_path.
  pose proof (split_slash_not_nil sp) as Hs.
  destruct (split_slash sp) as [|seg segs]; [congruence|].
  simpl. now rewrite Hc.
Qed.

(** The node that [__on_paging_finished] looks up is the leaf of the cursor. *)
Lemma current_leaf (t : Node) (sp : string) (h' : NodeRef) :
  traversal_inv t (Some sp) -> get_node_at_path t sp = Some h' ->
  leaf_at t h' /\ sp = get_path t h' /\
  forall q, state_at t q = Some IN_PROGRESS -> q = h'.
Proof.
  intros [W _ [h [L [E Q]]]] G.
  destruct h as [|i h].
  - destruct L as [n [Hn Hc]]. simpl in Hn. inversion Hn; subst n.
    rewrite (get_node_at_path_leaf_root t sp Hc) in G. discriminate.
  - destruct L as [n [Hn Hc]].
    assert (G' : get_node_at_path t sp = Some (i :: h)).
    { rewrite E. apply (get_node_at_path_get_path t (i :: h) n W Hn). discriminate. }
    assert (h' = i :: h) by congruence. subst h'.
    split; [now exists n|]. now split.
Qed.

Section Traversal.

Variable Response : Type.
Variable Spider_init : option string -> Outcome string.
Variable class_name : string.
Variable class_start_url : option string.
Variable default_propagate : bool.

Local Abbreviation Spider := (CategoryBasedSpider Response).

Lemma progress_inv (s : Spider) :
  let st := spider_state s in
  wf_names (site_structure st) -> visited_consistent (site_structure st) ->
  no_in_progress (site_structure st) ->
  cursor_at_leaf (site_structure st) (current_page_site_path st) ->
  Forall snapshot_inv (store st) ->
  spider_inv (spider_state (fst (progress_to_next_category s))).
Proof.
  intros st W C N L F. unfold progress_to_next_category. fold st.
  destruct (find_leaf_with_visit_state (site_structure st) NEW) as [x|] eqn:E.
  - unfold find_leaf_with_visit_state in E.
    destruct (find_leaf_from_sound NEW _ _ _ E) as [p [m [Hx [Hm [Hc Hv]]]]].
    rewrite app_nil_r in Hx. subst p.
    assert (Lx : leaf_at (site_structure st) x) by now exists m.
    set (t' := update_at (site_structure st) x (set_visit_state IN_PROGRESS true)).
    pose proof (set_visit_state_same_skeleton IN_PROGRESS true (site_structure st) x) as S.
    fold t' in S.
    assert (I : traversal_inv t' (Some (get_path t' x))).
    { constructor.
      - now apply (same_skeleton_wf_names _ _ S).
      - apply set_in_progress_consistent; auto.
        rewrite (state_at_node _ _ _ Hm), Hv. discriminate.
      - exists x. split; [now apply (same_skeleton_leaf _ _ _ S)|].
        split; [reflexivity|]. intros q Hq. unfold t' in Hq.
        rewrite (set_in_progress_state _ _ Lx) in Hq.
        destruct (list_eq_dec Nat.eq_dec q x); [assumption | now contradiction (N q)]. }
    cbn [fst spider_state set_site_pager set_spider_state].
    split; [exact I|]. cbn [store save]. constructor; [exact I | exact F].
  - cbn [fst]. split; [|exact F]. constructor; auto. now apply cursor_ok_idle.
Qed.

Lemma paging_finished_inv (s s' : Spider) (r : option PagerRequest) :
  spider_inv (spider_state s) ->
  on_paging_finished default_propagate s = (s', inr r) ->
  exists sp h,
    current_page_site_path (spider_state s) = Some sp /\
    get_node_at_path (site_structure (spider_state s)) sp = Some h /\
    leaf_at (site_structure (spider_state s)) h /\
    (forall q, state_at (site_structure (spider_state s)) q = Some IN_PROGRESS -> q = h) /\
    (s', r) = progress_to_next_category
                (set_spider_state s
                   (set_site_structure (spider_state s)
                      (mark_visited default_propagate (site_structure (spider_state s)) h))) /\
    spider_inv (spider_state s').
Proof.
  intros [I F]. unfold on_paging_finished.
  destruct (current_page_site_path (spider_state s)) as [sp|] eqn:Ep; [|discriminate].
  destruct (get_node_at_path (site_structure (spider_state s)) sp) as [h|] eqn:Eg;
    [|discriminate].
  destruct (current_leaf _ _ _ I Eg) as [L [Esp Q]].
  set (t := site_structure (spider_state s)) in *.
  set (s1 := set_spider_state s (set_site_structure (spider_state s)
                                   (mark_visited default_propagate t h))).
  destruct (progress_to_next_category s1) as [s2 r2] eqn:Epr.
  intros H. inversion H; subst s2 r2. clear H.
  exists sp, h.
  split; [reflexivity|]. split; [exact Eg|]. split; [exact L|]. split; [exact Q|].
  split; [now rewrite <- Epr|].
  replace s' with (fst (progress_to_next_category s1)) by now rewrite Epr.
  pose proof (mark_visited_skeleton default_propagate t h) as S.
  apply progress_inv; unfold s1;
    cbn [spider_state set_spider_state set_site_structure site_structure
           current_page_site_path store].
  - apply (same_skeleton_wf_names _ _ S), I.
  - apply mark_visited_consistent; [apply I | exact L].
  - intros q Hq. destruct (state_at_Some _ _ _ Hq) as [n' [Hn' Hv]].
    destruct (mark_visited_changes default_propagate t h (inv_visited _ _ I) L q n' Hn')
      as [E|[E _]]; [|congruence].
    rewrite Hv in E. pose proof (Q q E) as ->.
    rewrite (mark_visited_leaf default_propagate t h (inv_visited _ _ I) L) in Hq.
    discriminate.
  - rewrite Ep. exists h. split; [now apply (same_skeleton_leaf _ _ _ S)|].
    now rewrite (same_skeleton_get_path _ _ h S).
  - exact F.
Qed.

Lemma discovery_complete_inv (d : site_structure_discoverer.Discovered) (s : Spider) :
  wf_namesb (site_structure_discoverer.discovered_structure d) = true ->
  all_newb (site_structure_discoverer.discovered_structure d) = true ->
  current_page_site_path (spider_state s) = None ->
  Forall snapshot_inv (store (spider_state s)) ->
  spider_inv (spider_state (fst (on_site_structure_discovery_complete d s))).
Proof.
  intros W A P F. unfold on_site_structure_discovery_complete.
  set (t := site_structure_discoverer.discovered_structure d) in *.
  assert (N : no_in_progress t).
  { intros q Hq. destruct (state_at_Some _ _ _ Hq) as [n [Hn Hv]].
    rewrite (all_newb_sound t A q n Hn) in Hv. discriminate. }
  assert (C : visited_consistent t).
  { intros h n Hn Hc. split.
    - intros Hv. rewrite (all_newb_sound t A h n Hn) in Hv. discriminate.
    - intros K. apply (kids_visited_iff _ _ _ Hn) in K.
      destruct (children n) as [|c cs] eqn:Ec; [congruence|].
      assert (Hj : node_at t (0 :: h) = Some c) by (simpl; now rewrite Hn, Ec).
      pose proof (K 0 c Hj) as Hv. rewrite (all_newb_sound t A _ c Hj) in Hv. discriminate. }
  apply progress_inv;
    cbn [spider_state set_spider_state set_site_structure save site_structure
           current_page_site_path store].
  - now apply wf_namesb_sound.
  - exact C.
  - exact N.
  - now rewrite P.
  - constructor; [|exact F]. unfold snapshot_inv, snapshot.
    cbn [saved_site_structure saved_page_site_path set_site_structure site_structure
           current_page_site_path].
    rewrite P. constructor; [now apply wf_namesb_sound | exact C | exact N].
Qed.

Lemma init_state (persisted : option Snapshot) selectors name_arg start_url_arg (s : Spider) :
  init Spider_init class_name class_start_url persisted selectors name_arg start_url_arg
    = inr s ->
  spider_state s = CategoryBasedSpiderState_init (name s) persisted.
Proof.
  unfold init. destruct (Spider_init name_arg) as [e|nm]; [discriminate|].
  destruct selectors as [sel|]; [|discriminate].
  destruct start_url_arg as [u|].
  - intros H. inversion H. reflexivity.
  - destruct (negb (truthy class_start_url)); [discriminate|].
    destruct class_start_url as [u|]; [|discriminate].
    intros H. inversion H. reflexivity.
Qed.

(** The states a spider goes through: built without a progress file, it
    gets the tree of a finished discovery; from there on pages and leaves
    finish; at any time the process may stop and a new spider be built from
    what was saved. *)
Inductive reachable : Spider -> Prop :=
| reach_discovered (d : site_structure_discoverer.Discovered) (s : Spider)
    selectors name_arg start_url_arg :
    init Spider_init class_name class_start_url None selectors name_arg start_url_arg
      = inr s ->
    wf_namesb (site_structure_discoverer.discovered_structure d) = true ->
    all_newb (site_structure_discoverer.discovered_structure d) = true ->
    reachable (fst (on_site_structure_discovery_complete d s))
| reach_page_finished (s : Spider) (next_page_url : option string) :
    reachable s -> reachable (on_page_finished s next_page_url)
| reach_paging_finished (s s' : Spider) (r : option PagerRequest) :
    reachable s ->
    on_paging_finished default_propagate s = (s', inr r) ->
    reachable s'
| reach_start_requests (s : Spider) :
    reachable s -> reachable (fst (start_requests s))
| reach_restarted (s s' : Spider) (snap : Snapshot) selectors name_arg start_url_arg :
    reachable s ->
    In snap (store (spider_state s)) ->
    init Spider_init class_name class_start_url (Some snap) selectors name_arg start_url_arg
      = inr s' ->
    reachable s'.

Lemma reachable_inv (s : Spider) : reachable s -> spider_inv (spider_state s).
Proof.
  induction 1 as [d s sel na su Hi W A | s u _ IH | s s' r _ IH Hp | s _ IH
                 | s s' snap sel na su _ IH Hin Hi].
  - pose proof (init_state _ _ _ _ _ Hi) as E.
    apply discovery_complete_inv; auto; rewrite E; simpl; auto.
  - destruct IH as [I F]. unfold on_page_finished.
    cbn [spider_state set_spider_state save set_current_page_url site_structure
           current_page_site_path store].
    split; [exact I|]. constructor; [exact I | exact F].
  - now destruct (paging_finished_inv s s' r IH Hp) as [sp [h [_ [_ [_ [_ [_ I]]]]]]].
  - unfold start_requests. destruct (is_loaded (spider_state s)); exact IH.
  - rewrite (init_state _ _ _ _ _ Hi). destruct IH as [_ F].
    rewrite Forall_forall in F. pose proof (F snap Hin) as I.
    split; [exact I|]. constructor; [exact I | constructor].
Qed.

(** What [__progress_to_next_category] does to the tree. *)
Lemma progress_tree (s : Spider) :
  let t := site_structure (spider_state s) in
  let t' := site_structure (spider_state (fst (progress_to_next_category s))) in
  match find_leaf_with_visit_state t NEW with
  | Some x =>
      leaf_at t x /\ state_at t x = Some NEW /\
      t' = update_at t x (set_visit_state IN_PROGRESS true)
  | None => t' = t
  end.
Proof.
  intros t t'. unfold t', progress_to_next_category. fold t.
  destruct (find_leaf_with_visit_state t NEW) as [x|] eqn:E; [|reflexivity].
  unfold find_leaf_with_visit_state in E.
  destruct (find_leaf_from_sound NEW _ _ _ E) as [p [m [Hx [Hm [Hc Hv]]]]].
  rewrite app_nil_r in Hx. subst p.
  split; [now exists m|]. split; [|reflexivity].
  now rewrite (state_at_node _ _ _ Hm), Hv.
Qed.

(** Starting the next leaf changes the state of that leaf only, from [NEW]
    to [IN_PROGRESS]. *)
Lemma progress_states (s : Spider) (q : NodeRef) :
  let t := site_structure (spider_state s) in
  let t' := site_structure (spider_state (fst (progress_to_next_category s))) in
  state_at t' q = state_at t q \/
  (leaf_at t q /\ state_at t q = Some NEW /\ state_at t' q = Some IN_PROGRESS).
Proof.
  intros t t'. pose proof (progress_tree s) as P. cbv zeta in P. fold t t' in P.
  destruct (find_leaf_with_visit_state t NEW) as [x|]; [|left; now rewrite P].
  destruct P as [L [N E]]. rewrite E, (set_in_progress_state t x L q).
  destruct (list_eq_dec Nat.eq_dec q x) as [->|_]; [right | left]; auto.
Qed.

(** C10. In every state of the traversal at most one node is
    [IN_PROGRESS], and that node is a leaf; a node with children is [NEW] or
    [VISITED], and when a leaf finishes it keeps its state or goes from [NEW]
    to [VISITED]. *)
Theorem at_most_one_leaf_in_progress (s : Spider) :
  reachable s ->
  let t := site_structure (spider_state s) in
  (forall q1 q2, state_at t q1 = Some IN_PROGRESS -> state_at t q2 = Some IN_PROGRESS ->
                 q1 = q2) /\
  (forall q n, node_at t q = Some n -> visit_state n = IN_PROGRESS -> children n = []) /\
  (forall q n, node_at t q = Some n -> children n <> [] ->
               visit_state n = NEW \/ visit_state n = VISITED) /\
  (forall s' r q n,
     on_paging_finished default_propagate s = (s', inr r) ->
     node_at t q = Some n -> children n <> [] ->
     state_at (site_structure (spider_state s')) q = Some (visit_state n) \/
     (visit_state n = NEW /\
      state_at (site_structure (spider_state s')) q = Some VISITED)).
Proof.
  intros R t. pose proof (reachable_inv s R) as [I F]. fold t in I.
  assert (A : forall q n, node_at t q = Some n -> visit_state n = IN_PROGRESS ->
                          children n = [] /\
                          forall q', state_at t q' = Some IN_PROGRESS -> q' = q).
  { intros q n Hn Hv.
    assert (Hq : state_at t q = Some IN_PROGRESS) by now rewrite (state_at_node _ _ _ Hn), Hv.
    pose proof (inv_cursor _ _ I) as C. unfold cursor_ok in C.
    destruct (current_page_site_path (spider_state s)) as [sp|]; [|now contradiction (C q)].
    destruct C as [h [[m [Hm Hc]] [_ Q]]]. pose proof (Q q Hq) as ->.
    split; [congruence|]. intros q' Hq'. now apply Q. }
  assert (B : forall q n, node_at t q = Some n -> children n <> [] ->
                          visit_state n = NEW \/ visit_state n = VISITED).
  { intros q n Hn Hc. destruct (visit_state n) eqn:Hv; auto.
    now destruct (A q n Hn Hv) as [Hl _]. }
  split; [|split; [|split]].
  - intros q1 q2 H1 H2. destruct (state_at_Some _ _ _ H2) as [n [Hn Hv]].
    now apply (proj2 (A q2 n Hn Hv)).
  - intros q n Hn Hv. now apply (A q n Hn Hv).
  - exact B.
  - intros s' r q n Hp Hn Hc.
    destruct (paging_finished_inv s s' r (conj I F) Hp)
      as [sp [h [_ [_ [L [_ [E _]]]]]]]. fold t in L, E.
    set (s1 := set_spider_state s (set_site_structure (spider_state s)
                                     (mark_visited default_propagate t h))) in E.
    assert (Es' : s' = fst (progress_to_next_category s1)) by now rewrite <- E.
    pose proof (mark_visited_skeleton default_propagate t h) as S.
    destruct (same_skeleton_node _ _ _ _ S Hn) as [n1 [Hn1 Hs1]].
    assert (E1 : state_at (site_structure (spider_state s')) q = Some (visit_state n1)).
    { rewrite Es'. destruct (progress_states s1 q) as [E1|[[m [Hm Hcm]] _]].
      - rewrite E1. unfold s1. cbn [spider_state set_spider_state set_site_structure
                                      site_structure].
        now apply state_at_node.
      - exfalso. unfold s1 in Hm. cbn [spider_state set_spider_state set_site_structure
                                         site_structure] in Hm.
        apply Hc. assert (Em : m = n1) by congruence. subst m.
        unfold skeleton in Hs1.
        assert (Hl : length (children n1) = length (children n)) by congruence.
        rewrite Hcm in Hl. now destruct (children n). }
    rewrite E1.
    destruct (mark_visited_changes default_propagate t h (inv_visited _ _ I) L q n1 Hn1)
      as [E2|[Hv _]].
    + left. rewrite (state_at_node _ _ _ Hn) in E2. congruence.
    + destruct (B q n Hn Hc) as [Hnew|Hvis].
      * right. split; [exact Hnew | congruence].
      * left. congruence.
Qed.

(** C2. When a leaf finishes, in a state of the traversal: the leaf is the
    one the cursor points to and it is [VISITED] afterwards; afterwards every
    node with children is [VISITED] if and only if all its children are; a
    node that is [VISITED] afterwards and was not before is the leaf or one of
    its ancestors, so no other leaf becomes [VISITED]. *)
Theorem propagation_marks_completed_ancestors (s s' : Spider) (r : option PagerRequest) :
  reachable s ->
  on_paging_finished default_propagate s = (s', inr r) ->
  let t := site_structure (spider_state s) in
  let t' := site_structure (spider_state s') in
  exists sp h,
    current_page_site_path (spider_state s) = Some sp /\
    get_node_at_path t sp = Some h /\
    leaf_at t h /\
    state_at t' h = Some VISITED /\
    (forall q n', node_at t' q = Some n' -> children n' <> [] ->
                  (visit_state n' = VISITED <->
                   forall j c, nth_error (children n') j = Some c ->
                               visit_state c = VISITED)) /\
    (forall q, state_at t' q = Some VISITED ->
               state_at t q = Some VISITED \/ exists p, h = (p ++ q)%list) /\
    (forall q, leaf_at t q -> state_at t' q = Some VISITED ->
               state_at t q = Some VISITED \/ q = h).
Proof.
  intros R Hp t t'.
  destruct (paging_finished_inv s s' r (reachable_inv s R) Hp)
    as [sp [h [Ep [Eg [L [_ [E [I' _]]]]]]]]. fold t in Eg, L, E.
  pose proof (reachable_inv s R) as [I _]. fold t in I.
  set (tm := mark_visited default_propagate t h) in *.
  set (s1 := set_spider_state s (set_site_structure (spider_state s) tm)) in E.
  assert (Es' : s' = fst (progress_to_next_category s1)) by now rewrite <- E.
  assert (Est : forall q, state_at t' q = Some VISITED -> state_at tm q = Some VISITED).
  { intros q Hq. unfold t' in Hq. rewrite Es' in Hq.
    destruct (progress_states s1 q) as [E1|[_ [_ E1]]]; [|congruence].
    now rewrite E1 in Hq. }
  assert (Ech : forall q, state_at t' q = Some VISITED ->
                          state_at t q = Some VISITED \/ below q h).
  { intros q Hq. destruct (state_at_Some _ _ _ (Est q Hq)) as [n' [Hn' Hv]].
    destruct (mark_visited_changes default_propagate t h (inv_visited _ _ I) L q n' Hn')
      as [E2|[_ Hb]]; [left; congruence | now right]. }
  exists sp, h.
  split; [exact Ep|]. split; [exact Eg|]. split; [exact L|]. split; [|split; [|split]].
  - unfold t'. rewrite Es'.
    pose proof (mark_visited_leaf default_propagate t h (inv_visited _ _ I) L) as Hh.
    fold tm in Hh.
    destruct (progress_states s1 h) as [E1|[_ [E1 _]]].
    + now rewrite E1.
    + unfold s1 in E1. cbn [spider_state set_spider_state set_site_structure
                              site_structure] in E1. congruence.
  - intros q n' Hn' Hc. rewrite <- are_category_children_visited_iff.
    apply (inv_visited _ _ I' q n' Hn' Hc).
  - exact Ech.
  - intros q Lq Hq. destruct (Ech q Hq) as [E2|Hb]; [now left|]. right.
    destruct L as [n [Hn _]]. symmetry. apply (leaf_below t q h n Lq Hb Hn).
Qed.


(** C7. [__on_page_finished] sets [current_page_url] and saves the state;
    the tree with its visit states, the path of the current leaf and all
    other attributes of the spider stay as they are. *)
Theorem page_finished_changes_page_url_only (s : Spider) (next_page_url : option string) :
  let s' := on_page_finished s next_page_url in
  site_structure (spider_state s') = site_structure (spider_state s) /\
  (forall q, state_at (site_structure (spider_state s')) q
             = state_at (site_structure (spider_state s)) q) /\
  current_page_site_path (spider_state s') = current_page_site_path (spider_state s) /\
  current_page_url (spider_state s') = next_page_url /\
  store (spider_state s') =
    {| saved_site_structure := site_structure (spider_state s);
       saved_page_site_path := current_page_site_path (spider_state s);
       saved_page_url := next_page_url |} :: store (spider_state s) /\
  is_loaded (spider_state s') = is_loaded (spider_state s) /\
  site_pager s' = site_pager s /\
  name s' = name s /\ start_url s' = start_url s /\
  category_selectors s' = category_selectors s.
Proof. cbv zeta. unfold on_page_finished. simpl. repeat split; reflexivity. Qed.

(** C9. Construction goes through three gates, in this order.  The
    framework's own initialisation may refuse (a spider needs a name); its
    error is then the outcome.  A spider for which [category_selectors] is
    [None] is refused with a [ValueError]; a list is accepted, the empty one
    too.  A spider given no [start_url] argument ([None]) is refused with a
    [ValueError] when the class attribute is [None] or empty; an argument is
    accepted as it is, the empty string too.  A refused construction leaves
    no spider to start a crawl with.  In every other case the spider is
    built, with the argument or else the class attribute as start URL, the
    state of the progress file if any, and no pager yet. *)
Theorem construction_requires_configuration (persisted : option Snapshot)
  (selectors : option (list (site_structure_discoverer.CategoryParser Response)))
  (name_arg start_url_arg : option string) :
  let built := init Spider_init class_name class_start_url persisted selectors
                 name_arg start_url_arg in
  (forall e, Spider_init name_arg = inl e -> built = inl e) /\
  (forall self_name,
     Spider_init name_arg = inr self_name ->
     (selectors = None ->
      built = inl (ValueError (String.append class_name " must have category selectors"))) /\
     (selectors <> None -> start_url_arg = None -> truthy class_start_url = false ->
      built = inl (ValueError (String.append class_name " must have start URL"))) /\
     (forall sel u,
        selectors = Some sel ->
        start_url_arg = Some u \/
        (start_url_arg = None /\ class_start_url = Some u /\ truthy class_start_url = true) ->
        built = inr {| name := self_name;
                       start_url := u;
                       category_selectors := sel;
                       spider_state := CategoryBasedSpiderState_init self_name persisted;
                       site_pager := None |})) /\
  ((exists s : Spider, built = inr s) <->
   (exists self_name, Spider_init name_arg = inr self_name) /\
   selectors <> None /\
   (start_url_arg <> None \/ truthy class_start_url = true)).
Proof.
  intros built. unfold built, init. split; [|split].
  - intros e ->. reflexivity.
  - intros self_name ->. split; [|split].
    + intros ->. reflexivity.
    + intros Hs -> Ht. destruct selectors as [sel|]; [|congruence].
      rewrite Ht. reflexivity.
    + intros sel u -> [->|[-> [Hc Ht]]]; [reflexivity|].
      rewrite Ht, Hc. reflexivity.
  - destruct (Spider_init name_arg) as [e|self_name].
    { split; [intros [s H]; discriminate | intros [[nm H] _]; discriminate]. }
    destruct selectors as [sel|].
    2:{ split; [intros [s H]; discriminate | intros [_ [H _]]; congruence]. }
    destruct start_url_arg as [u|].
    { split; [|eauto]. intros _. split; [eauto|]. split; [discriminate | left; discriminate]. }
    destruct (truthy class_start_url) eqn:Ht; cbn [negb].
    + split.
      * intros _. split; [eauto|]. split; [discriminate | now right].
      * intros _. destruct class_start_url as [u|]; [eauto | discriminate].
    + split; [intros [s H]; discriminate|].
      intros [_ [_ [H|H]]]; congruence.
Qed.

(** C6. A spider built from a progress file yields one start request, that
    of a pager created at the saved [current_page_url]; its state, the tree
    included, is left as loaded, and the request does not depend on the
    tree.  A spider built without one yields nothing: [start_requests] hands
    the discoverer [self.name], a string, where [__init__] reads
    [spider.name], so creating the discoverer raises [AttributeError] before
    any request is made; the spider stays as it is. *)
Theorem start_requests_resumes_or_raises (persisted : option Snapshot)
  (selectors : option (list (site_structure_discoverer.CategoryParser Response)))
  (name_arg start_url_arg : option string) (s : Spider) :
  init Spider_init class_name class_start_url persisted selectors name_arg start_url_arg
    = inr s ->
  match persisted with
  | Some snap =>
      start_requests s =
        (set_site_pager s (create_site_pager (saved_page_url snap)),
         inr [Resume Response {| pager_request_url := saved_page_url snap |}]) /\
      spider_state (fst (start_requests s)) = spider_state s /\
      (forall t, snd (start_requests
                        (set_spider_state s (set_site_structure (spider_state s) t)))
                 = snd (start_requests s))
  | None =>
      site_structure_discoverer.construct (Response := Response)
        (site_structure_discoverer.NameString (name s)) (start_url s) (category_selectors s)
        (Some (@on_site_structure_discovery_complete Response)) = inl AttributeError /\
      start_requests s = (s, inl AttributeError)
  end.
Proof.
  intros Hi. pose proof (init_state _ _ _ _ _ Hi) as Est.
  destruct persisted as [snap|].
  - assert (Hl : is_loaded (spider_state s) = true) by now rewrite Est.
    assert (Hu : current_page_url (spider_state s) = saved_page_url snap) by now rewrite Est.
    unfold start_requests.
    cbn [spider_state set_spider_state set_site_structure is_loaded current_page_url].
    rewrite Hl, Hu. split; [reflexivity|]. split; [reflexivity|]. intros t. reflexivity.
  - assert (Hl : is_loaded (spider_state s) = false) by now rewrite Est.
    split; [reflexivity|]. unfold start_requests. rewrite Hl. reflexivity.
Qed.

(** In a state of the traversal with a category in progress, the handler
    finds the leaf and returns. *)
Lemma paging_finished_returns (s : Spider) (q : NodeRef) :
  reachable s ->
  state_at (site_structure (spider_state s)) q = Some IN_PROGRESS -> q <> [] ->
  exists s' r, on_paging_finished default_propagate s = (s', inr r).
Proof.
  intros R Hq Hne. destruct (reachable_inv s R) as [[W _ C] _].
  unfold cursor_ok in C. unfold on_paging_finished.
  destruct (current_page_site_path (spider_state s)) as [sp|]; [|now contradiction (C q)].
  destruct C as [h [[n [Hn Hc]] [Esp Q]]]. pose proof (Q q Hq). subst h.
  rewrite Esp, (get_node_at_path_get_path _ q n W Hn Hne).
  destruct (progress_to_next_category _) as [s' r]. now exists s', r.
Qed.

End Traversal.

(** *** A small site: [a] with the sub-category [x], and [b] *)

Local Open Scope string_scope.

Definition example_Spider_init (name_arg : option string) : Outcome string :=
  match name_arg with
  | Some nm => inr nm
  | None => inl (ValueError "Spider must have a name")
  end.

Definition example_tree : SiteStructure :=
  add_node_with_path
    (add_node_with_path
       (add_node_with_path (SiteStructure_init "site") "a" "u1") "b" "u2") "a/x" "u3".

Definition example_new_spider : CategoryBasedSpider unit :=
  {| name := "sp";
     start_url := "s";
     category_selectors := [];
     spider_state := CategoryBasedSpiderState_init "sp" None;
     site_pager := None |}.

(** The spider once discovery has handed over [example_tree]: the leaf [a/x]
    is in progress. *)
Definition example_spider : CategoryBasedSpider unit :=
  fst (on_site_structure_discovery_complete
         {| site_structure_discoverer.discovered_name := "sp";
            site_structure_discoverer.discovered_structure := example_tree |}
         example_new_spider).

Lemma example_spider_reachable (b : bool) :
  reachable unit example_Spider_init "CategoryBasedSpider" None b example_spider.
Proof.
  unfold example_spider.
  apply reach_discovered with (selectors := Some []) (name_arg := Some "sp"%string)
                              (start_url_arg := Some "s"%string); reflexivity.
Defined.

Lemma at_most_one_leaf_in_progress_witness :
  state_at (site_structure (spider_state example_spider)) [0; 0] = Some IN_PROGRESS /\
  (forall q, state_at (site_structure (spider_state example_spider)) q = Some IN_PROGRESS ->
             q = [0; 0]).
Proof.
  split; [reflexivity|]. intros q Hq.
  exact (proj1 (@at_most_one_leaf_in_progress unit example_Spider_init "CategoryBasedSpider"
                  None true example_spider (example_spider_reachable true))
           q [0; 0] Hq eq_refl).
Defined.

Lemma propagation_marks_completed_ancestors_witness :
  exists s' r sp h,
    on_paging_finished true example_spider = (s', inr r) /\
    current_page_site_path (spider_state example_spider) = Some sp /\
    get_node_at_path (site_structure (spider_state example_spider)) sp = Some h /\
    state_at (site_structure (spider_state s')) h = Some VISITED.
Proof.
  destruct (@propagation_marks_completed_ancestors unit example_Spider_init
              "CategoryBasedSpider" None true example_spider
              (fst (on_paging_finished true example_spider))
              (Some {| pager_request_url := Some "u2"%string |})
              (example_spider_reachable true) eq_refl)
    as [sp [h [H1 [H2 [_ [H3 _]]]]]].
  exists (fst (on_paging_finished true example_spider)),
         (Some {| pager_request_url := Some "u2"%string |}), sp, h.
  split; [reflexivity|]. split; [exact H1|]. split; [exact H2 | exact H3].
Defined.


Lemma construction_accepts_empty_selectors_counterexample :
  exists s : CategoryBasedSpider unit,
    init example_Spider_init "CategoryBasedSpider" None None (Some [])
      (Some "sp"%string) (Some "s"%string) = inr s /\
    category_selectors s = [].
Proof. eexists. split; reflexivity. Qed.

Lemma start_requests_resumes_or_raises_witness :
  let snap := {| saved_site_structure := site_structure (spider_state example_spider);
                 saved_page_site_path := Some "a/x"%string;
                 saved_page_url := Some "u3?page=2"%string |} in
  (exists s : CategoryBasedSpider unit,
     init example_Spider_init "CategoryBasedSpider" None (Some snap) (Some [])
       (Some "sp"%string) (Some "s"%string) = inr s /\
     snd (start_requests s)
     = inr [Resume unit {| pager_request_url := Some "u3?page=2"%string |}]) /\
  start_requests example_new_spider = (example_new_spider, inl AttributeError).
Proof.
  cbv zeta. split.
  - eexists. split; [reflexivity|].
    match goal with
    | |- snd (start_requests ?s) = _ =>
        pose proof (@start_requests_resumes_or_raises unit example_Spider_init
                      "CategoryBasedSpider" None
                      (Some {| saved_site_structure :=
                                 site_structure (spider_state example_spider);
                               saved_page_site_path := Some "a/x"%string;
                               saved_page_url := Some "u3?page=2"%string |})
                      (Some []) (Some "sp"%string) (Some "s"%string) s eq_refl) as H
    end.
    cbv beta iota in H. destruct H as [H _]. rewrite H. reflexivity.
  - exact (proj2 (@start_requests_resumes_or_raises unit example_Spider_init
                    "CategoryBasedSpider" None None (Some []) (Some "sp"%string)
                    (Some "s"%string) example_new_spider eq_refl)).
Defined.

(** C4, on the code: the leaf [a] of a site with that category only
    finishes.  It and the root are [VISITED] in memory and no request is
    returned, but [save] has not been called: the latest snapshot is the one
    written when the leaf was started, with the leaf [IN_PROGRESS]. *)
Lemma paging_finished_terminal_not_saved (default_propagate : bool) :
  let s := fst (on_site_structure_discovery_complete
                  {| site_structure_discoverer.discovered_name := "sp";
                     site_structure_discoverer.discovered_structure :=
                       add_node_with_path (SiteStructure_init "site") "a" "u1" |}
                  example_new_spider) in
  let result := on_paging_finished default_propagate s in
  let s' := fst result in
  reachable unit example_Spider_init "CategoryBasedSpider" None default_propagate s /\
  snd result = inr None /\
  state_at (site_structure (spider_state s')) [0] = Some VISITED /\
  state_at (site_structure (spider_state s')) [] = Some VISITED /\
  store (spider_state s') = store (spider_state s) /\
  option_map (fun snap => state_at (saved_site_structure snap) [0])
    (hd_error (store (spider_state s'))) = Some (Some IN_PROGRESS).
Proof.
  cbv zeta. split.
  - apply reach_discovered with (selectors := Some []) (name_arg := Some "sp"%string)
                                (start_url_arg := Some "s"%string); reflexivity.
  - destruct default_propagate; repeat split; reflexivity.
Qed.

(** Whenever a finished leaf was the last one, nothing is saved. *)
Lemma paging_finished_terminal_keeps_store (Response : Type) (default_propagate : bool)
  (s s' : CategoryBasedSpider Response) :
  on_paging_finished default_propagate s = (s', inr None) ->
  store (spider_state s') = store (spider_state s).
Proof.
  unfold on_paging_finished.
  destruct (current_page_site_path (spider_state s)) as [sp|]; [|discriminate].
  destruct (get_node_at_path (site_structure (spider_state s)) sp) as [h|]; [|discriminate].
  unfold progress_to_next_category.
  destruct (find_leaf_with_visit_state _ NEW); intros H; inversion H. reflexivity.
Qed.

(** When another leaf follows, the state is saved with the new cursor. *)
Lemma paging_finished_next_leaf_saved (Response : Type) (default_propagate : bool)
  (s s' : CategoryBasedSpider Response) (r : PagerRequest) :
  on_paging_finished default_propagate s = (s', inr (Some r)) ->
  store (spider_state s') = snapshot (spider_state s') :: store (spider_state s).
Proof.
  unfold on_paging_finished.
  destruct (current_page_site_path (spider_state s)) as [sp|]; [|discriminate].
  destruct (get_node_at_path (site_structure (spider_state s)) sp) as [h|]; [|discriminate].
  unfold progress_to_next_category.
  destruct (find_leaf_with_visit_state _ NEW); intros H; inversion H. reflexivity.
Qed.

End spider_facts.

(* ===================================================================== *)
(** ** From discovery to traversal *)
(* ===================================================================== *)

Module discovered_tree_facts.
Import site_structure tree_facts spider_facts.

(** What discovery builds: sibling names unique and free of slashes, every
    node [NEW]. *)
Definition fresh_tree (n : Node) : Prop :=
  wf_namesb n = true /\ all_newb n = true.

Lemma NoDup_nodupb (l : list string) : NoDup l -> nodupb l = true.
Proof.
  induction 1 as [|x l Hnin _ IH]; [reflexivity|]. simpl.
  rewrite IH, andb_true_r. apply negb_true_iff.
  destruct (existsb (String.eqb x) l) eqn:E; [|reflexivity].
  apply existsb_exists in E. destruct E as [y [Hy Hxy]].
  apply String.eqb_eq in Hxy. subst y. contradiction.
Qed.

Lemma wf_namesb_build nm u s (cs : list Node) :
  NoDup (map name cs) ->
  Forall (fun c => has_slash (name c) = false /\ wf_namesb c = true) cs ->
  wf_namesb (mkNode nm u s cs) = true.
Proof.
  intros ND F. cbn [wf_namesb]. rewrite (NoDup_nodupb _ ND). cbn [andb].
  induction F as [|c cs [H1 H2] _ IH]; [reflexivity|].
  - inversion ND; subst. rewrite H1, H2. cbn [negb andb]. now apply IH.
Qed.

Lemma all_newb_build nm u (cs : list Node) :
  Forall (fun c => all_newb c = true) cs -> all_newb (mkNode nm u NEW cs) = true.
Proof.
  intros F. cbn [all_newb VisitState_eqb andb].
  induction F as [|c cs H _ IH]; [reflexivity|]. now rewrite H, IH.
Qed.

Lemma fresh_tree_parts (n : Node) :
  fresh_tree n <->
  visit_state n = NEW /\ NoDup (map name (children n)) /\
  Forall (fun c => has_slash (name c) = false /\ fresh_tree c) (children n).
Proof.
  unfold fresh_tree. split.
  - intros [W A]. destruct (wf_namesb_children _ W) as [ND F].
    destruct (all_newb_children _ A) as [Hv G].
    split; [exact Hv|]. split; [exact ND|].
    rewrite Forall_forall in *. intros c Hc.
    destruct (F c Hc) as [H1 H2]. auto.
  - intros [Hv [ND F]]. destruct n as [nm u s cs]. simpl in Hv, ND, F. subst s. split.
    + apply wf_namesb_build; [exact ND|].
      eapply Forall_impl; [|exact F]. intros c [H1 [H2 _]]. auto.
    + apply all_newb_build. eapply Forall_impl; [|exact F]. now intros c [_ [_ H]].
Qed.

Lemma upsert_child_names (seg : string) (f : Node -> Node) (cs : list Node) :
  (forall c, name (f c) = name c) ->
  forall x, In x (map name (upsert_child seg f cs)) -> In x (map name cs) \/ x = seg.
Proof.
  intros Hf. induction cs as [|c cs IH]; intros x; simpl.
  - rewrite Hf. simpl. intros [<-|[]]. now right.
  - destruct (String.eqb (name c) seg); simpl.
    + rewrite Hf. tauto.
    + intros [<-|H]; [tauto|]. destruct (IH x H); tauto.
Qed.

Lemma upsert_child_NoDup (seg : string) (f : Node -> Node) (cs : list Node) :
  (forall c, name (f c) = name c) ->
  NoDup (map name cs) -> NoDup (map name (upsert_child seg f cs)).
Proof.
  intros Hf. induction cs as [|c cs IH]; simpl; intros ND.
  - rewrite Hf. simpl. constructor; [tauto | constructor].
  - inversion ND as [|? ? Hnin ND']; subst.
    destruct (String.eqb (name c) seg) eqn:E; simpl.
    + rewrite Hf. now constructor.
    + constructor; [|now apply IH]. intros Hin.
      destruct (upsert_child_names seg f cs Hf _ Hin) as [H|H]; [contradiction|].
      apply String.eqb_neq in E. contradiction.
Qed.

Lemma upsert_child_Forall (Q : Node -> Prop) (seg : string) (f : Node -> Node)
  (cs : list Node) :
  (forall c, Q c -> Q (f c)) -> Q (f (new_node seg)) ->
  Forall Q cs -> Forall Q (upsert_child seg f cs).
Proof.
  intros Hf Hnew. induction 1 as [|c cs Hc Hcs IH]; simpl.
  - constructor; [exact Hnew | constructor].
  - destruct (String.eqb (name c) seg); constructor; auto.
Qed.

Lemma insert_segments_fresh (u : string) (segs : list string) :
  Forall (fun seg => has_slash seg = false) segs ->
  forall n, fresh_tree n ->
            fresh_tree (insert_segments segs u n) /\
            name (insert_segments segs u n) = name n.
Proof.
  induction 1 as [|seg rest Hseg _ IH]; intros n Hn.
  - split; [|now destruct n]. apply fresh_tree_parts in Hn. apply fresh_tree_parts.
    now destruct n.
  - split; [|now destruct n].
    apply fresh_tree_parts in Hn. destruct Hn as [Hv [ND F]].
    apply fresh_tree_parts. cbn [insert_segments with_children visit_state children].
    split; [exact Hv|]. split.
    + apply upsert_child_NoDup; [|exact ND]. intros c.
      destruct rest; now destruct c.
    + apply upsert_child_Forall; [| |exact F].
      * intros c [H1 H2]. destruct (IH c H2) as [H3 H4]. rewrite H4. auto.
      * assert (Hnew : fresh_tree (new_node seg)) by (split; reflexivity).
        destruct (IH _ Hnew) as [H3 H4]. rewrite H4. auto.
Qed.

Lemma split_slash_segments (s : string) :
  Forall (fun seg => has_slash seg = false) (split_slash s).
Proof.
  induction s as [|c s IH]; simpl; [now constructor|].
  destruct (Ascii.eqb c slash) eqn:E; [now constructor|].
  destruct (split_slash s) as [|seg more]; [now constructor; [simpl; rewrite E|]|].
  inversion IH; subst. constructor; [|assumption]. simpl. now rewrite E.
Qed.

Lemma add_node_with_path_fresh (t : SiteStructure) (path u : string) :
  fresh_tree t -> fresh_tree (add_node_with_path t path u).
Proof.
  intros H. apply (insert_segments_fresh u _ (split_slash_segments path) t H).
Qed.

Lemma insert_all_fresh parent_path (pairs : list (string * string)) :
  forall t, fresh_tree t -> fresh_tree (discoverer_facts.insert_all parent_path pairs t).
Proof.
  unfold discoverer_facts.insert_all.
  induction pairs as [|p pairs IH]; intros t H; [exact H|].
  simpl. apply IH. now apply add_node_with_path_fresh.
Qed.

Lemma insert_segments_name (u : string) (segs : list string) (n : Node) :
  name (insert_segments segs u n) = name n.
Proof. destruct segs; now destruct n. Qed.

Lemma upsert_child_index (seg : string) (f : Node -> Node) (cs : list Node) :
  (forall c, name (f c) = name c) ->
  exists i c0,
    child_index seg (upsert_child seg f cs) = Some i /\
    nth_error (upsert_child seg f cs) i = Some (f c0).
Proof.
  intros Hf. induction cs as [|c cs IH]; simpl.
  - exists 0, (new_node seg). rewrite Hf. simpl. now rewrite String.eqb_refl.
  - destruct (String.eqb (name c) seg) eqn:E; simpl.
    + exists 0, c. now rewrite Hf, E.
    + destruct IH as [i [c0 [H1 H2]]]. exists (S i), c0. now rewrite E, H1.
Qed.

(** Insertion puts a node with the given URL where a lookup of the same
    segments finds it. *)
Lemma lookup_insert_segments (u : string) (segs : list string) :
  forall (n : Node) (h0 : NodeRef),
    exists p m,
      lookup_segments segs (insert_segments segs u n) h0 = Some (p ++ h0)%list /\
      node_at (insert_segments segs u n) p = Some m /\
      url m = Some u.
Proof.
  induction segs as [|seg rest IH]; intros n h0.
  - exists [], (with_url n u). repeat split.
  - cbn [insert_segments lookup_segments with_children children].
    destruct (upsert_child_index seg (insert_segments rest u) (children n)
                (insert_segments_name u rest)) as [i [c0 [H1 H2]]].
    rewrite H1, H2.
    destruct (IH c0 (i :: h0)) as [p [m [H3 [H4 H5]]]].
    exists (p ++ [i])%list, m. rewrite <- app_assoc. split; [exact H3|].
    split; [|exact H5]. rewrite node_at_snoc. cbn [children with_children]. now rewrite H2.
Qed.

Lemma add_node_with_path_found (t : SiteStructure) (path u : string) :
  exists h m,
    get_node_at_path (add_node_with_path t path u) path = Some h /\
    node_at (add_node_with_path t path u) h = Some m /\
    url m = Some u.
Proof.
  unfold get_node_at_path, add_node_with_path.
  destruct (lookup_insert_segments u (split_slash path) t []) as [p [m [H1 [H2 H3]]]].
  rewrite app_nil_r in H1. now exists p, m.
Qed.

End discovered_tree_facts.

Module handover_facts.
Import site_structure_discoverer tree_facts spider_facts discovered_tree_facts.

Section Discovered.

Variables Response Continuation World : Type.
Variable fetch : string -> Response.

Lemma resolve_fresh (k : nat) (c c' : Crawl Response Continuation World) :
  fresh_tree (structure (discoverer c)) ->
  resolve fetch k c = Some c' ->
  fresh_tree (structure (discoverer c')).
Proof.
  intros H. unfold resolve.
  destruct (nth_error (in_flight c) k) as [r|]; [|discriminate].
  destruct (nth_error (category_parsers (discoverer c)) (category_index r)) as [cp|] eqn:Ep.
  - rewrite (discoverer_facts.process_category_response_eq (discoverer c) (world c)
               (fetch (request_url r)) (category_index r) (path r) Ep).
    cbv zeta.
    match goal with |- context [if ?b then _ else _] => destruct b end;
      intros E; inversion E; subst c';
      cbn [discoverer structure set_remaining_work set_structure];
      now apply insert_all_fresh.
  - unfold process_category_response. cbn [category_parsers set_remaining_work].
    rewrite Ep. discriminate.
Qed.

Lemma run_fresh (schedule : list nat) :
  forall c c' : Crawl Response Continuation World,
    fresh_tree (structure (discoverer c)) ->
    run fetch schedule c = Some c' ->
    fresh_tree (structure (discoverer c')).
Proof.
  induction schedule as [|k rest IH]; intros c c' H; simpl.
  - intros E. now inversion E; subst.
  - destruct (resolve fetch k c) as [c1|] eqn:E; [|discriminate].
    apply IH. now apply (resolve_fresh k c c1).
Qed.

End Discovered.

Local Abbreviation Spider := category_based_spider.CategoryBasedSpider.
Local Abbreviation complete := category_based_spider.on_site_structure_discovery_complete.

(** The tree a discovery run ends with is one the traversal can start from:
    a spider built without a progress file, once its discoverer has counted
    down to zero, is in a state of the traversal. *)
Theorem discovered_spider_reachable (Response : Type)
  (Spider_init : option string -> Outcome string) (class_name : string)
  (class_start_url : option string) (default_propagate : bool)
  (selectors : option (list (CategoryParser Response)))
  (name_arg start_url_arg : option string) (s : Spider Response)
  (fetch : string -> Response) (schedule : list nat)
  (c : Crawl Response category_based_spider.PagerRequest (Spider Response)) :
  category_based_spider.init Spider_init class_name class_start_url None selectors
    name_arg start_url_arg = inr s ->
  run fetch schedule
    (start_crawl
       (init (category_based_spider.name s) (category_based_spider.start_url s)
          (category_based_spider.category_selectors s) (Some (@complete Response)))
       s) = Some c ->
  remaining_work (discoverer c) = 0%Z ->
  reachable Response Spider_init class_name class_start_url default_propagate (world c).
Proof.
  intros Hi Hrun Hz.
  destruct (discoverer_facts.run_start_safe fetch
              (category_based_spider.category_selectors s) (Some (@complete Response))
              (category_based_spider.name s) (category_based_spider.start_url s) s
              schedule Hrun) as [Hc [_ [_ Ha]]].
  destruct Ha as [_ Hw].
  { destruct (in_flight c); [reflexivity|]. rewrite Hz in Hc. simpl in Hc. lia. }
  rewrite Hw.
  assert (F : fresh_tree (structure (discoverer c))).
  { eapply run_fresh; [|exact Hrun]. split; reflexivity. }
  destruct F as [W A].
  now apply (reach_discovered Response Spider_init class_name class_start_url
               default_propagate (public (discoverer c)) s selectors name_arg
               start_url_arg Hi).
Qed.

End handover_facts.

(* ===================================================================== *)
(** ** More on the traversal: progress, termination, failures, restarts *)
(* ===================================================================== *)

Module traversal_coverage.
Import site_structure category_based_spider tree_facts spider_facts.

(** *** Counting leaves *)

(** The number of leaves of a tree that are in the state [st]. *)
Fixpoint count_leaves (st : VisitState) (n : Node) : nat :=
  match n with
  | mkNode _ _ s [] => if VisitState_eqb s st then 1 else 0
  | mkNode _ _ _ cs =>
      (fix sum (l : list Node) : nat :=
         match l with
         | [] => 0
         | c :: l' => count_leaves st c + sum l'
         end) cs
  end.

Lemma count_leaves_eq st (n : Node) :
  count_leaves st n =
  match children n with
  | [] => if VisitState_eqb (visit_state n) st then 1 else 0
  | cs => list_sum (map (count_leaves st) cs)
  end.
Proof.
  assert (G : forall l0,
             (fix sum (l1 : list Node) : nat :=
                match l1 with
                | [] => 0
                | c0 :: l' => count_leaves st c0 + sum l'
                end) l0 = list_sum (map (count_leaves st) l0)).
  { induction l0 as [|c0 l0 IH]; [reflexivity|]. simpl. now rewrite IH. }
  destruct n as [nm u s [|c cs]]; [reflexivity|].
  cbn [children].
  change (count_leaves st (mkNode nm u s (c :: cs)))
    with ((fix sum (l1 : list Node) : nat :=
             match l1 with
             | [] => 0
             | c1 :: l' => count_leaves st c1 + sum l'
             end) (c :: cs)).
  apply G.
Qed.

Lemma list_sum_update_nth {A : Type} (g : A -> nat) (f : A -> A) (l : list A) :
  forall i x, nth_error l i = Some x ->
              list_sum (map g (update_nth i f l)) + g x = list_sum (map g l) + g (f x).
Proof.
  induction l as [|y l IH]; intros [|i] x E; simpl in *; try discriminate.
  - inversion E; subst. lia.
  - specialize (IH i x E). lia.
Qed.

(** Changing one node changes the count by what it changes below that node. *)
Lemma count_leaves_update_at st (h : NodeRef) :
  forall (t : Node) (f : Node -> Node) (n : Node),
    node_at t h = Some n ->
    count_leaves st (update_at t h f) + count_leaves st n =
    count_leaves st t + count_leaves st (f n).
Proof.
  induction h as [|i hp IH]; intros t f n Hn.
  - simpl in *. inversion Hn; subst. lia.
  - destruct (node_at_parent t i hp n Hn) as [pn [Hp Hi]].
    cbn [update_at].
    pose proof (IH t (fun p => with_children p (update_nth i f (children p))) pn Hp) as E.
    cbn beta in E.
    assert (G : count_leaves st (with_children pn (update_nth i f (children pn)))
                + count_leaves st n = count_leaves st pn + count_leaves st (f n)).
    { rewrite (count_leaves_eq st pn), (count_leaves_eq st (with_children pn _)).
      cbn [children with_children].
      pose proof (list_sum_update_nth (count_leaves st) f (children pn) i n Hi) as L.
      destruct (children pn) as [|c cs] eqn:Ec; [now destruct i|].
      destruct (update_nth i f (c :: cs)) as [|c' cs'] eqn:Eu.
      - apply (f_equal (@length _)) in Eu. rewrite length_update_nth in Eu. discriminate.
      - exact L. }
    lia.
Qed.

Lemma count_leaves_forced (n : Node) :
  count_leaves NEW (set_visit_state VISITED true n) = 0.
Proof.
  induction n as [nm u s cs IH] using Node_ind.
  rewrite count_leaves_eq, set_visit_state_children_true. cbn [children visit_state].
  assert (G : list_sum (map (count_leaves NEW) (map (set_visit_state VISITED true) cs)) = 0).
  { induction IH as [|c0 l0 H0 _ IHl]; [reflexivity|]. simpl. now rewrite H0, IHl. }
  destruct cs as [|c cs]; [reflexivity|]. exact G.
Qed.

Lemma count_leaves_set_visited (b : bool) (n : Node) :
  count_leaves NEW (set_visit_state VISITED b n) <= count_leaves NEW n.
Proof.
  destruct b; [rewrite count_leaves_forced; lia|].
  rewrite (count_leaves_eq NEW (set_visit_state VISITED false n)), (count_leaves_eq NEW n).
  rewrite set_visit_state_children_false.
  destruct (children n); [|lia]. destruct n; simpl. destruct (VisitState_eqb _ NEW); lia.
Qed.

Lemma update_nth_same {A : Type} (f : A -> A) (l : list A) :
  forall i, (forall x, nth_error l i = Some x -> f x = x) -> update_nth i f l = l.
Proof.
  induction l as [|x l IH]; intros [|i] H; simpl; try reflexivity.
  - now rewrite (H x eq_refl).
  - f_equal. apply IH. exact H.
Qed.

Lemma update_at_same (h : NodeRef) :
  forall (t : Node) (f : Node -> Node),
    (forall n, node_at t h = Some n -> f n = n) -> update_at t h f = t.
Proof.
  induction h as [|i hp IH]; intros t f H.
  - simpl. now apply H.
  - cbn [update_at]. apply IH. intros pn Hp.
    rewrite update_nth_same; [now destruct pn|].
    intros x Hx. apply H. simpl. now rewrite Hp.
Qed.

Lemma count_leaves_set_visited_at (b : bool) (t : Node) (h : NodeRef) :
  count_leaves NEW (update_at t h (set_visit_state VISITED b)) <= count_leaves NEW t.
Proof.
  destruct (node_at t h) as [n|] eqn:Hn.
  - pose proof (count_leaves_update_at NEW h t (set_visit_state VISITED b) n Hn).
    pose proof (count_leaves_set_visited b n). lia.
  - rewrite update_at_same; [lia|]. intros n E. congruence.
Qed.

Lemma count_leaves_propagate (b : bool) (h : NodeRef) :
  forall t, count_leaves NEW (propagate_visited_if_siblings_visited b t h)
            <= count_leaves NEW t.
Proof.
  induction h as [|i hp IH]; intros t; [simpl; lia|].
  cbn [propagate_visited_if_siblings_visited].
  destruct (node_at t hp) as [pn|]; [|lia].
  destruct (are_category_children_visited pn); [|lia].
  etransitivity; [apply IH | apply count_leaves_set_visited_at].
Qed.

Lemma count_leaves_mark_visited (b : bool) (t : Node) (h : NodeRef) :
  count_leaves NEW (mark_visited b t h) <= count_leaves NEW t.
Proof.
  unfold mark_visited.
  etransitivity; [apply count_leaves_propagate | apply count_leaves_set_visited_at].
Qed.

(** A tree counts a leaf in a state exactly when it has one. *)
Lemma count_leaves_pos st (n : Node) :
  0 < count_leaves st n ->
  exists p m, node_at n p = Some m /\ children m = [] /\ visit_state m = st.
Proof.
  induction n as [nm u s cs IH] using Node_ind.
  rewrite count_leaves_eq. cbn [children visit_state].
  destruct cs as [|c0 cs0].
  - destruct (VisitState_eqb s st) eqn:E; [|lia]. intros _.
    exists [], (mkNode nm u s []). repeat split. now apply VisitState_eqb_eq.
  - set (cs := c0 :: cs0) in *. clearbody cs. intros H.
    assert (G : exists i c, nth_error cs i = Some c /\ 0 < count_leaves st c).
    { clear IH. induction cs as [|c l IHl]; simpl in H; [lia|].
      destruct (Nat.eq_dec (count_leaves st c) 0) as [Ez|Enz].
      - destruct IHl as [i [c' [H1 H2]]]; [lia|]. now exists (S i), c'.
      - exists 0, c. split; [reflexivity | lia]. }
    destruct G as [i [c [Hi Hc]]].
    rewrite Forall_forall in IH.
    destruct (IH c (nth_error_In _ _ Hi) Hc) as [p [m [H1 H2]]].
    exists (p ++ [i])%list, m. rewrite node_at_snoc. cbn [children]. rewrite Hi. auto.
Qed.

Section Progress.

Variable Response : Type.
Local Abbreviation Spider := (CategoryBasedSpider Response).

Lemma progress_leaf_counts (s : Spider) :
  let t := site_structure (spider_state s) in
  let t' := site_structure (spider_state (fst (progress_to_next_category s))) in
  (snd (progress_to_next_category s) = None <-> count_leaves NEW t = 0) /\
  (snd (progress_to_next_category s) <> None ->
   count_leaves NEW t' + 1 = count_leaves NEW t /\
   count_leaves IN_PROGRESS t' = count_leaves IN_PROGRESS t + 1).
Proof.
  intros t t'. unfold t', progress_to_next_category. fold t.
  destruct (find_leaf_with_visit_state t NEW) as [x|] eqn:E.
  - unfold find_leaf_with_visit_state in E.
    destruct (find_leaf_from_sound NEW _ _ _ E) as [p [n [Hx [Hn [Hc Hv]]]]].
    rewrite app_nil_r in Hx. subst p.
    cbn [fst snd spider_state set_spider_state set_site_pager save set_site_structure
           set_current_page_url set_current_page_site_path site_structure].
    pose proof (count_leaves_update_at NEW x t (set_visit_state IN_PROGRESS true) n Hn) as C1.
    pose proof (count_leaves_update_at IN_PROGRESS x t (set_visit_state IN_PROGRESS true) n Hn)
      as C2.
    assert (N1 : count_leaves NEW n = 1).
    { rewrite count_leaves_eq, Hc, Hv. reflexivity. }
    assert (N2 : count_leaves NEW (set_visit_state IN_PROGRESS true n) = 0).
    { rewrite count_leaves_eq, set_visit_state_children_true, Hc. now destruct n. }
    assert (N3 : count_leaves IN_PROGRESS n = 0).
    { rewrite count_leaves_eq, Hc, Hv. reflexivity. }
    assert (N4 : count_leaves IN_PROGRESS (set_visit_state IN_PROGRESS true n) = 1).
    { rewrite count_leaves_eq, set_visit_state_children_true, Hc. now destruct n. }
    split.
    + split; [discriminate | intros Hz; exfalso; lia].
    + intros _. lia.
  - cbn [fst snd]. split; [|congruence]. split; [|reflexivity]. intros _.
    destruct (Nat.eq_dec (count_leaves NEW t) 0) as [Ez|Enz]; [exact Ez|].
    destruct (count_leaves_pos NEW t) as [p [m [H1 [H2 H3]]]]; [lia|].
    exfalso. apply (find_leaf_from_complete NEW t [] E p m H1 H2 H3).
Qed.

(** X1. [__progress_to_next_category] returns no request exactly when the tree
    has no [NEW] leaf; when it returns one, one [NEW] leaf less is left and
    one more leaf is [IN_PROGRESS]. *)
Theorem progress_starts_one_new_leaf (s : Spider) :
  let t := site_structure (spider_state s) in
  let t' := site_structure (spider_state (fst (progress_to_next_category s))) in
  (snd (progress_to_next_category s) = None <-> count_leaves NEW t = 0) /\
  (snd (progress_to_next_category s) <> None ->
   count_leaves NEW t' + 1 = count_leaves NEW t /\
   count_leaves IN_PROGRESS t' = count_leaves IN_PROGRESS t + 1).
Proof.
  intros t t'. destruct (progress_leaf_counts s) as [H1 H2]. split.
  - exact H1.
  - intros Hr. exact (H2 Hr).
Qed.

(** X2. Each finished leaf that is followed by another one leaves strictly fewer
    [NEW] leaves: at most as many leaves are started as the tree has [NEW]
    leaves. *)
Theorem paging_finished_lowers_new_leaves (default_propagate : bool) (s s' : Spider)
  (r : PagerRequest) :
  on_paging_finished default_propagate s = (s', inr (Some r)) ->
  count_leaves NEW (site_structure (spider_state s'))
  < count_leaves NEW (site_structure (spider_state s)).
Proof.
  unfold on_paging_finished.
  destruct (current_page_site_path (spider_state s)) as [sp|]; [|discriminate].
  destruct (get_node_at_path (site_structure (spider_state s)) sp) as [h|]; [|discriminate].
  set (s1 := set_spider_state s _).
  destruct (progress_to_next_category s1) as [s2 r2] eqn:E.
  intros H. inversion H; subst s2 r2. clear H.
  destruct (progress_leaf_counts s1) as [_ P]. rewrite E in P. cbn [fst snd] in P.
  destruct P as [P _]; [discriminate|].
  unfold s1 in P. cbn [spider_state set_spider_state set_site_structure site_structure] in P.
  pose proof (count_leaves_mark_visited default_propagate
                (site_structure (spider_state s)) h). lia.
Qed.

End Progress.

Lemma count_leaves_leaf (st : VisitState) (q : NodeRef) :
  forall (t m : Node),
    node_at t q = Some m -> children m = [] -> visit_state m = st ->
    0 < count_leaves st t.
Proof.
  induction q as [|j q IHq] using rev_ind; intros t m Hm Hc Hv.
  - simpl in Hm. inversion Hm; subst. rewrite count_leaves_eq, Hc, VisitState_eqb_refl. lia.
  - rewrite node_at_snoc in Hm.
    destruct (nth_error (children t) j) as [c|] eqn:Ej; [|discriminate].
    pose proof (IHq c m Hm Hc Hv) as G.
    rewrite (count_leaves_eq st t).
    destruct (children t) as [|c0 cs0] eqn:Ecs; [now destruct j|].
    rewrite <- Ecs in *. clear Ecs.
    apply nth_error_split in Ej. destruct Ej as [l1 [l2 [El _]]].
    rewrite El, map_app, list_sum_app. simpl. lia.
Qed.

(** When every leaf is [VISITED] in a consistent tree, every node is. *)
Lemma all_visited_of_leaves (t : Node) :
  visited_consistent t ->
  (forall q m, node_at t q = Some m -> children m = [] -> visit_state m = VISITED) ->
  forall q n, node_at t q = Some n -> visit_state n = VISITED.
Proof.
  intros C L q n. revert q.
  induction n as [nm u st cs IH] using Node_ind. intros q Hn.
  destruct cs as [|c0 cs0]; [now apply (L q _ Hn)|].
  set (cs := c0 :: cs0) in *. assert (Hne : cs <> []) by discriminate. clearbody cs.
  apply (C q _ Hn Hne). apply are_category_children_visited_iff. cbn [children].
  intros j c Hj. rewrite Forall_forall in IH.
  apply (IH c (nth_error_In _ _ Hj) (j :: q)). simpl. now rewrite Hn.
Qed.

(** *** The default of [propagate] *)

Lemma update_nth_ext {A : Type} (f g : A -> A) (l : list A) :
  forall i, (forall x, nth_error l i = Some x -> f x = g x) ->
            update_nth i f l = update_nth i g l.
Proof.
  induction l as [|x l IH]; intros [|i] H; simpl; try reflexivity.
  - now rewrite (H x eq_refl).
  - f_equal. apply IH. exact H.
Qed.

Lemma update_at_ext (h : NodeRef) :
  forall (t : Node) (f g : Node -> Node),
    (forall n, node_at t h = Some n -> f n = g n) -> update_at t h f = update_at t h g.
Proof.
  induction h as [|i hp IH]; intros t f g H.
  - simpl. now apply H.
  - cbn [update_at]. apply IH. intros pn Hp. f_equal.
    apply update_nth_ext. intros x Hx. apply H. simpl. now rewrite Hp.
Qed.

(** Forcing a state on a subtree that has it everywhere changes nothing. *)
Lemma set_visit_state_fixed (st : VisitState) (n : Node) :
  (forall p m, node_at n p = Some m -> visit_state m = st) ->
  set_visit_state st true n = n.
Proof.
  induction n as [nm u s cs IH] using Node_ind. intros H.
  assert (Ec : children (set_visit_state st true (mkNode nm u s cs)) = cs).
  { rewrite set_visit_state_children_true. cbn [children].
    apply nth_error_ext. intros j. rewrite nth_error_map.
    destruct (nth_error cs j) as [c|] eqn:Ej; [|reflexivity]. cbn [option_map]. f_equal.
    rewrite Forall_forall in IH. apply (IH c (nth_error_In _ _ Ej)).
    intros p m Hm. apply (H (p ++ [j])%list m). rewrite node_at_snoc. cbn [children].
    now rewrite Ej. }
  pose proof (H [] _ eq_refl) as Es. cbn [visit_state] in Es. subst s.
  pose proof (set_visit_state_label st true (mkNode nm u st cs)) as El.
  destruct (set_visit_state st true (mkNode nm u st cs)) as [nm' u' s' cs'] eqn:E.
  cbn [children] in Ec. unfold label in El. cbn in El. inversion El. now subst.
Qed.

(** Where the children of a node are [VISITED] in a tree closed downwards,
    setting the node [VISITED] gives the same tree with and without
    propagation. *)
Lemma set_visited_either_way (t : Node) (x : NodeRef) :
  visited_down t -> kids_visited t x ->
  update_at t x (set_visit_state VISITED true) = update_at t x (set_visit_state VISITED false).
Proof.
  intros D K. apply update_at_ext. intros n Hn.
  assert (Ec : children (set_visit_state VISITED true n) = children n).
  { rewrite set_visit_state_children_true.
    apply nth_error_ext. intros j. rewrite nth_error_map.
    destruct (nth_error (children n) j) as [c|] eqn:Ej; [|reflexivity].
    cbn [option_map]. f_equal. apply set_visit_state_fixed.
    assert (Hc : node_at t (j :: x) = Some c) by (simpl; now rewrite Hn).
    intros p m Hm.
    apply (visited_down_descendants t D p (j :: x) c m Hc (K j c Hc)).
    now rewrite node_at_app, Hc. }
  destruct n as [nm u s cs]. cbn [children] in Ec.
  change (set_visit_state VISITED false (mkNode nm u s cs)) with (mkNode nm u VISITED cs).
  rewrite <- Ec at 2. reflexivity.
Qed.

Lemma propagate_either_way (h : NodeRef) :
  forall t, visited_down t ->
            propagate_visited_if_siblings_visited true t h =
            propagate_visited_if_siblings_visited false t h.
Proof.
  induction h as [|i hp IH]; intros t D; [reflexivity|].
  cbn [propagate_visited_if_siblings_visited].
  destruct (node_at t hp) as [pn|] eqn:Ep; [|reflexivity].
  destruct (are_category_children_visited pn) eqn:Ev; [|reflexivity].
  assert (K : kids_visited t hp) by now apply (kids_visited_iff t hp pn Ep).
  rewrite (set_visited_either_way t hp D K). apply IH.
  apply set_visited_down; [exact D | now right].
Qed.

Section Lifecycle.

Variable Response : Type.
Variable Spider_init : option string -> Outcome string.
Variable class_name : string.
Variable class_start_url : option string.
Variable default_propagate : bool.

Local Abbreviation Spider := (CategoryBasedSpider Response).
Local Abbreviation reachable :=
  (reachable Response Spider_init class_name class_start_url default_propagate).
Local Abbreviation rebuilt :=
  (init (Response := Response) Spider_init class_name class_start_url).

Lemma paging_finished_done_all_visited (s s' : Spider) :
  reachable s ->
  on_paging_finished default_propagate s = (s', inr None) ->
  forall q n, node_at (site_structure (spider_state s')) q = Some n ->
              visit_state n = VISITED.
Proof.
  intros R Hp.
  destruct (reachable_inv _ _ _ _ _ s R) as [I _].
  destruct (paging_finished_inv _ default_propagate s s' None (reachable_inv _ _ _ _ _ s R) Hp)
    as [sp [h [_ [_ [L [Q [E [I' _]]]]]]]].
  set (t := site_structure (spider_state s)) in *.
  set (tm := mark_visited default_propagate t h) in *.
  set (s1 := set_spider_state s (set_site_structure (spider_state s) tm)) in E.
  assert (Es' : s' = fst (progress_to_next_category s1)) by now rewrite <- E.
  assert (Er : snd (progress_to_next_category s1) = None) by now rewrite <- E.
  destruct (progress_leaf_counts Response s1) as [P1 _].
  unfold s1 in P1 at 2.
  cbn [spider_state set_spider_state set_site_structure site_structure] in P1.
  assert (Et : site_structure (spider_state s') = tm).
  { rewrite Es'. unfold progress_to_next_category.
    unfold progress_to_next_category in Er.
    destruct (find_leaf_with_visit_state (site_structure (spider_state s1)) NEW);
      [discriminate Er | reflexivity]. }
  rewrite Et. apply all_visited_of_leaves.
  - rewrite <- Et. apply I'.
  - intros q m Hm Hc.
    destruct (visit_state m) eqn:Hv; [| |reflexivity]; exfalso.
    + assert (Z : count_leaves NEW tm = 0) by now apply P1.
      pose proof (count_leaves_leaf NEW q tm m Hm Hc Hv). lia.
    + pose proof (mark_visited_changes default_propagate t h (inv_visited _ _ I) L q m Hm)
        as [E2|[E2 _]]; [|congruence].
      rewrite Hv in E2. pose proof (Q q E2). subst q.
      pose proof (mark_visited_leaf default_propagate t h (inv_visited _ _ I) L) as Hh.
      fold tm in Hh. rewrite (state_at_node _ _ _ Hm), Hv in Hh. discriminate.
Qed.

(** X3. In a state of the traversal, [__on_paging_finished] returns no request
    exactly when it leaves every node of the tree [VISITED], the root
    included. *)
Theorem paging_finished_none_iff_all_visited (s s' : Spider) (r : option PagerRequest) :
  reachable s ->
  on_paging_finished default_propagate s = (s', inr r) ->
  (r = None <->
   forall q n, node_at (site_structure (spider_state s')) q = Some n ->
               visit_state n = VISITED).
Proof.
  intros R Hp. split.
  - intros Hr. subst r. now apply paging_finished_done_all_visited with (s := s).
  - intros A. destruct r as [r0|]; [exfalso|reflexivity].
    unfold on_paging_finished in Hp.
    destruct (current_page_site_path (spider_state s)) as [sp|]; [|discriminate].
    destruct (get_node_at_path (site_structure (spider_state s)) sp) as [h|]; [|discriminate].
    set (s1 := set_spider_state s _) in Hp.
    destruct (progress_to_next_category s1) as [s2 r2] eqn:E.
    inversion Hp; subst s2 r2. clear Hp.
    destruct (progress_leaf_counts Response s1) as [_ P2]. rewrite E in P2. cbn [fst snd] in P2.
    destruct P2 as [_ P2]; [discriminate|].
    destruct (count_leaves_pos IN_PROGRESS (site_structure (spider_state s')))
      as [p [m [H1 [_ H3]]]]; [lia|].
    rewrite (A p m H1) in H3. discriminate.
Qed.

(** X4. A finished leaf changes visit states only, and never takes [VISITED]
    back: the tree keeps its shape, names and URLs, and a node that was
    [VISITED] before still is. *)
Theorem paging_finished_keeps_tree_and_visited (s s' : Spider) (r : option PagerRequest) :
  reachable s ->
  on_paging_finished default_propagate s = (s', inr r) ->
  same_skeleton (site_structure (spider_state s)) (site_structure (spider_state s')) /\
  (forall q, state_at (site_structure (spider_state s)) q = Some VISITED ->
             state_at (site_structure (spider_state s')) q = Some VISITED).
Proof.
  intros R Hp.
  destruct (reachable_inv _ _ _ _ _ s R) as [I _].
  destruct (paging_finished_inv _ default_propagate s s' r (reachable_inv _ _ _ _ _ s R) Hp)
    as [sp [h [_ [_ [L [_ [E _]]]]]]].
  set (t := site_structure (spider_state s)) in *.
  set (tm := mark_visited default_propagate t h) in *.
  set (s1 := set_spider_state s (set_site_structure (spider_state s) tm)) in E.
  assert (Es' : s' = fst (progress_to_next_category s1)) by now rewrite <- E.
  pose proof (mark_visited_skeleton default_propagate t h) as S1. fold tm in S1.
  split.
  - apply same_skeleton_trans with (t2 := tm); [exact S1|].
    pose proof (progress_tree Response s1) as P. cbv zeta in P. rewrite <- Es' in P.
    unfold s1 in P.
    cbn [spider_state set_spider_state set_site_structure site_structure] in P.
    destruct (find_leaf_with_visit_state tm NEW) as [x|].
    + destruct P as [_ [_ ->]]. apply set_visit_state_same_skeleton.
    + rewrite P. apply same_skeleton_refl.
  - intros q Hq.
    assert (Hm : state_at tm q = Some VISITED).
    { destruct (state_at_Some _ _ _ Hq) as [n [Hn Hv]].
      destruct (same_skeleton_node _ _ _ _ S1 Hn) as [n' [Hn' _]].
      rewrite (state_at_node _ _ _ Hn'). f_equal.
      destruct (mark_visited_changes default_propagate t h (inv_visited _ _ I) L q n' Hn')
        as [E2|[E2 _]]; [|exact E2].
      rewrite Hq in E2. congruence. }
    pose proof (progress_states Response s1 q) as P. cbv zeta in P. rewrite <- Es' in P.
    unfold s1 in P.
    cbn [spider_state set_spider_state set_site_structure site_structure] in P.
    destruct P as [P|[_ [P _]]]; congruence.
Qed.

(** X5. In a state of the traversal, [__on_paging_finished] raises only when no
    leaf has been started (a restart from the snapshot written before the
    first leaf was) or when the tree is its root alone; it then leaves the
    spider as it was. *)
Theorem paging_finished_raises_only_without_category (s s' : Spider) (e : Exception) :
  reachable s ->
  on_paging_finished default_propagate s = (s', inl e) ->
  s' = s /\
  (current_page_site_path (spider_state s) = None \/
   children (site_structure (spider_state s)) = []).
Proof.
  intros R. destruct (reachable_inv _ _ _ _ _ s R) as [[W _ C] _].
  unfold on_paging_finished. unfold cursor_ok in C.
  destruct (current_page_site_path (spider_state s)) as [sp|].
  - destruct (get_node_at_path (site_structure (spider_state s)) sp) as [h|] eqn:Eg.
    + destruct (progress_to_next_category _). discriminate.
    + intros H. inversion H; subst. split; [reflexivity|]. right.
      destruct C as [h [[n [Hn Hc]] [Esp _]]].
      destruct h as [|i h].
      * simpl in Hn. inversion Hn; subst. exact Hc.
      * rewrite Esp, (get_node_at_path_get_path _ (i :: h) n W Hn) in Eg by discriminate.
        discriminate.
  - intros H. inversion H; subst. split; [reflexivity | now left].
Qed.

Lemma progress_saved (s s' : Spider) (r : PagerRequest) :
  progress_to_next_category s = (s', Some r) ->
  store (spider_state s') = snapshot (spider_state s') :: store (spider_state s) /\
  r = {| pager_request_url := current_page_url (spider_state s') |}.
Proof.
  unfold progress_to_next_category.
  destruct (find_leaf_with_visit_state _ NEW); intros H; inversion H. split; reflexivity.
Qed.

Lemma rebuilt_start_request (snap : Snapshot) selectors name_arg start_url_arg (s2 : Spider) :
  rebuilt (Some snap) selectors name_arg start_url_arg = inr s2 ->
  snd (start_requests s2)
  = inr [Resume Response {| pager_request_url := saved_page_url snap |}] /\
  site_structure (spider_state s2) = saved_site_structure snap /\
  current_page_site_path (spider_state s2) = saved_page_site_path snap.
Proof.
  intros Hi. pose proof (init_state _ _ _ _ _ _ _ _ _ Hi) as Est.
  unfold start_requests. rewrite Est. repeat split.
Qed.

(** X6. A spider rebuilt from the latest snapshot starts with the very request
    the interrupted one was last given: the request returned when a leaf was
    started (after discovery or after a finished leaf), or a request for the
    page reported by [__on_page_finished]; its tree and cursor are those of
    the interrupted spider. *)
Theorem restart_resumes_where_saved
  (d : site_structure_discoverer.Discovered) (u : option string)
  (s s' : Spider) (r : PagerRequest) (snap : Snapshot)
  selectors name_arg start_url_arg (s2 : Spider) :
  on_paging_finished default_propagate s = (s', inr (Some r)) \/
  on_site_structure_discovery_complete d s = (s', Some r) \/
  (on_page_finished s u = s' /\ r = {| pager_request_url := u |}) ->
  hd_error (store (spider_state s')) = Some snap ->
  rebuilt (Some snap) selectors name_arg start_url_arg = inr s2 ->
  snd (start_requests s2) = inr [Resume Response r] /\
  site_structure (spider_state s2) = site_structure (spider_state s') /\
  current_page_site_path (spider_state s2) = current_page_site_path (spider_state s').
Proof.
  intros H Hs Hi.
  destruct (rebuilt_start_request snap _ _ _ s2 Hi) as [H1 [H2 H3]].
  assert (G : snap = snapshot (spider_state s') /\
              r = {| pager_request_url := current_page_url (spider_state s') |}).
  { destruct H as [H|[H|[H Hr]]].
    - unfold on_paging_finished in H.
      destruct (current_page_site_path (spider_state s)) as [sp|]; [|discriminate].
      destruct (get_node_at_path (site_structure (spider_state s)) sp) as [h|]; [|discriminate].
      destruct (progress_to_next_category _) as [s3 r3] eqn:E.
      inversion H; subst s3 r3.
      destruct (progress_saved _ _ _ E) as [Hst Hr]. rewrite Hst in Hs.
      simpl in Hs. inversion Hs. now split.
    - unfold on_site_structure_discovery_complete in H.
      destruct (progress_saved _ _ _ H) as [Hst Hr]. rewrite Hst in Hs.
      simpl in Hs. inversion Hs. now split.
    - subst s' r. unfold on_page_finished in Hs |- *. simpl in Hs. inversion Hs.
      split; reflexivity. }
  destruct G as [-> ->]. rewrite H1, H2, H3. repeat split.
Qed.

(** X7. Whatever has happened, the latest snapshot is the state in memory,
    unless the whole tree is [VISITED]: an interruption loses at most the
    final marks. *)
Theorem latest_snapshot_is_current_or_all_visited (s : Spider) :
  reachable s ->
  hd_error (store (spider_state s)) = Some (snapshot (spider_state s)) \/
  (forall q n, node_at (site_structure (spider_state s)) q = Some n ->
               visit_state n = VISITED).
Proof.
  induction 1 as [d s sel na su Hi W A | s u _ IH | s s' r R IH Hp | s _ IH
                 | s s' snap sel na su _ IH Hin Hi].
  - left. unfold on_site_structure_discovery_complete, progress_to_next_category.
    destruct (find_leaf_with_visit_state _ NEW); reflexivity.
  - left. reflexivity.
  - destruct r as [r|].
    + left. now rewrite (paging_finished_next_leaf_saved _ _ _ _ _ Hp).
    + right. now apply (paging_finished_done_all_visited s s' R Hp).
  - unfold start_requests. destruct (is_loaded (spider_state s)); exact IH.
  - left. rewrite (init_state _ _ _ _ _ _ _ _ _ Hi). destruct snap; reflexivity.
Qed.

(** X8. [Node.set_visit_state] is called on a parent without saying whether to
    propagate.  In a state of the traversal that default makes no
    difference: the children of that parent, and so everything below them,
    are [VISITED] already. *)
Theorem paging_finished_either_propagate_default (s : Spider) :
  reachable s ->
  on_paging_finished true s = on_paging_finished false s.
Proof.
  intros R. pose proof (reachable_inv _ _ _ _ _ s R) as [I F].
  unfold on_paging_finished.
  destruct (current_page_site_path (spider_state s)) as [sp|] eqn:Ep; [|reflexivity].
  destruct (get_node_at_path (site_structure (spider_state s)) sp) as [h|] eqn:Eg;
    [|reflexivity].
  destruct (current_leaf _ _ _ I Eg) as [L _].
  enough (E : mark_visited true (site_structure (spider_state s)) h =
              mark_visited false (site_structure (spider_state s)) h) by now rewrite E.
  unfold mark_visited. apply propagate_either_way.
  now apply mark_visited_down1; [apply I|].
Qed.

End Lifecycle.

(** *** The small site again: the leaf [a/x] finishes, then the leaf [b] *)

Local Open Scope string_scope.

(** [example_spider] once [a/x] has finished: [b] is in progress. *)
Definition example_second_leaf : CategoryBasedSpider unit :=
  Eval vm_compute in fst (on_paging_finished true example_spider).

(** And once [b] has finished too. *)
Definition example_finished : CategoryBasedSpider unit :=
  Eval vm_compute in fst (on_paging_finished true example_second_leaf).

Lemma example_second_leaf_reachable :
  reachable unit example_Spider_init "CategoryBasedSpider" None true example_second_leaf.
Proof.
  exact (reach_paging_finished unit example_Spider_init "CategoryBasedSpider" None true
           example_spider example_second_leaf (Some {| pager_request_url := Some "u2" |})
           (example_spider_reachable true) ltac:(vm_compute; reflexivity)).
Defined.

(** A spider whose discovery found no category: the root is the only node. *)
Definition example_root_only : CategoryBasedSpider unit :=
  Eval vm_compute in
  fst (on_site_structure_discovery_complete
         {| site_structure_discoverer.discovered_name := "sp";
            site_structure_discoverer.discovered_structure := SiteStructure_init "site" |}
         example_new_spider).

Lemma example_root_only_reachable :
  reachable unit example_Spider_init "CategoryBasedSpider" None true example_root_only.
Proof.
  change example_root_only with
    (fst (on_site_structure_discovery_complete
            {| site_structure_discoverer.discovered_name := "sp";
               site_structure_discoverer.discovered_structure := SiteStructure_init "site" |}
            example_new_spider)).
  apply reach_discovered with (selectors := Some []) (name_arg := Some "sp")
                              (start_url_arg := Some "s"); reflexivity.
Defined.

Lemma paging_finished_lowers_new_leaves_witness :
  count_leaves NEW (site_structure (spider_state example_second_leaf))
  < count_leaves NEW (site_structure (spider_state example_spider)).
Proof.
  exact (paging_finished_lowers_new_leaves unit true example_spider example_second_leaf
           {| pager_request_url := Some "u2" |} ltac:(vm_compute; reflexivity)).
Defined.

Lemma paging_finished_none_iff_all_visited_witness :
  on_paging_finished true example_second_leaf = (example_finished, inr None) /\
  (forall q n, node_at (site_structure (spider_state example_finished)) q = Some n ->
               visit_state n = VISITED).
Proof.
  split; [vm_compute; reflexivity|].
  exact (proj1 (paging_finished_none_iff_all_visited unit example_Spider_init
                  "CategoryBasedSpider" None true example_second_leaf example_finished None
                  example_second_leaf_reachable ltac:(vm_compute; reflexivity)) eq_refl).
Defined.

Lemma paging_finished_keeps_tree_and_visited_witness :
  state_at (site_structure (spider_state example_second_leaf)) [0; 0] = Some VISITED /\
  state_at (site_structure (spider_state example_finished)) [0; 0] = Some VISITED.
Proof.
  split; [reflexivity|].
  exact (proj2 (paging_finished_keeps_tree_and_visited unit example_Spider_init
                  "CategoryBasedSpider" None true example_second_leaf example_finished None
                  example_second_leaf_reachable ltac:(vm_compute; reflexivity))
           [0; 0] eq_refl).
Defined.

Lemma paging_finished_raises_only_without_category_witness :
  on_paging_finished true example_root_only = (example_root_only, inl NotFound) /\
  children (site_structure (spider_state example_root_only)) = [].
Proof.
  split; [vm_compute; reflexivity|].
  destruct (paging_finished_raises_only_without_category unit example_Spider_init
              "CategoryBasedSpider" None true example_root_only example_root_only NotFound
              example_root_only_reachable ltac:(vm_compute; reflexivity)) as [_ [H|H]];
    [discriminate H | exact H].
Defined.

Lemma restart_resumes_where_saved_witness :
  exists s2 : CategoryBasedSpider unit,
    init example_Spider_init "CategoryBasedSpider" None
      (Some (snapshot (spider_state example_second_leaf))) (Some []) (Some "sp") (Some "s")
    = inr s2 /\
    snd (start_requests s2) = inr [Resume unit {| pager_request_url := Some "u2" |}].
Proof.
  eexists. split; [vm_compute; reflexivity|].
  refine (proj1 (restart_resumes_where_saved unit example_Spider_init
                   "CategoryBasedSpider" None true
                   {| site_structure_discoverer.discovered_name := "sp";
                      site_structure_discoverer.discovered_structure := example_tree |}
                   None example_spider example_second_leaf
                   {| pager_request_url := Some "u2" |}
                   (snapshot (spider_state example_second_leaf))
                   (Some []) (Some "sp") (Some "s") _
                   (or_introl _) _ _)); vm_compute; reflexivity.
Defined.

Lemma latest_snapshot_is_current_or_all_visited_witness :
  hd_error (store (spider_state example_spider)) = Some (snapshot (spider_state example_spider)) \/
  (forall q n, node_at (site_structure (spider_state example_spider)) q = Some n ->
               visit_state n = VISITED).
Proof.
  exact (latest_snapshot_is_current_or_all_visited unit example_Spider_init
           "CategoryBasedSpider" None true example_spider (example_spider_reachable true)).
Defined.

Lemma paging_finished_either_propagate_default_witness :
  on_paging_finished true example_second_leaf = on_paging_finished false example_second_leaf.
Proof.
  exact (paging_finished_either_propagate_default unit example_Spider_init
           "CategoryBasedSpider" None true example_second_leaf example_second_leaf_reachable).
Defined.

End traversal_coverage.

(* ===================================================================== *)
(** ** More on discovery: what a run keeps true of the tree *)
(* ===================================================================== *)

Module discovery_coverage.
Import site_structure_discoverer site_structure tree_facts discovered_tree_facts.

(** *** Insertion never removes, moves or renames a node *)

Lemma upsert_child_nth (seg : string) (f : Node -> Node) (cs : list Node) :
  forall j c, nth_error cs j = Some c ->
              nth_error (upsert_child seg f cs) j = Some c \/
              nth_error (upsert_child seg f cs) j = Some (f c).
Proof.
  induction cs as [|a cs IH]; intros [|j] c; simpl; try discriminate.
  - intros H. inversion H; subst. destruct (String.eqb (name c) seg); simpl; auto.
  - intros H. destruct (String.eqb (name a) seg); simpl; auto.
Qed.

Lemma upsert_child_child_index (seg' seg : string) (f : Node -> Node) (cs : list Node) :
  (forall c, name (f c) = name c) ->
  forall i, child_index seg cs = Some i ->
            child_index seg (upsert_child seg' f cs) = Some i.
Proof.
  intros Hf. induction cs as [|a cs IH]; simpl; intros i; [discriminate|].
  destruct (String.eqb (name a) seg) eqn:E.
  - intros H. inversion H; subst.
    destruct (String.eqb (name a) seg'); simpl; [rewrite Hf|]; now rewrite E.
  - destruct (child_index seg cs) as [i0|] eqn:Ec; [|discriminate].
    simpl. intros H. inversion H; subst.
    destruct (String.eqb (name a) seg'); simpl.
    + now rewrite Hf, E, Ec.
    + now rewrite E, (IH i0 eq_refl).
Qed.

Lemma lookup_insert_other (u : string) (segs : list string) :
  forall (segs' : list string) (n : Node) (h0 q : NodeRef),
    lookup_segments segs n h0 = Some q ->
    lookup_segments segs (insert_segments segs' u n) h0 = Some q.
Proof.
  induction segs as [|seg rest IH]; intros segs' n h0 q; [simpl; auto|].
  cbn [lookup_segments].
  destruct (child_index seg (children n)) as [i|] eqn:Ei; [|discriminate].
  destruct (nth_error (children n) i) as [c|] eqn:Ec; [|discriminate].
  intros H. destruct segs' as [|seg' rest']; cbn [insert_segments].
  - destruct n; simpl in *. now rewrite Ei, Ec.
  - destruct n as [nm un st cs]; simpl in *.
    rewrite (upsert_child_child_index seg' seg _ cs (insert_segments_name u rest') i Ei).
    destruct (upsert_child_nth seg' (insert_segments rest' u) cs i c Ec) as [E|E]; rewrite E.
    + exact H.
    + now apply IH.
Qed.

Lemma node_insert_other (u : string) (p : NodeRef) :
  forall (segs' : list string) (n m : Node),
    node_at n p = Some m ->
    exists m', node_at (insert_segments segs' u n) p = Some m' /\
               (url m <> None -> url m' <> None).
Proof.
  induction p as [|j p IH] using rev_ind; intros segs' n m.
  - simpl. intros H. inversion H; subst. eexists. split; [reflexivity|].
    destruct segs'; destruct m; simpl; [discriminate | auto].
  - rewrite !node_at_snoc.
    destruct (nth_error (children n) j) as [c|] eqn:Ec; [|discriminate].
    intros H. destruct segs' as [|seg' rest']; cbn [insert_segments].
    + exists m. destruct n; simpl in *. rewrite Ec. auto.
    + destruct n as [nm un st cs]; simpl in *.
      destruct (upsert_child_nth seg' (insert_segments rest' u) cs j c Ec) as [E|E]; rewrite E.
      * exists m. auto.
      * now apply IH.
Qed.

(** The path names a node of the tree, and that node has a URL. *)
Definition resolves (t : SiteStructure) (p : string) : Prop :=
  exists h m, get_node_at_path t p = Some h /\ node_at t h = Some m /\ url m <> None.

Lemma resolves_add (t : SiteStructure) (p p' u : string) :
  resolves t p -> resolves (add_node_with_path t p' u) p.
Proof.
  intros [h [m [H1 [H2 H3]]]].
  destruct (node_insert_other u h (split_slash p') t m H2) as [m' [H4 H5]].
  exists h, m'. split; [|split; auto].
  now apply lookup_insert_other.
Qed.

Lemma resolves_added (t : SiteStructure) (p u : string) :
  resolves (add_node_with_path t p u) p.
Proof.
  destruct (add_node_with_path_found t p u) as [h [m [H1 [H2 H3]]]].
  exists h, m. split; [exact H1|]. split; [exact H2|]. now rewrite H3.
Qed.

Lemma add_node_with_path_root (t : SiteStructure) (p u : string) :
  name (add_node_with_path t p u) = name t /\ url (add_node_with_path t p u) = url t.
Proof.
  unfold add_node_with_path. pose proof (split_slash_not_nil p) as N.
  destruct (split_slash p); [contradiction|]. now destruct t.
Qed.

Section InsertAll.

Variable parent_path : option string.

Local Abbreviation insert_all := (discoverer_facts.insert_all parent_path).

Lemma insert_all_cons (pr : string * string) (pairs : list (string * string)) t :
  insert_all (pr :: pairs) t =
  insert_all pairs (add_node_with_path t (structure_path_of parent_path (snd pr)) (fst pr)).
Proof. reflexivity. Qed.

Lemma insert_all_lookup (pairs : list (string * string)) :
  forall t p h, get_node_at_path t p = Some h ->
                get_node_at_path (insert_all pairs t) p = Some h.
Proof.
  induction pairs as [|pr pairs IH]; intros t p h H; [exact H|].
  rewrite insert_all_cons. apply IH. now apply lookup_insert_other.
Qed.

Lemma insert_all_resolves (pairs : list (string * string)) :
  forall t p, resolves t p -> resolves (insert_all pairs t) p.
Proof.
  induction pairs as [|pr pairs IH]; intros t p H; [exact H|].
  rewrite insert_all_cons. apply IH. now apply resolves_add.
Qed.

Lemma insert_all_root (pairs : list (string * string)) :
  forall t, name (insert_all pairs t) = name t /\ url (insert_all pairs t) = url t.
Proof.
  induction pairs as [|pr pairs IH]; intros t; [now split|].
  rewrite insert_all_cons.
  destruct (IH (add_node_with_path t (structure_path_of parent_path (snd pr)) (fst pr)))
    as [H1 H2].
  destruct (add_node_with_path_root t (structure_path_of parent_path (snd pr)) (fst pr))
    as [H3 H4].
  split; congruence.
Qed.

Lemma insert_all_resolves_new (pairs : list (string * string)) :
  forall t, Forall (fun pr => resolves (insert_all pairs t)
                                (structure_path_of parent_path (snd pr))) pairs.
Proof.
  induction pairs as [|pr pairs IH]; intros t; constructor.
  - rewrite insert_all_cons. apply insert_all_resolves, resolves_added.
  - rewrite insert_all_cons. apply IH.
Qed.

End InsertAll.

(** What is true of a request in flight: the start request has no path;
    any other has a path that names a node of the tree, with a URL. *)
Definition request_ok (t : SiteStructure) (r : CategoryRequest) : Prop :=
  match path r with
  | None => category_index r = 0
  | Some p => 0 < category_index r /\ resolves t p
  end.

Section Run.

Variables Response Continuation World : Type.
Variable fetch : string -> Response.

Local Abbreviation Crawl := (Crawl Response Continuation World).

(** One resolution, as far as the tree and the requests are concerned. *)
Lemma resolve_tree (k : nat) (c c' : Crawl) :
  resolve fetch k c = Some c' ->
  exists r pairs,
    nth_error (in_flight c) k = Some r /\
    structure (discoverer c') =
      discoverer_facts.insert_all (path r) pairs (structure (discoverer c)) /\
    in_flight c' =
      (remove_nth k (in_flight c) ++
       discoverer_facts.follow_ups (length (category_parsers (discoverer c)))
         (category_index r) (path r) pairs)%list /\
    site_structure_discoverer.name (discoverer c') =
      site_structure_discoverer.name (discoverer c) /\
    category_parsers (discoverer c') = category_parsers (discoverer c).
Proof.
  unfold resolve.
  destruct (nth_error (in_flight c) k) as [r|]; [|discriminate].
  destruct (nth_error (category_parsers (discoverer c)) (category_index r)) as [cp|] eqn:Ep.
  - rewrite (discoverer_facts.process_category_response_eq (discoverer c) (world c)
               (fetch (request_url r)) (category_index r) (path r) Ep).
    cbv zeta.
    match goal with |- context [if ?b then _ else _] => destruct b end;
      intros E; inversion E; subst c'; exists r, (cp (fetch (request_url r)));
      cbn [discoverer structure in_flight set_remaining_work set_structure requests_of
             site_structure_discoverer.name category_parsers];
      rewrite discoverer_facts.requests_of_map_YieldRequest; repeat split.
  - unfold process_category_response. cbn [category_parsers set_remaining_work].
    rewrite Ep. discriminate.
Qed.

Lemma In_remove_nth {A : Type} (k : nat) (l : list A) (x : A) :
  In x (remove_nth k l) -> In x l.
Proof.
  revert k. induction l as [|a l IH]; intros [|k]; simpl; auto.
  intros [H|H]; [now left | right; now apply (IH k)].
Qed.

Lemma resolve_requests_ok (k : nat) (c c' : Crawl) :
  Forall (request_ok (structure (discoverer c))) (in_flight c) ->
  resolve fetch k c = Some c' ->
  Forall (request_ok (structure (discoverer c'))) (in_flight c').
Proof.
  intros F Hr. destruct (resolve_tree k c c' Hr) as [r [pairs [_ [Et [Ef _]]]]].
  rewrite Et, Ef. apply Forall_app. split.
  - apply Forall_forall. intros x Hx. apply In_remove_nth in Hx.
    rewrite Forall_forall in F. specialize (F x Hx). unfold request_ok in *.
    destruct (path x) as [p|]; [|exact F]. destruct F as [F1 F2].
    split; [exact F1 | now apply insert_all_resolves].
  - unfold discoverer_facts.follow_ups.
    destruct (category_index r + 1 <? length (category_parsers (discoverer c))); [|constructor].
    apply Forall_map.
    eapply Forall_impl; [|apply (insert_all_resolves_new (path r) pairs)].
    intros pr H. unfold request_ok. cbn [path category_index]. split; [lia | exact H].
Qed.

(** The invariant of the tree along a run. *)
Record tree_inv (spider_name : string) (c : Crawl) : Prop :=
  { inv_fresh : fresh_tree (structure (discoverer c));
    inv_root_name : name (structure (discoverer c)) = spider_name;
    inv_root_url : url (structure (discoverer c)) = None;
    inv_requests : Forall (request_ok (structure (discoverer c))) (in_flight c) }.

Lemma resolve_tree_inv spider_name (k : nat) (c c' : Crawl) :
  tree_inv spider_name c -> resolve fetch k c = Some c' -> tree_inv spider_name c'.
Proof.
  intros [H1 H2 H3 H4] Hr. constructor.
  - exact (handover_facts.resolve_fresh Response Continuation World fetch k c c' H1 Hr).
  - destruct (resolve_tree k c c' Hr) as [r [pairs [_ [Et _]]]]. rewrite Et.
    now rewrite (proj1 (insert_all_root (path r) pairs _)).
  - destruct (resolve_tree k c c' Hr) as [r [pairs [_ [Et _]]]]. rewrite Et.
    now rewrite (proj2 (insert_all_root (path r) pairs _)).
  - now apply (resolve_requests_ok k c c').
Qed.

Lemma run_tree_inv spider_name (schedule : list nat) :
  forall c c' : Crawl,
    tree_inv spider_name c -> run fetch schedule c = Some c' -> tree_inv spider_name c'.
Proof.
  induction schedule as [|k rest IH]; intros c c' I; simpl.
  - intros E. now inversion E; subst.
  - destruct (resolve fetch k c) as [c1|] eqn:E; [|discriminate].
    apply IH. now apply (resolve_tree_inv spider_name k c c1).
Qed.

(** X9. At every point of a discovery run, whatever the pages hold and in
    whatever order they arrive: the root carries the spider's name and no
    URL; sibling names are unique and free of slashes; every node is [NEW];
    and every request in flight other than the start request carries a path
    that names a node of the tree, a node with a URL. *)
Theorem discovery_keeps_tree_well_formed
  (parsers : list (CategoryParser Response)) (cb : option (Callback Continuation World))
  (spider_name start : string) (w0 : World) (schedule : list nat) (c : Crawl) :
  run fetch schedule (start_crawl (init spider_name start parsers cb) w0) = Some c ->
  let t := structure (discoverer c) in
  name t = spider_name /\ url t = None /\
  wf_names t /\
  (forall q n, node_at t q = Some n -> visit_state n = NEW) /\
  Forall (request_ok t) (in_flight c).
Proof.
  intros Hrun t.
  assert (I0 : tree_inv spider_name (start_crawl (init spider_name start parsers cb) w0)).
  { constructor; try reflexivity.
    - split; reflexivity.
    - constructor; [reflexivity | constructor]. }
  destruct (run_tree_inv spider_name schedule _ c I0 Hrun) as [[W A] H2 H3 H4].
  split; [exact H2|]. split; [exact H3|]. split; [now apply wf_namesb_sound|].
  split; [now apply spider_facts.all_newb_sound | exact H4].
Qed.

(** X10. Discovery only adds: a path that names a node at some point of a run
    names the same node at every later point, whatever arrives in between. *)
Theorem discovery_never_removes_a_node (schedule : list nat) :
  forall (c c' : Crawl) (p : string) (h : NodeRef),
    run fetch schedule c = Some c' ->
    get_node_at_path (structure (discoverer c)) p = Some h ->
    get_node_at_path (structure (discoverer c')) p = Some h.
Proof.
  induction schedule as [|k rest IH]; intros c c' p h; simpl.
  - intros E. now inversion E; subst.
  - destruct (resolve fetch k c) as [c1|] eqn:E; [|discriminate].
    intros Hrun Hp. apply (IH c1 c' p h Hrun).
    destruct (resolve_tree k c c1 E) as [r [pairs [_ [Et _]]]]. rewrite Et.
    now apply insert_all_lookup.
Qed.

End Run.

(** *** A small site: the start page lists [a] and [b], the page of [a] lists [x] *)

Local Open Scope string_scope.

Definition example_level0 : CategoryParser string :=
  fun _ => [("u1", "a"); ("u2", "b")].

Definition example_level1 : CategoryParser string :=
  fun page => if String.eqb page "u1" then [("u3", "x")] else [].

(** The crawl once the start page has arrived. *)
Definition example_crawl : Crawl string unit unit :=
  {| discoverer :=
       {| site_structure_discoverer.name := "site";
          structure :=
            add_node_with_path (add_node_with_path (SiteStructure_init "site") "a" "u1")
              "b" "u2";
          site_structure_discoverer.start_url := "s";
          category_parsers := [example_level0; example_level1];
          remaining_work := 2;
          on_discovery_complete := @do_nothing unit unit |};
     world := tt;
     in_flight := [{| request_url := "u1"; category_index := 1; path := Some "a" |};
                   {| request_url := "u2"; category_index := 1; path := Some "b" |}];
     forwarded := [] |}.

Lemma example_crawl_run :
  run (fun u => u) [0]
    (start_crawl (init "site" "s" [example_level0; example_level1] None) tt)
  = Some example_crawl.
Proof. reflexivity. Qed.

Lemma discovery_keeps_tree_well_formed_witness :
  name (structure (discoverer example_crawl)) = "site" /\
  Forall (request_ok (structure (discoverer example_crawl))) (in_flight example_crawl).
Proof.
  destruct (discovery_keeps_tree_well_formed string unit unit (fun u => u)
              [example_level0; example_level1] None "site" "s" tt [0] example_crawl
              example_crawl_run) as [H1 [_ [_ [_ H5]]]].
  split; [exact H1 | exact H5].
Defined.

Lemma discovery_never_removes_a_node_witness :
  exists c' : Crawl string unit unit,
    run (fun u => u) [0; 0] example_crawl = Some c' /\
    get_node_at_path (structure (discoverer c')) "b" = Some [1].
Proof.
  eexists. split; [vm_compute; reflexivity|].
  refine (discovery_never_removes_a_node string unit unit (fun u => u) [0; 0]
            example_crawl _ "b" [1] _ _); vm_compute; reflexivity.
Defined.

End discovery_coverage.
(* ===================================================================== *)
(** ** More on the handover from discovery to the traversal *)
(* ===================================================================== *)

Module handover_coverage.
Import site_structure_discoverer tree_facts spider_facts.

Local Abbreviation Spider := category_based_spider.CategoryBasedSpider.
Local Abbreviation complete := category_based_spider.on_site_structure_discovery_complete.

Lemma init_selectors (Response : Type)
  (Spider_init : option string -> Outcome string) (class_name : string)
  (class_start_url : option string) (persisted : option category_based_spider.Snapshot)
  (selectors : list (CategoryParser Response))
  (name_arg start_url_arg : option string) (s : Spider Response) :
  category_based_spider.init Spider_init class_name class_start_url persisted
    (Some selectors) name_arg start_url_arg = inr s ->
  category_based_spider.category_selectors s = selectors.
Proof.
  unfold category_based_spider.init.
  destruct (Spider_init name_arg); [discriminate|].
  destruct start_url_arg; [intros H; now inversion H|].
  destruct (negb (category_based_spider.truthy class_start_url)); [discriminate|].
  destruct class_start_url; [intros H; now inversion H | discriminate].
Qed.

(** X11. An empty list of category selectors passes the spider's
    constructor, but a discoverer given the spider's selectors then cannot
    get anywhere, whatever its callback: its start request is the only one
    in flight, and processing any response to it lowers the counter to zero
    and raises on indexing the empty list, before the tree is touched and
    without the completion callback being told.  So no request ever
    resolves, and a run consists of no step at all. *)
Theorem empty_selector_list_stops_discovery (Response Continuation World : Type)
  (Spider_init : option string -> Outcome string) (class_name : string)
  (class_start_url : option string) (persisted : option category_based_spider.Snapshot)
  (name_arg start_url_arg : option string) (s : Spider Response)
  (spider : SpiderArgument) (cb : option (Callback Continuation World))
  (d0 : SiteStructureDiscoverer Response Continuation World) (w : World) :
  category_based_spider.init Spider_init class_name class_start_url persisted (Some [])
    name_arg start_url_arg = inr s ->
  construct spider (category_based_spider.start_url s)
    (category_based_spider.category_selectors s) cb = inr d0 ->
  let d := fst (create_start_request d0) in
  in_flight (start_crawl d0 w) =
    [{| request_url := category_based_spider.start_url s;
        category_index := 0; path := None |}] /\
  remaining_work d = 1%Z /\
  (forall response,
     process_category_response d w response 0 None =
     ((set_remaining_work d 0, w), inl IndexError)) /\
  (forall (fetch : string -> Response) k, resolve fetch k (start_crawl d0 w) = None) /\
  (forall (fetch : string -> Response) schedule c,
     run fetch schedule (start_crawl d0 w) = Some c ->
     schedule = [] /\ forwarded c = [] /\ world c = w).
Proof.
  intros Hi Hd.
  pose proof (init_selectors _ _ _ _ _ _ _ _ _ Hi) as Esel.
  unfold construct in Hd. rewrite Esel in Hd.
  destruct (spider_name_of spider) as [e|nm]; [discriminate|].
  inversion Hd; subst d0. clear Hd. cbv zeta.
  assert (R : forall (fetch : string -> Response) k,
             resolve fetch k
               (start_crawl (init (Continuation := Continuation) nm
                               (category_based_spider.start_url s) [] cb) w) = None).
  { intros fetch k. unfold resolve, start_crawl. cbn [in_flight create_start_request].
    destruct k as [|[|k]]; reflexivity. }
  split; [reflexivity|]. split; [reflexivity|]. split; [intros response; reflexivity|].
  split; [exact R|].
  intros fetch schedule c. destruct schedule as [|k rest]; cbn [run].
  - intros H. inversion H; subst c. repeat split.
  - rewrite R. discriminate.
Qed.

(** Every tree has a leaf. *)
Lemma leaf_exists (t : site_structure.Node) :
  exists p m, site_structure.node_at t p = Some m /\ site_structure.children m = [].
Proof.
  induction t as [nm u st cs IH] using Node_ind.
  destruct cs as [|c0 cs0].
  - exists [], (site_structure.mkNode nm u st []). split; reflexivity.
  - inversion IH as [|? ? [p [m [Hm Hc]]] _]; subst.
    exists (p ++ [0])%list, m. rewrite node_at_snoc. split; [exact Hm | exact Hc].
Qed.

(** X12. What the spider gets out of a discovery.  Take a spider built
    without a progress file and a discoverer constructed for it (given the
    spider as [spider], as [__init__] expects, with the spider's start URL
    and selectors) whose completion callback is
    [_on_site_structure_discovery_complete].  Once a run of that discoverer
    has counted down to zero, whatever the pages and the order of arrival:
    the spider holds the discovered tree, unchanged but for one leaf, the
    first in pre-order, which is [IN_PROGRESS] while every other node still
    is what discovery left; its cursors are that leaf's path and URL; the
    one value forwarded is the pager request for that URL; the latest
    snapshot is the state in memory; and the spider is in a state of the
    traversal. *)
Theorem discovery_hands_tree_to_traversal (Response : Type)
  (Spider_init : option string -> Outcome string) (class_name : string)
  (class_start_url : option string) (default_propagate : bool)
  (selectors : option (list (CategoryParser Response)))
  (name_arg start_url_arg : option string) (s : Spider Response)
  (d0 : SiteStructureDiscoverer Response category_based_spider.PagerRequest (Spider Response))
  (fetch : string -> Response) (schedule : list nat)
  (c : Crawl Response category_based_spider.PagerRequest (Spider Response)) :
  category_based_spider.init Spider_init class_name class_start_url None selectors
    name_arg start_url_arg = inr s ->
  construct (SpiderObject (category_based_spider.name s)) (category_based_spider.start_url s)
    (category_based_spider.category_selectors s) (Some (@complete Response)) = inr d0 ->
  run fetch schedule (start_crawl d0 s) = Some c ->
  remaining_work (discoverer c) = 0%Z ->
  let t := structure (discoverer c) in
  let st' := category_based_spider.spider_state (world c) in
  let t' := category_based_spider.site_structure st' in
  exists x n,
    site_structure.find_leaf_with_visit_state t site_structure.NEW = Some x /\
    site_structure.node_at t x = Some n /\ site_structure.children n = [] /\
    same_skeleton t t' /\
    state_at t' x = Some site_structure.IN_PROGRESS /\
    (forall q, q <> x -> state_at t' q = state_at t q) /\
    category_based_spider.current_page_site_path st' = Some (site_structure.get_path t x) /\
    category_based_spider.current_page_url st' = site_structure.url n /\
    forwarded c =
      [Some {| category_based_spider.pager_request_url := site_structure.url n |}] /\
    hd_error (category_based_spider.store st') = Some (category_based_spider.snapshot st') /\
    reachable Response Spider_init class_name class_start_url default_propagate (world c).
Proof.
  intros Hi Hd Hrun Hz t st' t'.
  unfold construct in Hd. cbn [spider_name_of] in Hd. inversion Hd; subst d0. clear Hd.
  pose proof (handover_facts.discovered_spider_reachable Response Spider_init class_name
                class_start_url default_propagate selectors name_arg start_url_arg s fetch
                schedule c Hi Hrun Hz) as R.
  destruct (discoverer_facts.run_start_safe fetch
              (category_based_spider.category_selectors s) (Some (@complete Response))
              (category_based_spider.name s) (category_based_spider.start_url s) s
              schedule Hrun) as [Hc [_ [_ Ha]]].
  destruct Ha as [Hf Hw].
  { destruct (in_flight c); [reflexivity|]. rewrite Hz in Hc. simpl in Hc. lia. }
  cbn [on_discovery_complete init] in Hf, Hw.
  assert (F : discovered_tree_facts.fresh_tree t).
  { eapply handover_facts.run_fresh; [|exact Hrun]. split; reflexivity. }
  destruct F as [W A].
  destruct (leaf_exists t) as [p [m [Hm Hcm]]].
  pose proof (all_newb_sound t A p m Hm) as Hvm.
  destruct (site_structure.find_leaf_with_visit_state t site_structure.NEW) as [x|] eqn:E.
  2:{ exfalso. unfold site_structure.find_leaf_with_visit_state in E.
      exact (find_leaf_from_complete site_structure.NEW t [] E p m Hm Hcm Hvm). }
  pose proof E as E'. unfold site_structure.find_leaf_with_visit_state in E'.
  destruct (find_leaf_from_sound site_structure.NEW _ _ _ E') as [p' [n [Hx [Hn [Hcn _]]]]].
  rewrite app_nil_r in Hx. subst p'.
  assert (Lx : leaf_at t x) by now exists n.
  set (tx := site_structure.update_at t x
               (site_structure.set_visit_state site_structure.IN_PROGRESS true)).
  pose proof (set_visit_state_same_skeleton site_structure.IN_PROGRESS true t x) as S.
  fold tx in S.
  assert (Hu : category_based_spider.url_at tx x = site_structure.url n).
  { unfold category_based_spider.url_at.
    destruct (same_skeleton_node _ _ _ _ S Hn) as [n' [Hn' Hs]]. rewrite Hn'.
    unfold skeleton in Hs. congruence. }
  assert (Hpth : site_structure.get_path tx x = site_structure.get_path t x)
    by now apply same_skeleton_get_path.
  assert (Ew : world c =
               fst (category_based_spider.progress_to_next_category
                      (category_based_spider.set_spider_state s
                         (category_based_spider.save
                            (category_based_spider.set_site_structure
                               (category_based_spider.spider_state s) t)))))
    by exact Hw.
  assert (Ef : forwarded c =
               [snd (category_based_spider.progress_to_next_category
                       (category_based_spider.set_spider_state s
                          (category_based_spider.save
                             (category_based_spider.set_site_structure
                                (category_based_spider.spider_state s) t))))])
    by exact Hf.
  unfold category_based_spider.progress_to_next_category in Ew, Ef.
  cbn [category_based_spider.spider_state category_based_spider.set_spider_state
         category_based_spider.save category_based_spider.set_site_structure
         category_based_spider.site_structure] in Ew, Ef.
  rewrite E in Ew, Ef. fold tx in Ew, Ef. cbn [fst snd] in Ew, Ef.
  exists x, n.
  split; [reflexivity|]. split; [exact Hn|]. split; [exact Hcn|].
  unfold t', st'. rewrite Ew.
  cbn [category_based_spider.spider_state category_based_spider.set_spider_state
         category_based_spider.set_site_pager category_based_spider.save
         category_based_spider.set_site_structure category_based_spider.set_current_page_url
         category_based_spider.set_current_page_site_path
         category_based_spider.site_structure category_based_spider.current_page_url
         category_based_spider.current_page_site_path category_based_spider.store].
  split; [exact S|].
  pose proof (set_in_progress_state t x Lx) as Hst. fold tx in Hst.
  split.
  { rewrite (Hst x).
    destruct (list_eq_dec Nat.eq_dec x x); [reflexivity | congruence]. }
  split.
  { intros q Hq. rewrite (Hst q).
    destruct (list_eq_dec Nat.eq_dec q x); [contradiction | reflexivity]. }
  split; [now rewrite Hpth|]. split; [exact Hu|].
  split.
  { rewrite Ef. unfold category_based_spider.pager_create_start_request,
      category_based_spider.create_site_pager.
    cbn [category_based_spider.pager_start_url]. now rewrite Hu. }
  split; [reflexivity|].
  rewrite <- Ew. exact R.
Qed.

Local Open Scope string_scope.

Lemma empty_selector_list_stops_discovery_witness :
  exists d0 : SiteStructureDiscoverer unit unit unit,
    construct (SpiderObject "sp") "s" [] None = inr d0 /\
    process_category_response (fst (create_start_request d0)) tt tt 0 None =
      ((set_remaining_work (fst (create_start_request d0)) 0, tt), inl IndexError) /\
    resolve (fun _ => tt) 0 (start_crawl d0 tt) = None.
Proof.
  eexists. split; [reflexivity|].
  match goal with
  | |- context [start_crawl ?d _] =>
      destruct (empty_selector_list_stops_discovery unit unit unit example_Spider_init
                  "CategoryBasedSpider" None None (Some "sp") (Some "s") example_new_spider
                  (SpiderObject "sp") None d tt eq_refl eq_refl)
        as [_ [_ [H3 [H4 _]]]]
  end.
  split; [exact (H3 tt) | exact (H4 (fun _ => tt) 0)].
Defined.

(** A spider with two levels of selectors, for the site of the discovery
    examples. *)
Definition example_two_level_spider : Spider string :=
  {| category_based_spider.name := "sp";
     category_based_spider.start_url := "s";
     category_based_spider.category_selectors :=
       [discovery_coverage.example_level0; discovery_coverage.example_level1];
     category_based_spider.spider_state :=
       category_based_spider.CategoryBasedSpiderState_init "sp" None;
     category_based_spider.site_pager := None |}.

Lemma discovery_hands_tree_to_traversal_witness :
  exists c : Crawl string category_based_spider.PagerRequest (Spider string),
    run (fun u => u) [0; 1; 0]
      (start_crawl
         (init "sp" "s" [discovery_coverage.example_level0; discovery_coverage.example_level1]
            (Some (@complete string)))
         example_two_level_spider) = Some c /\
    remaining_work (discoverer c) = 0%Z /\
    state_at (category_based_spider.site_structure
                (category_based_spider.spider_state (world c))) [0; 0]
    = Some site_structure.IN_PROGRESS /\
    forwarded c = [Some {| category_based_spider.pager_request_url := Some "u3" |}].
Proof.
  eexists. split; [vm_compute; reflexivity|]. split; [reflexivity|].
  match goal with
  | |- context [forwarded ?c] =>
      destruct (discovery_hands_tree_to_traversal string example_Spider_init
                  "CategoryBasedSpider" None true
                  (Some [discovery_coverage.example_level0; discovery_coverage.example_level1])
                  (Some "sp") (Some "s") example_two_level_spider
                  (init "sp" "s"
                     [discovery_coverage.example_level0; discovery_coverage.example_level1]
                     (Some (@complete string)))
                  (fun u => u) [0; 1; 0] c
                  ltac:(reflexivity) ltac:(reflexivity) ltac:(vm_compute; reflexivity)
                  ltac:(reflexivity))
        as [x [n [H1 [H2 [_ [_ [H5 [_ [_ [_ [H9 _]]]]]]]]]]]
  end.
  assert (Ex : x = [0; 0]) by (vm_compute in H1; now inversion H1).
  subst x. split; [exact H5|].
  rewrite H9. vm_compute in H2. inversion H2; subst n. reflexivity.
Defined.

End handover_coverage.
